(** * Cinema Pro HDR: a shallow embedding of the core engine

    The development follows the layout of the C++ sources:

    - [FloatOps]: the arithmetic the sources use on [float], as an
      interface with two instances: [F32.ops], IEEE-754 binary32 on the
      Standard Library's [spec_float] (NaN, infinities, signed zeros,
      round to nearest even), with the libm functions left as a
      parameter; and [Ideal.ops], exact real arithmetic;
    - [NumericalProtection], [Params], [ErrorHandling]: the parameter
      bundle, its validity predicate and clamping, and the error handler
      with its three-tier fallback selector;
    - [Img], [NumericalUtils], [ColorSpaceConverter]: images, the
      working-domain converter, OKLab saturation and the two-stage gamut
      processor;
    - [ToneMapper], [HighlightDetailProcessor]: the tone curves with
      their validators and the highlight USM;
    - [CphProcessor]: the frame pipeline.

    The code is embedded once, over the interface.  Statements about NaN
    and infinities, clamping, error codes, the validator of the tone
    curve and the soft knee are proved at [F32.ops] for an arbitrary
    libm, with the descents that rounding causes shown on concrete
    inputs; statements that rest on comparisons and clamps only are
    also read at [Ideal.ops], where every [float] operation is the
    exact real operation, as is the monotonicity of the curve
    formulas. *)

From Stdlib Require Import ZArith Bool List Lia String.
From Stdlib Require Import SpecFloat.
From Stdlib Require Import Reals Lra Psatz Sorted.
Import ListNotations.

(* ================================================================== *)
(** * The arithmetic interface *)

Class FloatOps (F : Type) : Type := mkFloatOps {
  (** the literal [n/d], e.g. [0.05f] is [ratio 5 100] *)
  ratio : positive -> positive -> F;
  zero : F;
  (** [static_cast<float>(i)] *)
  of_int : Z -> F;
  fneg : F -> F;
  fadd : F -> F -> F;
  fsub : F -> F -> F;
  fmul : F -> F -> F;
  fdiv : F -> F -> F;
  (** [x < y], [x <= y], [x == y] *)
  flt : F -> F -> bool;
  fle : F -> F -> bool;
  feq : F -> F -> bool;
  isfinite : F -> bool;
  isnan : F -> bool;
  (** [std::abs], [std::pow], [std::log], [std::exp] *)
  fabs : F -> F;
  powf : F -> F -> F;
  logf : F -> F;
  expf : F -> F
}.

Section Derived.

Context {F : Type} {ops : FloatOps F}.

Definition one : F := ratio 1 1.

(** [x > y] and [x >= y] *)
Definition fgt (x y : F) : bool := flt y x.
Definition fge (x y : F) : bool := fle y x.

(** [std::clamp(v, lo, hi)] is [(v < lo) ? lo : (hi < v) ? hi : v]. *)
Definition std_clamp (v lo hi : F) : F :=
  if flt v lo then lo else if flt hi v then hi else v.

(** [std::max(a, b)] is [(a < b) ? b : a]; [std::min(a, b)] is
    [(b < a) ? b : a]. *)
Definition std_max (a b : F) : F := if flt a b then b else a.
Definition std_min (a b : F) : F := if flt b a then b else a.

(** [std::max({a, b, c})]: the first greatest element. *)
Definition std_max3 (a b c : F) : F := std_max (std_max a b) c.

Definition RGB : Type := (F * F * F)%type.

Definition black : RGB := (zero, zero, zero).

End Derived.

Arguments RGB F : clear implicits.

(** ** binary32 *)

Module F32.

Definition prec : Z := 24.
Definition emax : Z := 128.

Definition float : Type := spec_float.

(** The binary32 nearest to [n/d]: the division of two exact integers
    is correctly rounded. *)
Definition lit (n d : positive) : float :=
  SFdiv prec emax (S754_finite false n 0) (S754_finite false d 0).

Definition NaN : float := S754_nan.
Definition pinf : float := S754_infinity false.
Definition ninf : float := S754_infinity true.

Definition is_nan (x : float) : bool :=
  match x with S754_nan => true | _ => false end.

Definition is_finite (x : float) : bool :=
  match x with
  | S754_zero _ | S754_finite _ _ _ => true
  | S754_infinity _ | S754_nan => false
  end.

(** The functions of libm; IEEE-754 does not fix their results, so they
    are a parameter of the binary32 arithmetic. *)
Class Libm : Type := mkLibm {
  libm_pow : float -> float -> float;
  libm_log : float -> float;
  libm_exp : float -> float
}.

#[global] Instance ops {m : Libm} : FloatOps float :=
  {| ratio := lit;
     zero := S754_zero false;
     of_int := fun z => binary_normalize prec emax z 0 false;
     fneg := SFopp;
     fadd := SFadd prec emax;
     fsub := SFsub prec emax;
     fmul := SFmul prec emax;
     fdiv := SFdiv prec emax;
     flt := SFltb;
     fle := SFleb;
     feq := SFeqb;
     isfinite := is_finite;
     isnan := is_nan;
     fabs := SFabs;
     powf := libm_pow;
     logf := libm_log;
     expf := libm_exp |}.

(** The libm whose every call fails with NaN: the worst case for the
    code's NaN guards, used to run the code on concrete inputs. *)
Definition nan_libm : Libm :=
  {| libm_pow := fun _ _ => NaN;
     libm_log := fun _ => NaN;
     libm_exp := fun _ => NaN |}.

End F32.

(** ** Exact reals *)

Module Ideal.

Local Open Scope R_scope.

Definition Rltb (x y : R) : bool := if Rlt_dec x y then true else false.
Definition Rleb (x y : R) : bool := if Rle_dec x y then true else false.
Definition Reqb (x y : R) : bool := if Req_dec_T x y then true else false.

(** [std::pow] for a positive base; the tone curves guard every call so
    that the base is positive. *)
Definition Rpow (b e : R) : R := if Rlt_dec 0 b then Rpower b e else 0.

Definition ops : FloatOps R :=
  {| ratio := fun n d => IZR (Zpos n) / IZR (Zpos d);
     zero := 0;
     of_int := IZR;
     fneg := Ropp;
     fadd := Rplus;
     fsub := Rminus;
     fmul := Rmult;
     fdiv := Rdiv;
     flt := Rltb;
     fle := Rleb;
     feq := Reqb;
     isfinite := fun _ => true;
     isnan := fun _ => false;
     fabs := Rabs;
     powf := Rpow;
     logf := ln;
     expf := exp |}.

End Ideal.

(* ================================================================== *)
(** * core.h: enumerations and the parameter bundle *)

Inductive ErrorCode :=
| SUCCESS | SCHEMA_MISSING | RANGE_PIVOT | RANGE_KNEE | NAN_INF
| DET_MISMATCH | HL_FLICKER | DCI_BOUND | GAMUT_OOG.

Inductive CurveType := PPR | RLOG.

Inductive ColorSpace := BT2020_PQ | P3_D65 | ACESG | REC709.

Inductive FallbackStrategy :=
| PARAMETER_CORRECTION | STANDARD_FALLBACK | HARD_FALLBACK.

Record CphParams (F : Type) := mkCphParams {
  curve : CurveType;
  pivot_pq : F;
  gamma_s : F;
  gamma_h : F;
  shoulder_h : F;
  black_lift : F;
  highlight_detail : F;
  sat_base : F;
  sat_hi : F;
  dci_compliance : bool;
  deterministic : bool;
  rlog_a : F;
  rlog_b : F;
  rlog_c : F;
  rlog_t : F;
  yknee : F;
  alpha : F;
  toe : F
}.

Arguments mkCphParams {F}.
Arguments curve {F}.
Arguments pivot_pq {F}.
Arguments gamma_s {F}.
Arguments gamma_h {F}.
Arguments shoulder_h {F}.
Arguments black_lift {F}.
Arguments highlight_detail {F}.
Arguments sat_base {F}.
Arguments sat_hi {F}.
Arguments dci_compliance {F}.
Arguments deterministic {F}.
Arguments rlog_a {F}.
Arguments rlog_b {F}.
Arguments rlog_c {F}.
Arguments rlog_t {F}.
Arguments yknee {F}.
Arguments alpha {F}.
Arguments toe {F}.

Section Defaults.

Context {F : Type} {ops : FloatOps F}.

(** The member initialisers of [struct CphParams]. *)
Definition default_params : CphParams F :=
{| curve := PPR;
   pivot_pq := ratio 18 100;
   gamma_s := ratio 125 100;
   gamma_h := ratio 110 100;
   shoulder_h := ratio 15 10;
   black_lift := ratio 2 1000;
   highlight_detail := ratio 2 10;
   sat_base := ratio 1 1;
   sat_hi := ratio 95 100;
   dci_compliance := false;
   deterministic := false;
   rlog_a := ratio 8 1;
   rlog_b := ratio 1 1;
   rlog_c := ratio 15 10;
   rlog_t := ratio 55 100;
   yknee := ratio 97 100;
   alpha := ratio 6 10;
   toe := ratio 2 1000 |}.

End Defaults.

(* ================================================================== *)
(** * error_handler.cpp: NumericalProtection *)

Module NumericalProtection.

Section Generic.

Context {F : Type} {ops : FloatOps F}.

(** [std::isfinite(value) && !std::isnan(value)] *)
Definition IsValid (value : F) : bool :=
isfinite value && negb (isnan value).

Definition Saturate (value : F) : F :=
if negb (IsValid value) then zero else std_clamp value zero one.

Definition FixInvalid (value fallback_value : F) : F :=
if IsValid value then value else fallback_value.


(** [1e-8f], the smallest divisor magnitude the safe divisions accept. *)
Definition tiny : F := ratio 1 100000000.

Definition SafeDivide (numerator denominator fallback_value : F) : F :=
  if negb (IsValid numerator) || negb (IsValid denominator)
     || flt (fabs denominator) tiny
  then fallback_value
  else
    let result := fdiv numerator denominator in
    if IsValid result then result else fallback_value.

Definition SafeLog (value fallback_value : F) : F :=
  if negb (IsValid value) || fle value zero then fallback_value
  else
    let result := logf value in
    if IsValid result then result else fallback_value.

End Generic.

End NumericalProtection.

(* ================================================================== *)
(** * cph_params.cpp: validity and clamping of the bundle *)

Module Params.

Import NumericalProtection.

Section Generic.

Context {F : Type} {ops : FloatOps F}.

(** One row of the range table: [value < lo || value > hi]. *)
Definition out_of_range (value lo hi : F) : bool :=
flt value lo || fgt value hi.

Definition IsValid (p : CphParams F) : bool :=
if negb (NumericalProtection.IsValid (pivot_pq p))
   || negb (NumericalProtection.IsValid (gamma_s p))
   || negb (NumericalProtection.IsValid (gamma_h p))
   || negb (NumericalProtection.IsValid (shoulder_h p))
   || negb (NumericalProtection.IsValid (rlog_a p))
   || negb (NumericalProtection.IsValid (rlog_b p))
   || negb (NumericalProtection.IsValid (rlog_c p))
   || negb (NumericalProtection.IsValid (rlog_t p))
   || negb (NumericalProtection.IsValid (black_lift p))
   || negb (NumericalProtection.IsValid (highlight_detail p))
   || negb (NumericalProtection.IsValid (sat_base p))
   || negb (NumericalProtection.IsValid (sat_hi p))
   || negb (NumericalProtection.IsValid (yknee p))
   || negb (NumericalProtection.IsValid (alpha p))
   || negb (NumericalProtection.IsValid (toe p))
then false
else if out_of_range (pivot_pq p) (ratio 5 100) (ratio 30 100) then false
else if out_of_range (gamma_s p) (ratio 1 1) (ratio 16 10) then false
else if out_of_range (gamma_h p) (ratio 8 10) (ratio 14 10) then false
else if out_of_range (shoulder_h p) (ratio 5 10) (ratio 3 1) then false
else if out_of_range (rlog_a p) (ratio 1 1) (ratio 16 1) then false
else if out_of_range (rlog_b p) (ratio 8 10) (ratio 12 10) then false
else if out_of_range (rlog_c p) (ratio 5 10) (ratio 3 1) then false
else if out_of_range (rlog_t p) (ratio 4 10) (ratio 7 10) then false
else if out_of_range (black_lift p) zero (ratio 2 100) then false
else if out_of_range (highlight_detail p) zero (ratio 1 1) then false
else if out_of_range (sat_base p) zero (ratio 2 1) then false
else if out_of_range (sat_hi p) zero (ratio 2 1) then false
else if out_of_range (yknee p) (ratio 95 100) (ratio 99 100) then false
else if out_of_range (alpha p) (ratio 2 10) (ratio 1 1) then false
else if out_of_range (toe p) zero (ratio 1 100) then false
else true.

(** First every non-finite field is replaced by the midpoint of its
  range, then every field is clamped to its range. *)
Definition ClampToValidRange (p : CphParams F) : CphParams F :=
let pivot_pq1 := FixInvalid (pivot_pq p) (ratio 175 1000) in
let gamma_s1 := FixInvalid (gamma_s p) (ratio 13 10) in
let gamma_h1 := FixInvalid (gamma_h p) (ratio 11 10) in
let shoulder_h1 := FixInvalid (shoulder_h p) (ratio 175 100) in
let rlog_a1 := FixInvalid (rlog_a p) (ratio 85 10) in
let rlog_b1 := FixInvalid (rlog_b p) (ratio 1 1) in
let rlog_c1 := FixInvalid (rlog_c p) (ratio 175 100) in
let rlog_t1 := FixInvalid (rlog_t p) (ratio 55 100) in
let black_lift1 := FixInvalid (black_lift p) (ratio 1 100) in
let highlight_detail1 := FixInvalid (highlight_detail p) (ratio 5 10) in
let sat_base1 := FixInvalid (sat_base p) (ratio 1 1) in
let sat_hi1 := FixInvalid (sat_hi p) (ratio 1 1) in
let yknee1 := FixInvalid (yknee p) (ratio 97 100) in
let alpha1 := FixInvalid (alpha p) (ratio 6 10) in
let toe1 := FixInvalid (toe p) (ratio 5 1000) in
{| curve := curve p;
   pivot_pq := std_clamp pivot_pq1 (ratio 5 100) (ratio 30 100);
   gamma_s := std_clamp gamma_s1 (ratio 1 1) (ratio 16 10);
   gamma_h := std_clamp gamma_h1 (ratio 8 10) (ratio 14 10);
   shoulder_h := std_clamp shoulder_h1 (ratio 5 10) (ratio 3 1);
   black_lift := std_clamp black_lift1 zero (ratio 2 100);
   highlight_detail := std_clamp highlight_detail1 zero (ratio 1 1);
   sat_base := std_clamp sat_base1 zero (ratio 2 1);
   sat_hi := std_clamp sat_hi1 zero (ratio 2 1);
   dci_compliance := dci_compliance p;
   deterministic := deterministic p;
   rlog_a := std_clamp rlog_a1 (ratio 1 1) (ratio 16 1);
   rlog_b := std_clamp rlog_b1 (ratio 8 10) (ratio 12 10);
   rlog_c := std_clamp rlog_c1 (ratio 5 10) (ratio 3 1);
   rlog_t := std_clamp rlog_t1 (ratio 4 10) (ratio 7 10);
   yknee := std_clamp yknee1 (ratio 95 100) (ratio 99 100);
   alpha := std_clamp alpha1 (ratio 2 10) (ratio 1 1);
   toe := std_clamp toe1 zero (ratio 1 100) |}.

(** What [IsValid] checks of one field. *)
Definition field_ok (v lo hi : F) : Prop :=
  NumericalProtection.IsValid v = true /\ out_of_range v lo hi = false.

End Generic.

End Params.

(* ================================================================== *)
(** * error_handler.cpp: the log throttler and the error handler *)

Module ErrorHandling.

Import NumericalProtection.
Local Open Scope string_scope.
Local Open Scope Z_scope.

Section Generic.

Context {F : Type} {ops : FloatOps F}.

Record ErrorReport := mkErrorReport {
code : ErrorCode;
message : string;
field_name : string;
invalid_value : F;
action_taken : string;
clip_guid : string;
timecode : string
}.

(** A default-constructed [ErrorReport]. *)
Definition no_error : ErrorReport :=
{| code := SUCCESS; message := ""; field_name := "";
   invalid_value := zero; action_taken := ""; clip_guid := "";
   timecode := "" |}.

Definition IsError (e : ErrorReport) : bool :=
match code e with SUCCESS => false | _ => true end.

(** [static_cast<int>(error_code)] *)
Definition code_index (c : ErrorCode) : Z :=
match c with
| SUCCESS => 0 | SCHEMA_MISSING => 1 | RANGE_PIVOT => 2
| RANGE_KNEE => 3 | NAN_INF => 4 | DET_MISMATCH => 5
| HL_FLICKER => 6 | DCI_BOUND => 7 | GAMUT_OOG => 8
end.

(** ** LogThrottler.  Readings of the steady clock are an explicit
  argument [now], in milliseconds. *)

Record ThrottleInfo := mkThrottleInfo {
count : Z;
window_start : Z;
throttled_count : Z;
first_throttled : Z;
last_throttled : Z
}.

Definition MAX_LOGS_PER_SECOND : Z := 10.
Definition WINDOW_DURATION : Z := 1000.

Definition fresh_info : ThrottleInfo :=
{| count := 0; window_start := 0; throttled_count := 0;
   first_throttled := 0; last_throttled := 0 |}.

(** [throttle_map_]; [operator[]] creates a fresh entry on first use. *)
Definition throttle_map : Type := ErrorCode -> ThrottleInfo.

Definition empty_map : throttle_map := fun _ => fresh_info.

Definition store (m : throttle_map) (c : ErrorCode) (i : ThrottleInfo)
: throttle_map :=
fun c' => if code_index c' =? code_index c then i else m c'.

Definition UpdateWindow (now : Z) (info : ThrottleInfo) : ThrottleInfo :=
if WINDOW_DURATION <=? now - window_start info
then {| count := 0; window_start := now;
        throttled_count := throttled_count info;
        first_throttled := first_throttled info;
        last_throttled := last_throttled info |}
else info.

Definition ShouldLog (now : Z) (error_code : ErrorCode) (m : throttle_map)
: bool * throttle_map :=
let info := UpdateWindow now (m error_code) in
if MAX_LOGS_PER_SECOND <=? count info then
  let n := throttled_count info + 1 in
  (false,
   store m error_code
     {| count := count info; window_start := window_start info;
        throttled_count := n;
        first_throttled := if n =? 1 then now else first_throttled info;
        last_throttled := now |})
else
  (true,
   store m error_code
     {| count := count info + 1; window_start := window_start info;
        throttled_count := throttled_count info;
        first_throttled := first_throttled info;
        last_throttled := last_throttled info |}).

(** ** ErrorHandler.  The handler's members, plus what it has written:
  [cerr] holds the reports printed by [LogError], [cout] the
  corrections printed by [CorrectParameter] (field, original value,
  corrected value), [callback_calls] the reports handed to the user
  callback when one is installed. *)

Record ErrorHandler := mkErrorHandler {
last_error_ : ErrorReport;
current_strategy_ : FallbackStrategy;
throttler_ : throttle_map;
error_callback_ : bool;
cerr : list ErrorReport;
cout : list (string * F * F);
callback_calls : list ErrorReport
}.

Definition new_handler : ErrorHandler :=
{| last_error_ := no_error;
   current_strategy_ := PARAMETER_CORRECTION;
   throttler_ := empty_map;
   error_callback_ := false;
   cerr := []; cout := []; callback_calls := [] |}.

Definition DetermineFallbackStrategy (error_code : ErrorCode)
: FallbackStrategy :=
match error_code with
| RANGE_PIVOT | RANGE_KNEE => PARAMETER_CORRECTION
| SCHEMA_MISSING | DCI_BOUND | GAMUT_OOG | DET_MISMATCH | HL_FLICKER =>
    STANDARD_FALLBACK
| NAN_INF => HARD_FALLBACK
| _ => HARD_FALLBACK
end.

Definition HandleError (h : ErrorHandler) (now : Z)
  (error_code : ErrorCode) (msg fld : string) (value : F)
  (guid tc : string) : ErrorHandler * FallbackStrategy :=
let strategy := DetermineFallbackStrategy error_code in
let error :=
  {| code := error_code; message := msg; field_name := fld;
     invalid_value := value;
     action_taken :=
       match strategy with
       | PARAMETER_CORRECTION => "PARAM_CORRECT"
       | STANDARD_FALLBACK => "FALLBACK2094"
       | HARD_FALLBACK => "IDENTITY"
       end;
     clip_guid := guid; timecode := tc |} in
let '(log, thr) := ShouldLog now error_code (throttler_ h) in
({| last_error_ := error;
    current_strategy_ := strategy;
    throttler_ := thr;
    error_callback_ := error_callback_ h;
    cerr := if log then cerr h ++ [error] else cerr h;
    cout := cout h;
    callback_calls :=
      if error_callback_ h then callback_calls h ++ [error]
      else callback_calls h |},
 strategy).

Definition CorrectParameter (h : ErrorHandler) (now : Z)
  (param lo hi : F) (fld : string) : ErrorHandler * F :=
let original := param in
let param := std_clamp param lo hi in
let param :=
  if negb (IsValid param) then fmul (fadd lo hi) (ratio 5 10)
  else param in
let '(log, thr) := ShouldLog now RANGE_PIVOT (throttler_ h) in
({| last_error_ := last_error_ h;
    current_strategy_ := current_strategy_ h;
    throttler_ := thr;
    error_callback_ := error_callback_ h;
    cerr := cerr h;
    cout := if log then cout h ++ [(fld, original, param)] else cout h;
    callback_calls := callback_calls h |},
 param).

Definition ValidateFloatRange (h : ErrorHandler) (now : Z)
  (value lo hi : F) (fld : string) : ErrorHandler * F * bool :=
if negb (IsValid value) then
  let '(h1, _) :=
    HandleError h now NAN_INF "参数包含NaN或Inf值" fld value "" "" in
  let '(h2, v) := CorrectParameter h1 now value lo hi fld in
  (h2, v, true)
else if flt value lo || fgt value hi then
  let '(h1, _) :=
    HandleError h now RANGE_PIVOT "参数超出有效范围" fld value "" "" in
  let '(h2, v) := CorrectParameter h1 now value lo hi fld in
  (h2, v, true)
else (h, value, false).

Definition ValidateAndCorrectParams (h : ErrorHandler) (now : Z)
  (p : CphParams F) : ErrorHandler * CphParams F * bool :=
let '(h, v_pivot, c1) :=
  ValidateFloatRange h now (pivot_pq p) (ratio 5 100) (ratio 30 100)
    "pivot_pq" in
let '(h, v_gs, c2) :=
  ValidateFloatRange h now (gamma_s p) (ratio 1 1) (ratio 16 10)
    "gamma_s" in
let '(h, v_gh, c3) :=
  ValidateFloatRange h now (gamma_h p) (ratio 8 10) (ratio 14 10)
    "gamma_h" in
let '(h, v_sh, c4) :=
  ValidateFloatRange h now (shoulder_h p) (ratio 5 10) (ratio 3 1)
    "shoulder_h" in
let '(h, v_bl, c5) :=
  ValidateFloatRange h now (black_lift p) zero (ratio 2 100)
    "black_lift" in
let '(h, v_hd, c6) :=
  ValidateFloatRange h now (highlight_detail p) zero (ratio 1 1)
    "highlight_detail" in
let '(h, v_sb, c7) :=
  ValidateFloatRange h now (sat_base p) zero (ratio 2 1) "sat_base" in
let '(h, v_shi, c8) :=
  ValidateFloatRange h now (sat_hi p) zero (ratio 2 1) "sat_hi" in
let '(h, v_ra, c9) :=
  ValidateFloatRange h now (rlog_a p) (ratio 1 1) (ratio 16 1)
    "rlog_a" in
let '(h, v_rb, c10) :=
  ValidateFloatRange h now (rlog_b p) (ratio 8 10) (ratio 12 10)
    "rlog_b" in
let '(h, v_rc, c11) :=
  ValidateFloatRange h now (rlog_c p) (ratio 5 10) (ratio 3 1)
    "rlog_c" in
let '(h, v_rt, c12) :=
  ValidateFloatRange h now (rlog_t p) (ratio 4 10) (ratio 7 10)
    "rlog_t" in
let '(h, v_yk, c13) :=
  ValidateFloatRange h now (yknee p) (ratio 95 100) (ratio 99 100)
    "yknee" in
let '(h, v_al, c14) :=
  ValidateFloatRange h now (alpha p) (ratio 2 10) (ratio 1 1) "alpha" in
let '(h, v_toe, c15) :=
  ValidateFloatRange h now (toe p) zero (ratio 1 100) "toe" in
(h,
 {| curve := curve p;
    pivot_pq := v_pivot; gamma_s := v_gs; gamma_h := v_gh;
    shoulder_h := v_sh; black_lift := v_bl; highlight_detail := v_hd;
    sat_base := v_sb; sat_hi := v_shi;
    dci_compliance := dci_compliance p;
    deterministic := deterministic p;
    rlog_a := v_ra; rlog_b := v_rb; rlog_c := v_rc; rlog_t := v_rt;
    yknee := v_yk; alpha := v_al; toe := v_toe |},
 c1 || c2 || c3 || c4 || c5 || c6 || c7 || c8 || c9 || c10 || c11
 || c12 || c13 || c14 || c15).

End Generic.

Arguments ErrorReport F : clear implicits.
Arguments ErrorHandler F : clear implicits.

End ErrorHandling.

(* ================================================================== *)
(** * core.cpp: images *)

Module Img.

Local Open Scope Z_scope.

Section Generic.

Context {A : Type}.
Variable dflt : A.

(** [struct Image]: a row-major [std::vector] of channel values. *)
Record Image := mkImage {
  width : Z;
  height : Z;
  channels : Z;
  data : list A;
  color_space : ColorSpace
}.

(** [Image(w, h, c)]: [data.resize(w * h * c, 0.0f)]. *)
Definition new_image (w h c : Z) : Image :=
  mkImage w h c (repeat dflt (Z.to_nat (w * h * c))) BT2020_PQ.

(** [GetPixel(x, y)]: the offset of the pixel in [data], or [None]
    for the null pointer. *)
Definition GetPixel (img : Image) (x y : Z) : option Z :=
  if (x <? 0) || (x >=? width img) || (y <? 0) || (y >=? height img)
  then None
  else Some ((y * width img + x) * channels img).

(** [pixel[c]] for a pixel pointer at offset [off]. *)
Definition load (img : Image) (off c : Z) : A :=
  nth (Z.to_nat (off + c)) (data img) dflt.

(** Channel [c] of pixel [(x, y)]. *)
Definition at_xy (img : Image) (x y c : Z) : A :=
  load img ((y * width img + x) * channels img) c.

(** The buffer filled by a pair of loops [for y .. for x ..] that
    write every channel [c] of every pixel [(x, y)] once. *)
Definition tabulate (w h ch : Z) (f : Z -> Z -> Z -> A) : list A :=
  map (fun n => let i := Z.of_nat n in
                f ((i / ch) mod w) (i / (ch * w)) (i mod ch))
      (seq 0 (Z.to_nat (w * h * ch))).

Definition Clear (img : Image) : Image :=
  mkImage (width img) (height img) (channels img)
          (map (fun _ => dflt) (data img)) (color_space img).

End Generic.

Arguments Image A : clear implicits.

End Img.

(** [Image::IsValid] *)
Definition Image_IsValid {F : Type} {ops : FloatOps F} (img : Img.Image F)
  : bool :=
  if (Img.width img <=? 0)%Z || (Img.height img <=? 0)%Z
     || (Img.channels img <=? 0)%Z
  then false
  else if negb (Z.of_nat (List.length (Img.data img))
                =? Img.width img * Img.height img * Img.channels img)%Z
  then false
  else forallb isfinite (Img.data img).

(* ================================================================== *)
(** * color_space.cpp *)

Module NumericalUtils.

Section Generic.

Context {F : Type} {ops : FloatOps F}.

Definition IsFinite (value : F) : bool := isfinite value.

Definition IsFiniteRGB (rgb : RGB F) : bool :=
let '(r, g, b) := rgb in IsFinite r && IsFinite g && IsFinite b.

Definition SaturateRGB (rgb : RGB F) : RGB F :=
let '(r, g, b) := rgb in
(std_clamp r zero one, std_clamp g zero one, std_clamp b zero one).

Definition SmoothStep (edge0 edge1 x : F) : F :=
if fle edge1 edge0 then (if fge x edge1 then one else zero)
else
  let t := std_clamp (fdiv (fsub x edge0) (fsub edge1 edge0)) zero one in
  fmul (fmul t t) (fsub (ratio 3 1) (fmul (ratio 2 1) t)).

Definition Mix (a b t : F) : F :=
let t := std_clamp t zero one in
fadd (fmul a (fsub one t)) (fmul b t).


Definition SafePow (base exponent : F) : F :=
  if fle base zero then zero
  else if negb (IsFinite base) || negb (IsFinite exponent) then zero
  else
    let result := powf base exponent in
    if IsFinite result then result else zero.

Definition SafeLog (value : F) : F :=
  if fle value zero then fneg (ratio 10 1)
  else if negb (IsFinite value) then zero
  else
    let result := logf value in
    if IsFinite result then result else zero.

Definition SafeDivide (numerator denominator fallback : F) : F :=
  if flt (fabs denominator) (ratio 1 100000000) then fallback
  else if negb (IsFinite numerator) || negb (IsFinite denominator)
  then fallback
  else
    let result := fdiv numerator denominator in
    if IsFinite result then result else fallback.

End Generic.

End NumericalUtils.

Module ColorSpaceConverter.

Import NumericalUtils.

Section Generic.

Context {F : Type} {ops : FloatOps F}.

Definition PQ_M1 : F := ratio 1593017578125 10000000000000.
Definition PQ_M2 : F := ratio 7884375 100000.
Definition PQ_C1 : F := ratio 8359375 10000000.
Definition PQ_C2 : F := ratio 188515625 10000000.
Definition PQ_C3 : F := ratio 186875 10000.
Definition f10000 : F := ratio 10000 1.

Definition PQ_EOTF (pq_value : F) : F :=
  if negb (isfinite pq_value) || fle pq_value zero then zero
  else if fge pq_value one then f10000
  else
    let pq_pow := powf pq_value (fdiv one PQ_M2) in
    let numerator := std_max zero (fsub pq_pow PQ_C1) in
    let denominator := fsub PQ_C2 (fmul PQ_C3 pq_pow) in
    if fle denominator zero then f10000
    else fmul (powf (fdiv numerator denominator) (fdiv one PQ_M1)) f10000.

Definition PQ_OETF (linear_value : F) : F :=
  if negb (isfinite linear_value) || fle linear_value zero then zero
  else
    let normalized := fdiv linear_value f10000 in
    if fge normalized one then one
    else
      let pow_m1 := powf normalized PQ_M1 in
      let numerator := fadd PQ_C1 (fmul PQ_C2 pow_m1) in
      let denominator := fadd one (fmul PQ_C3 pow_m1) in
      if fle denominator zero then one
      else powf (fdiv numerator denominator) PQ_M2.

Definition PQ_EOTF_RGB (rgb : RGB F) : RGB F :=
  let '(r, g, b) := rgb in (PQ_EOTF r, PQ_EOTF g, PQ_EOTF b).

Definition PQ_OETF_RGB (rgb : RGB F) : RGB F :=
  let '(r, g, b) := rgb in (PQ_OETF r, PQ_OETF g, PQ_OETF b).

(** A row-major 3x3 matrix. *)
Definition Mat3 : Type := (RGB F * RGB F * RGB F)%type.

Definition row (r : RGB F) (input : RGB F) : F :=
  let '(m0, m1, m2) := r in
  let '(i0, i1, i2) := input in
  fadd (fadd (fmul m0 i0) (fmul m1 i1)) (fmul m2 i2).

Definition MultiplyMatrix3x3 (matrix : Mat3) (input : RGB F) : RGB F :=
  let '(r0, r1, r2) := matrix in (row r0 input, row r1 input, row r2 input).

(** The colour-space matrices of the header are identity
    placeholders. *)
Definition IDENTITY : Mat3 :=
  ((one, zero, zero), (zero, one, zero), (zero, zero, one)).
Definition BT2020_TO_P3D65_MATRIX : Mat3 := IDENTITY.
Definition P3D65_TO_BT2020_MATRIX : Mat3 := IDENTITY.
Definition BT2020_TO_ACESG_MATRIX : Mat3 := IDENTITY.
Definition ACESG_TO_BT2020_MATRIX : Mat3 := IDENTITY.

Definition BT2020_to_P3D65 := MultiplyMatrix3x3 BT2020_TO_P3D65_MATRIX.
Definition P3D65_to_BT2020 := MultiplyMatrix3x3 P3D65_TO_BT2020_MATRIX.
Definition BT2020_to_ACEScg := MultiplyMatrix3x3 BT2020_TO_ACESG_MATRIX.
Definition ACEScg_to_BT2020 := MultiplyMatrix3x3 ACESG_TO_BT2020_MATRIX.

Definition IsInGamut (rgb : RGB F) (cs : ColorSpace) : bool :=
  let '(r, g, b) := rgb in
  match cs with
  | BT2020_PQ | P3_D65 | REC709 =>
      fge r zero && fle r one && fge g zero && fle g one
      && fge b zero && fle b one
  | ACESG =>
      fge r (fneg (ratio 5 10)) && fle r (ratio 2 1)
      && fge g (fneg (ratio 5 10)) && fle g (ratio 2 1)
      && fge b (fneg (ratio 5 10)) && fle b (ratio 2 1)
  end.

Definition ClampToGamut (rgb : RGB F) (cs : ColorSpace) : RGB F :=
  let '(r, g, b) := rgb in
  match cs with
  | BT2020_PQ | P3_D65 | REC709 =>
      (std_clamp r zero one, std_clamp g zero one, std_clamp b zero one)
  | ACESG =>
      (std_clamp r (fneg (ratio 5 10)) (ratio 2 1),
       std_clamp g (fneg (ratio 5 10)) (ratio 2 1),
       std_clamp b (fneg (ratio 5 10)) (ratio 2 1))
  end.

(** The body of the pixel loop of [ToWorkingDomain]. *)
Definition ToWorkingDomain_pixel (cs : ColorSpace) (src : RGB F) : RGB F :=
  if negb (IsFiniteRGB src) then black
  else
    let dst :=
      match cs with
      | BT2020_PQ => src
      | P3_D65 => PQ_OETF_RGB (P3D65_to_BT2020 src)
      | ACESG => PQ_OETF_RGB (ACEScg_to_BT2020 src)
      | REC709 => src
      end in
    if negb (IsFiniteRGB dst) then black else SaturateRGB dst.

Definition FromWorkingDomain_pixel (target_cs : ColorSpace) (src : RGB F)
  : RGB F :=
  if negb (IsFiniteRGB src) then black
  else
    let dst :=
      match target_cs with
      | BT2020_PQ => src
      | P3_D65 => BT2020_to_P3D65 (PQ_EOTF_RGB src)
      | ACESG => BT2020_to_ACEScg (PQ_EOTF_RGB src)
      | REC709 => src
      end in
    if negb (IsFiniteRGB dst) then black else ClampToGamut dst target_cs.

Definition pixel_at (img : Img.Image F) (x y : Z) : RGB F :=
  (Img.at_xy zero img x y 0, Img.at_xy zero img x y 1,
   Img.at_xy zero img x y 2).

Definition chan (px : RGB F) (c : Z) : F :=
  let '(r, g, b) := px in
  if (c =? 0)%Z then r else if (c =? 1)%Z then g
  else if (c =? 2)%Z then b else zero.

(** The loops write channels 0..2 of every destination pixel; the
    images of the pipeline have three channels. *)
Definition ToWorkingDomain (input : Img.Image F) : Img.Image F :=
  Img.mkImage (Img.width input) (Img.height input) (Img.channels input)
    (Img.tabulate (Img.width input) (Img.height input)
       (Img.channels input)
       (fun x y c =>
          chan (ToWorkingDomain_pixel (Img.color_space input)
                  (pixel_at input x y)) c))
    BT2020_PQ.

Definition FromWorkingDomain (input : Img.Image F)
    (target_cs : ColorSpace) : Img.Image F :=
  Img.mkImage (Img.width input) (Img.height input) (Img.channels input)
    (Img.tabulate (Img.width input) (Img.height input)
       (Img.channels input)
       (fun x y c =>
          chan (FromWorkingDomain_pixel target_cs (pixel_at input x y))
               c))
    target_cs.

(** ** OKLab *)

Definition RGB_TO_LMS_MATRIX : Mat3 :=
  ((ratio 4122214708 10000000000, ratio 5363325363 10000000000,
    ratio 514459929 10000000000),
   (ratio 2119034982 10000000000, ratio 6806995451 10000000000,
    ratio 1073969566 10000000000),
   (ratio 883024619 10000000000, ratio 2817188376 10000000000,
    ratio 6299787005 10000000000)).

Definition LMS_TO_RGB_MATRIX : Mat3 :=
  ((ratio 40767416621 10000000000, fneg (ratio 33077115913 10000000000),
    ratio 2309699292 10000000000),
   (fneg (ratio 12684380046 10000000000), ratio 26097574011 10000000000,
    fneg (ratio 3413193965 10000000000)),
   (fneg (ratio 41960863 10000000000),
    fneg (ratio 7034186147 10000000000),
    ratio 17076147010 10000000000)).

Definition LMS_TO_OKLAB_MATRIX : Mat3 :=
  ((ratio 2104542553 10000000000, ratio 7936177850 10000000000,
    fneg (ratio 40720468 10000000000)),
   (ratio 19779984951 10000000000, fneg (ratio 24285922050 10000000000),
    ratio 4505937099 10000000000),
   (ratio 259040371 10000000000, ratio 7827717662 10000000000,
    fneg (ratio 8086757660 10000000000))).

Definition OKLAB_TO_LMS_MATRIX : Mat3 :=
  ((ratio 99999999845051981432 100000000000000000000,
    ratio 39633779217376785678 100000000000000000000,
    ratio 21580375806075880339 100000000000000000000),
   (ratio 10000000088817607767 10000000000000000000,
    fneg (ratio 1055613423236563494 10000000000000000000),
    fneg (ratio 63854174771705903402 1000000000000000000000)),
   (ratio 10000000546724109177 10000000000000000000,
    fneg (ratio 89484182094965759684 1000000000000000000000),
    fneg (ratio 12914855378640917399 10000000000000000000))).

Definition CubeRoot (x : F) : F :=
  if fge x zero then powf x (fdiv one (ratio 3 1))
  else fneg (powf (fneg x) (fdiv one (ratio 3 1))).

Definition CubePower (x : F) : F := fmul (fmul x x) x.

Definition RGB_to_OKLab (rgb : RGB F) : RGB F :=
  if negb (IsFiniteRGB rgb) then black
  else
    let '(l, m, s) := MultiplyMatrix3x3 RGB_TO_LMS_MATRIX rgb in
    let lms := (std_max zero l, std_max zero m, std_max zero s) in
    let '(l, m, s) := lms in
    let lms_prime := (CubeRoot l, CubeRoot m, CubeRoot s) in
    let oklab := MultiplyMatrix3x3 LMS_TO_OKLAB_MATRIX lms_prime in
    if negb (IsFiniteRGB oklab) then black else oklab.

Definition OKLab_to_RGB (oklab : RGB F) : RGB F :=
  if negb (IsFiniteRGB oklab) then black
  else
    let '(l', m', s') := MultiplyMatrix3x3 OKLAB_TO_LMS_MATRIX oklab in
    let lms := (CubePower l', CubePower m', CubePower s') in
    let rgb := MultiplyMatrix3x3 LMS_TO_RGB_MATRIX lms in
    if negb (IsFiniteRGB rgb) then black else rgb.

(** ** Saturation *)

Definition ApplyBaseSaturation (oklab : RGB F) (saturation : F) : RGB F :=
  if negb (IsFiniteRGB oklab) || negb (IsFinite saturation) then oklab
  else
    let saturation := std_clamp saturation zero (ratio 2 1) in
    let '(L, a, b) := oklab in
    (L, fmul a saturation, fmul b saturation).

Definition ApplyHighlightSaturation (oklab : RGB F)
    (saturation weight : F) : RGB F :=
  if negb (IsFiniteRGB oklab) || negb (IsFinite saturation)
     || negb (IsFinite weight)
  then oklab
  else
    let saturation := std_clamp saturation zero (ratio 2 1) in
    let weight := std_clamp weight zero one in
    let '(L, a, b) := oklab in
    let target_a := fmul a saturation in
    let target_b := fmul b saturation in
    (L, Mix a target_a weight, Mix b target_b weight).

Definition ApplySaturation (rgb : RGB F)
    (sat_base sat_hi pivot_pq x_luminance : F) : RGB F :=
  if negb (IsFiniteRGB rgb) || negb (IsFinite sat_base)
     || negb (IsFinite sat_hi) || negb (IsFinite pivot_pq)
     || negb (IsFinite x_luminance)
  then rgb
  else
    let sat_base := std_clamp sat_base zero (ratio 2 1) in
    let sat_hi := std_clamp sat_hi zero (ratio 2 1) in
    let pivot_pq := std_clamp pivot_pq (ratio 5 100) (ratio 30 100) in
    let x_luminance := std_clamp x_luminance zero one in
    let oklab := RGB_to_OKLab rgb in
    let oklab := ApplyBaseSaturation oklab sat_base in
    let w_hi := SmoothStep pivot_pq one x_luminance in
    let oklab := ApplyHighlightSaturation oklab sat_hi w_hi in
    let rgb := OKLab_to_RGB oklab in
    if negb (IsFiniteRGB rgb) then black else rgb.

(** ** Two-stage gamut processor *)

Definition LinearGamutCompression (rgb : RGB F) (target_cs : ColorSpace)
  : RGB F :=
  if negb (IsFiniteRGB rgb) then rgb
  else
    let '(r, g, b) := rgb in
    match target_cs with
    | P3_D65 | BT2020_PQ | REC709 =>
        let max_val := std_max3 r g b in
        let '(r, g, b) :=
          if fgt max_val one then
            let scale := fdiv one max_val in
            (fmul r scale, fmul g scale, fmul b scale)
          else (r, g, b) in
        (std_max zero r, std_max zero g, std_max zero b)
    | ACESG =>
        let max_val := std_max3 r g b in
        let '(r, g, b) :=
          if fgt max_val (ratio 2 1) then
            let scale := fdiv (ratio 2 1) max_val in
            (fmul r scale, fmul g scale, fmul b scale)
          else (r, g, b) in
        (std_max (fneg (ratio 5 10)) r, std_max (fneg (ratio 5 10)) g,
         std_max (fneg (ratio 5 10)) b)
    end.

Definition max_iterations : nat := 10.
Definition reduction_factor : F := ratio 9 10.

(** The [for] loop of [PerceptualGamutClamp] with [n] iterations left,
    followed by the final coordinate clamp. *)
Fixpoint PerceptualGamutClamp_loop (n : nat) (oklab : RGB F)
    (target_cs : ColorSpace) : RGB F :=
  match n with
  | O => ClampToGamut (OKLab_to_RGB oklab) target_cs
  | S n' =>
      let test_rgb := OKLab_to_RGB oklab in
      if IsInGamut test_rgb target_cs then test_rgb
      else
        let '(L, a, b) := oklab in
        PerceptualGamutClamp_loop n'
          (L, fmul a reduction_factor, fmul b reduction_factor) target_cs
  end.

Definition PerceptualGamutClamp (rgb : RGB F) (target_cs : ColorSpace)
  : RGB F :=
  if negb (IsFiniteRGB rgb) then rgb
  else PerceptualGamutClamp_loop max_iterations (RGB_to_OKLab rgb)
         target_cs.

(** Returns the processed pixel and the flag [was_out_of_gamut]. *)
Definition ApplyGamutProcessing (rgb : RGB F) (target_cs : ColorSpace)
    (dci_compliance : bool) : RGB F * bool :=
  if negb (IsFiniteRGB rgb) then (rgb, false)
  else
    let was_out_of_gamut := negb (IsInGamut rgb target_cs) in
    let rgb := LinearGamutCompression rgb target_cs in
    let rgb :=
      if dci_compliance || negb (IsInGamut rgb target_cs)
      then PerceptualGamutClamp rgb target_cs
      else rgb in
    if negb (IsFiniteRGB rgb) then (black, false)
    else (ClampToGamut rgb target_cs, was_out_of_gamut).

(** ** processor.cpp: the pixel loop of [ApplySaturationProcessing].
    [SaturationStage] is the call of [ApplySaturation] in it. *)

Definition SaturationStage (params : CphParams F) (pixel : RGB F) : RGB F :=
  let '(r, g, b) := pixel in
  let x_luminance := std_max r (std_max g b) in
  let x_luminance := std_clamp x_luminance zero one in
  ApplySaturation pixel (sat_base params) (sat_hi params)
    (pivot_pq params) x_luminance.

Definition ApplySaturationProcessing_pixel (params : CphParams F)
    (pixel : RGB F) : RGB F :=
  if negb (IsFiniteRGB pixel) then black
  else
    let pixel := SaturationStage params pixel in
    let '(pixel, was_out_of_gamut) :=
      ApplyGamutProcessing pixel BT2020_PQ (dci_compliance params) in
    SaturateRGB pixel.


(** ** Supported transforms *)

Definition IsValidColorSpace (cs : ColorSpace) : bool :=
  match cs with
  | BT2020_PQ | P3_D65 | ACESG | REC709 => true
  end.

Definition ColorSpace_eqb (a b : ColorSpace) : bool :=
  match a, b with
  | BT2020_PQ, BT2020_PQ | P3_D65, P3_D65 | ACESG, ACESG
  | REC709, REC709 => true
  | _, _ => false
  end.

Definition ValidateColorSpaceTransform (from to : ColorSpace) : bool :=
  if negb (IsValidColorSpace from) || negb (IsValidColorSpace to) then false
  else if ColorSpace_eqb from to then true
  else
    match from with
    | BT2020_PQ => ColorSpace_eqb to P3_D65 || ColorSpace_eqb to ACESG
    | P3_D65 => ColorSpace_eqb to BT2020_PQ
    | ACESG => ColorSpace_eqb to BT2020_PQ
    | REC709 => false
    end.

End Generic.

End ColorSpaceConverter.

(* ================================================================== *)
(** * tone_mapping.cpp *)

Module ToneMapper.

Local Open Scope string_scope.

Section Generic.

Context {F : Type} {ops : FloatOps F}.

Record ToneMapper := mkToneMapper {
  params_ : CphParams F;
  last_error_ : string;
  initialized_ : bool
}.

(** A default-constructed mapper. *)
Definition new_mapper : ToneMapper :=
  {| params_ := default_params; last_error_ := "";
     initialized_ := false |}.

Definition Initialize (tm : ToneMapper) (params : CphParams F)
  : ToneMapper * bool :=
  if negb (Params.IsValid params) then
    ({| params_ := params_ tm; last_error_ := "无效的色调映射参数";
        initialized_ := initialized_ tm |}, false)
  else
    ({| params_ := params; last_error_ := ""; initialized_ := true |},
     true).

Definition SmoothStep (edge0 edge1 x : F) : F :=
  if fle edge1 edge0 then zero
  else
    let t := std_clamp (fdiv (fsub x edge0) (fsub edge1 edge0)) zero one in
    fmul (fmul t t) (fsub (ratio 3 1) (fmul (ratio 2 1) t)).

Definition Mix (a b t : F) : F := fadd a (fmul t (fsub b a)).

Definition PPRShadowSegment (tm : ToneMapper) (x : F) : F :=
  let p := pivot_pq (params_ tm) in
  let gamma_s := gamma_s (params_ tm) in
  if fle x zero then zero
  else if fle p zero then x
  else if fge x p then p
  else
    let normalized_x := fdiv x p in
    let power_result := powf normalized_x gamma_s in
    fmul power_result p.

Definition PPRHighlightSegment (tm : ToneMapper) (x : F) : F :=
  let p := pivot_pq (params_ tm) in
  let gamma_h := gamma_h (params_ tm) in
  let h := shoulder_h (params_ tm) in
  if fle x p then p
  else
    let normalized_x := fdiv (fsub x p) (fsub one p) in
    if fle normalized_x zero then p
    else
      let normalized_x := if fge normalized_x one then one
                          else normalized_x in
      let denominator := fadd one (fmul h normalized_x) in
      if fle denominator zero then x
      else
        let rational_part := fdiv normalized_x denominator in
        let highlight_result := powf rational_part gamma_h in
        fadd p (fmul highlight_result (fsub one p)).

Definition ApplyPPR (tm : ToneMapper) (x : F) : F :=
  let p := pivot_pq (params_ tm) in
  let shadow_value := PPRShadowSegment tm x in
  let highlight_value := PPRHighlightSegment tm x in
  let blend_range := fmul p (ratio 1 10) in
  if fle x (fsub p blend_range) then shadow_value
  else if fge x (fadd p blend_range) then highlight_value
  else
    let blend_weight :=
      SmoothStep (fsub p blend_range) (fadd p blend_range) x in
    Mix shadow_value highlight_value blend_weight.

Definition RLOGDarkSegment (tm : ToneMapper) (x : F) : F :=
  let a := rlog_a (params_ tm) in
  if fle x zero then zero
  else if fge x one then one
  else
    let numerator := logf (fadd one (fmul a x)) in
    let denominator := logf (fadd one a) in
    if fle denominator zero then x
    else fdiv numerator denominator.

Definition RLOGHighlightSegment (tm : ToneMapper) (x : F) : F :=
  let b := rlog_b (params_ tm) in
  let c := rlog_c (params_ tm) in
  if fle x zero then zero
  else if fge x one then fdiv b (fadd one c)
  else
    let denominator := fadd one (fmul c x) in
    if fle denominator zero then x
    else fdiv (fmul b x) denominator.

Definition ApplyRLOG (tm : ToneMapper) (x : F) : F :=
  let t := rlog_t (params_ tm) in
  let blend_range := ratio 5 100 in
  let dark_at_t := RLOGDarkSegment tm t in
  let highlight_raw_at_t := RLOGHighlightSegment tm t in
  let scale_factor :=
    if fgt highlight_raw_at_t zero
    then fdiv dark_at_t highlight_raw_at_t else one in
  let y1 := RLOGDarkSegment tm x in
  let y2 := fmul (RLOGHighlightSegment tm x) scale_factor in
  if flt x (fsub t blend_range) then y1
  else if fgt x (fadd t blend_range) then y2
  else
    let blend_weight :=
      SmoothStep (fsub t blend_range) (fadd t blend_range) x in
    Mix y1 y2 blend_weight.

Definition ApplySoftKnee (tm : ToneMapper) (y : F) : F :=
  let yknee := yknee (params_ tm) in
  let alpha := alpha (params_ tm) in
  if fle y yknee then y
  else
    let excess := fsub y yknee in
    let max_excess := fsub one yknee in
    if fle max_excess zero then yknee
    else
      let normalized_excess := fdiv excess max_excess in
      let compressed_excess :=
        fdiv normalized_excess
             (fadd one (fmul alpha normalized_excess)) in
      fadd yknee (fmul compressed_excess max_excess).

Definition ApplyToeClamp (tm : ToneMapper) (y : F) : F :=
  let toe := toe (params_ tm) in
  if fle toe zero || fle y zero then y
  else std_max y toe.

Definition ApplyToneMapping (tm : ToneMapper) (luminance : F) : F :=
  if negb (initialized_ tm) then luminance
  else if negb (NumericalProtection.IsValid luminance) then zero
  else
    let x := std_clamp luminance zero one in
    let y := match curve (params_ tm) with
             | PPR => ApplyPPR tm x
             | RLOG => ApplyRLOG tm x
             end in
    let y := ApplySoftKnee tm y in
    let y := ApplyToeClamp tm y in
    std_clamp y zero one.

(** ** Validators *)

(** [std::sort] on the sample vector. *)
Fixpoint insert_sorted (x : F) (l : list F) : list F :=
  match l with
  | [] => [x]
  | y :: l' => if flt y x then y :: insert_sorted x l' else x :: l
  end.

Definition sort (l : list F) : list F :=
  fold_right insert_sorted [] l.

(** [points.erase(std::unique(...), points.end())]: of each run of
    equal neighbours the first is kept. *)
Fixpoint unique_from (x : F) (l : list F) : list F :=
  match l with
  | [] => [x]
  | y :: l' => if feq x y then unique_from x l'
               else x :: unique_from y l'
  end.

Definition unique (l : list F) : list F :=
  match l with
  | [] => []
  | x :: l' => unique_from x l'
  end.

(** The integers [0 .. n-1] of a counting loop. *)
Definition upto (n : Z) : list Z :=
  map Z.of_nat (seq 0 (Z.to_nat n)).

Definition GenerateSamplePoints (tm : ToneMapper)
    (sample_count problem_points : Z) : list F :=
  let uniform :=
    map (fun i => fdiv (of_int i) (of_int (sample_count - 1)))
        (upto sample_count) in
  let problem :=
    match curve (params_ tm) with
    | PPR =>
        let pivot := pivot_pq (params_ tm) in
        map (fun i =>
               let offset :=
                 fmul (fsub (fdiv (of_int i) (of_int problem_points))
                            (ratio 5 10))
                      (ratio 1 10) in
               std_clamp (fadd pivot offset) zero one)
            (upto problem_points)
    | RLOG =>
        let t := rlog_t (params_ tm) in
        map (fun i =>
               let offset :=
                 fmul (fsub (fdiv (of_int i) (of_int problem_points))
                            (ratio 5 10))
                      (ratio 2 10) in
               std_clamp (fadd t offset) zero one)
            (upto problem_points)
    end in
  unique (sort (uniform ++ problem)).

(** The loop of [ValidateMonotonicity] from the running [prev_value]. *)
Fixpoint monotonic_from (tm : ToneMapper) (prev_value : F)
    (sample_points : list F) : bool :=
  match sample_points with
  | [] => true
  | x :: rest =>
      let current_value := ApplyToneMapping tm x in
      if flt current_value prev_value then false
      else monotonic_from tm current_value rest
  end.

Definition ValidateMonotonicity (tm : ToneMapper)
    (sample_count problem_points : Z) : bool :=
  if negb (initialized_ tm) then false
  else monotonic_from tm (fneg one)
         (GenerateSamplePoints tm sample_count problem_points).

Definition ComputeDerivative (tm : ToneMapper) (x epsilon : F) : F :=
  let x_left := std_max zero (fsub x epsilon) in
  let x_right := std_min one (fadd x epsilon) in
  let y_left := ApplyToneMapping tm x_left in
  let y_right := ApplyToneMapping tm x_right in
  let dx := fsub x_right x_left in
  if fle dx zero then zero
  else fdiv (fsub y_right y_left) dx.

Definition ValidateC1Continuity (tm : ToneMapper) (epsilon threshold : F)
  : bool :=
  if negb (initialized_ tm) then false
  else
    let sample_count := 50%Z in
    let max_derivative_jump :=
      fold_left
        (fun max_jump i =>
           let x := fdiv (of_int i) (of_int (sample_count - 1)) in
           if fle x epsilon || fge x (fsub one epsilon) then max_jump
           else
             let left_derivative :=
               ComputeDerivative tm (fsub x epsilon) epsilon in
             let right_derivative :=
               ComputeDerivative tm (fadd x epsilon) epsilon in
             let derivative_gap :=
               fabs (fsub right_derivative left_derivative) in
             std_max max_jump derivative_gap)
        (map (fun i => (i + 1)%Z) (upto (sample_count - 2)))
        zero in
    fle max_derivative_jump threshold.

End Generic.

Arguments ToneMapper F : clear implicits.

End ToneMapper.

(* ================================================================== *)
(** * highlight_detail.cpp *)

Module HighlightDetailUtils.

Local Open Scope Z_scope.

Section Generic.

Context {F : Type} {ops : FloatOps F}.

(** [std::max(pixel[0], std::max(pixel[1], pixel[2]))] at [(x, y)]. *)
Definition MaxRGB (image : Img.Image F) (x y : Z) : F :=
  std_max (Img.at_xy zero image x y 0)
          (std_max (Img.at_xy zero image x y 1)
                   (Img.at_xy zero image x y 2)).

(** The single-channel mask image. *)
Definition ComputeHighlightMask (image : Img.Image F)
    (pivot_threshold : F) : Img.Image F :=
  Img.mkImage (Img.width image) (Img.height image) 1
    (Img.tabulate (Img.width image) (Img.height image) 1
       (fun x y _ =>
          let luminance := MaxRGB image x y in
          if fgt luminance pivot_threshold then
            let mask_strength :=
              fdiv (fsub luminance pivot_threshold)
                   (fsub one pivot_threshold) in
            std_clamp mask_strength zero one
          else zero))
    (Img.color_space image).

End Generic.

End HighlightDetailUtils.

Module HighlightDetailProcessor.

Local Open Scope string_scope.
Local Open Scope Z_scope.

Section Generic.

Context {F : Type} {ops : FloatOps F}.

Record HighlightDetailProcessor := mkProcessor {
  params_ : CphParams F;
  initialized_ : bool;
  last_error_ : string;
  has_previous_frame_ : bool;
  motion_energy_history_ : list F;
  previous_frame_ : Img.Image F
}.

Definition new_processor : HighlightDetailProcessor :=
  {| params_ := default_params; initialized_ := false;
     last_error_ := ""; has_previous_frame_ := false;
     motion_energy_history_ := [];
     previous_frame_ := Img.new_image zero 0 0 3 |}.

Definition Reset (hp : HighlightDetailProcessor)
  : HighlightDetailProcessor :=
  {| params_ := params_ hp; initialized_ := initialized_ hp;
     last_error_ := last_error_ hp;
     has_previous_frame_ := false;
     motion_energy_history_ := [];
     previous_frame_ := Img.Clear zero (previous_frame_ hp) |}.

Definition Initialize (hp : HighlightDetailProcessor)
    (params : CphParams F) : HighlightDetailProcessor * bool :=
  let params1 := Params.ClampToValidRange params in
  if negb (Params.IsValid params1) then
    ({| params_ := params1; initialized_ := initialized_ hp;
        last_error_ := "参数修正后仍然无效";
        has_previous_frame_ := has_previous_frame_ hp;
        motion_energy_history_ := motion_energy_history_ hp;
        previous_frame_ := previous_frame_ hp |}, false)
  else
    (Reset {| params_ := params1; initialized_ := true;
              last_error_ := "";
              has_previous_frame_ := has_previous_frame_ hp;
              motion_energy_history_ := motion_energy_history_ hp;
              previous_frame_ := previous_frame_ hp |}, true).

(** [std::clamp] on [int]. *)
Definition clampZ (v lo hi : Z) : Z :=
  if v <? lo then lo else if hi <? v then hi else v.

Definition ComputeGaussianKernel (radius : Z) (sigma : F) : list F :=
  let size := 2 * radius + 1 in
  let raw :=
    map (fun i =>
           let x := i - radius in
           expf (fdiv (of_int (- (x * x)))
                      (fmul (fmul (ratio 2 1) sigma) sigma)))
        (ToneMapper.upto size) in
  let sum := fold_left fadd raw zero in
  map (fun k => fdiv k sum) raw.

(** One pass of the separable blur: the weighted sum over the kernel
    taps, the source index clamped to the image. *)
Definition blur_tap_sum (kernel : list F) (src : Z -> F) : F :=
  fold_left
    (fun sum k => fadd sum (fmul (src k) (nth (Z.to_nat k) kernel zero)))
    (ToneMapper.upto (Z.of_nat (List.length kernel))) zero.

Definition ApplyGaussianBlur (input : Img.Image F) (radius : Z)
    (sigma : F) : Img.Image F :=
  let w := Img.width input in
  let h := Img.height input in
  let ch := Img.channels input in
  let kernel := ComputeGaussianKernel radius sigma in
  let temp :=
    Img.mkImage w h ch
      (Img.tabulate w h ch
         (fun x y c =>
            blur_tap_sum kernel
              (fun k =>
                 let src_x := clampZ (x + k - radius) 0 (w - 1) in
                 Img.at_xy zero input src_x y c)))
      BT2020_PQ in
  Img.mkImage w h ch
    (Img.tabulate w h ch
       (fun x y c =>
          blur_tap_sum kernel
            (fun k =>
               let src_y := clampZ (y + k - radius) 0 (h - 1) in
               Img.at_xy zero temp x src_y c)))
    (Img.color_space input).

Definition ComputeUnsharpMask (original blurred : Img.Image F)
    (amount threshold : F) : Img.Image F :=
  let w := Img.width original in
  let h := Img.height original in
  let ch := Img.channels original in
  Img.mkImage w h ch
    (Img.tabulate w h ch
       (fun x y c =>
          let diff := fsub (Img.at_xy zero original x y c)
                           (Img.at_xy zero blurred x y c) in
          if fgt (fabs diff) threshold then fmul diff amount
          else zero))
    (Img.color_space original).

Definition ApplyUSM (hp : HighlightDetailProcessor)
    (input : Img.Image F) (pivot_threshold intensity : F)
  : HighlightDetailProcessor * Img.Image F * bool :=
  let w := Img.width input in
  let h := Img.height input in
  let ch := Img.channels input in
  let highlight_mask :=
    HighlightDetailUtils.ComputeHighlightMask input pivot_threshold in
  let blurred := ApplyGaussianBlur input 2 (ratio 1 1) in
  let detail_layer :=
    ComputeUnsharpMask input blurred intensity (ratio 3 100) in
  let output :=
    Img.mkImage w h ch
      (Img.tabulate w h ch
         (fun x y c =>
            let mask_value := Img.at_xy zero highlight_mask x y 0 in
            std_clamp
              (fadd (Img.at_xy zero input x y c)
                    (fmul (Img.at_xy zero detail_layer x y c) mask_value))
              zero one))
      (Img.color_space input) in
  (hp, output, true).

Definition set_last_error (hp : HighlightDetailProcessor) (e : string)
  : HighlightDetailProcessor :=
  {| params_ := params_ hp; initialized_ := initialized_ hp;
     last_error_ := e;
     has_previous_frame_ := has_previous_frame_ hp;
     motion_energy_history_ := motion_energy_history_ hp;
     previous_frame_ := previous_frame_ hp |}.

(** [output] is the caller's image; it is returned untouched when the
    call fails. *)
Definition ProcessFrame (hp : HighlightDetailProcessor)
    (input output : Img.Image F) (pivot_threshold : F)
  : HighlightDetailProcessor * Img.Image F * bool :=
  if negb (initialized_ hp) then
    (set_last_error hp "处理器未初始化", output, false)
  else if negb (Image_IsValid input) then
    (set_last_error hp "输入图像无效", output, false)
  else if fle (highlight_detail (params_ hp)) zero then
    (hp, input, true)
  else ApplyUSM hp input pivot_threshold (highlight_detail (params_ hp)).


End Generic.

Arguments HighlightDetailProcessor F : clear implicits.

End HighlightDetailProcessor.

(* ================================================================== *)
(** * processor.cpp: the frame pipeline *)

Module CphProcessor.

Import ErrorHandling.
Local Open Scope string_scope.
Local Open Scope Z_scope.

Section Generic.

Context {F : Type} {ops : FloatOps F}.

(** [struct Statistics], without its wall-clock timestamp. *)
Record Statistics := mkStatistics {
  min_pq : F;
  avg_pq : F;
  max_pq : F;
  variance : F;
  monotonic : bool;
  c1_continuous : bool;
  max_derivative_gap : F;
  frame_count : Z
}.

Definition Statistics_Reset : Statistics :=
  {| min_pq := zero; avg_pq := zero; max_pq := one; variance := zero;
     monotonic := true; c1_continuous := true;
     max_derivative_gap := zero; frame_count := 0 |}.

(** [CphProcessor::Impl].  [last_error] holds the report whose
    [ToString()] the source stores, [None] for the empty string. *)
Record Impl := mkImpl {
  current_params : CphParams F;
  current_stats : Statistics;
  error_history : list (ErrorReport F);
  last_error : option (ErrorReport F);
  initialized : bool;
  tone_mapper : ToneMapper.ToneMapper F;
  highlight_processor :
    HighlightDetailProcessor.HighlightDetailProcessor F
}.

Definition new_impl : Impl :=
  {| current_params := default_params;
     current_stats := Statistics_Reset;
     error_history := [];
     last_error := None;
     initialized := false;
     tone_mapper := ToneMapper.new_mapper;
     highlight_processor := HighlightDetailProcessor.new_processor |}.

(** [ErrorReport(ErrorCode c, const std::string& msg)] *)
Definition make_report (c : ErrorCode) (msg fld : string) (value : F)
  : ErrorReport F :=
  {| code := c; message := msg; field_name := fld;
     invalid_value := value; action_taken := ""; clip_guid := "";
     timecode := "" |}.

Definition LogError (s : Impl) (c : ErrorCode) (msg fld : string)
    (value : F) : Impl :=
  let error := make_report c msg fld value in
  {| current_params := current_params s;
     current_stats := current_stats s;
     error_history := (error_history s ++ [error])%list;
     last_error := Some error;
     initialized := initialized s;
     tone_mapper := tone_mapper s;
     highlight_processor := highlight_processor s |}.

(** ** ParamValidator *)

Definition IsInRange (value min_val max_val : F) : bool :=
  fge value min_val && fle value max_val.

Definition ValidateRange (value min_val max_val : F) (param_name : string)
    (errors : list (ErrorReport F)) : bool * list (ErrorReport F) :=
  if negb (IsInRange value min_val max_val) then
    (false,
     (errors ++ [make_report RANGE_PIVOT "Parameter out of range"
                   param_name value])%list)
  else (true, errors).

Definition ValidatePPRParams (params : CphParams F)
    (errors : list (ErrorReport F)) : bool * list (ErrorReport F) :=
  let '(v1, errors) :=
    ValidateRange (gamma_s params) (ratio 1 1) (ratio 16 10) "gamma_s"
      errors in
  let '(v2, errors) :=
    ValidateRange (gamma_h params) (ratio 8 10) (ratio 14 10) "gamma_h"
      errors in
  let '(v3, errors) :=
    ValidateRange (shoulder_h params) (ratio 5 10) (ratio 3 1)
      "shoulder_h" errors in
  (v1 && v2 && v3, errors).

Definition ValidateRLOGParams (params : CphParams F)
    (errors : list (ErrorReport F)) : bool * list (ErrorReport F) :=
  let '(v1, errors) :=
    ValidateRange (rlog_a params) (ratio 1 1) (ratio 16 1) "rlog_a"
      errors in
  let '(v2, errors) :=
    ValidateRange (rlog_b params) (ratio 8 10) (ratio 12 10) "rlog_b"
      errors in
  let '(v3, errors) :=
    ValidateRange (rlog_c params) (ratio 5 10) (ratio 3 1) "rlog_c"
      errors in
  let '(v4, errors) :=
    ValidateRange (rlog_t params) (ratio 4 10) (ratio 7 10) "rlog_t"
      errors in
  (v1 && v2 && v3 && v4, errors).

Definition ValidateCommonParams (params : CphParams F)
    (errors : list (ErrorReport F)) : bool * list (ErrorReport F) :=
  let '(v1, errors) :=
    ValidateRange (pivot_pq params) (ratio 5 100) (ratio 30 100)
      "pivot_pq" errors in
  let '(v2, errors) :=
    ValidateRange (black_lift params) zero (ratio 2 100) "black_lift"
      errors in
  let '(v3, errors) :=
    ValidateRange (highlight_detail params) zero (ratio 1 1)
      "highlight_detail" errors in
  let '(v4, errors) :=
    ValidateRange (sat_base params) zero (ratio 2 1) "sat_base" errors in
  let '(v5, errors) :=
    ValidateRange (sat_hi params) zero (ratio 2 1) "sat_hi" errors in
  let '(v6, errors) :=
    ValidateRange (yknee params) (ratio 95 100) (ratio 99 100) "yknee"
      errors in
  let '(v7, errors) :=
    ValidateRange (alpha params) (ratio 2 10) (ratio 1 1) "alpha"
      errors in
  let '(v8, errors) :=
    ValidateRange (toe params) zero (ratio 1 100) "toe" errors in
  (v1 && v2 && v3 && v4 && v5 && v6 && v7 && v8, errors).

Definition ValidateCphParams (params : CphParams F)
    (errors : list (ErrorReport F)) : bool * list (ErrorReport F) :=
  let '(v1, errors) := ValidateCommonParams params errors in
  let '(v2, errors) :=
    match curve params with
    | PPR => ValidatePPRParams params errors
    | RLOG => ValidateRLOGParams params errors
    end in
  (v1 && v2, errors).

(** ** Initialisation *)

Definition Initialize (s : Impl) (params : CphParams F) : Impl * bool :=
  let '(ok, validation_errors) := ValidateCphParams params [] in
  if negb ok then
    (fold_left
       (fun s e =>
          LogError s (code e) (message e) (field_name e)
            (invalid_value e))
       validation_errors s,
     false)
  else
    let params1 := Params.ClampToValidRange params in
    let '(tm, tm_ok) := ToneMapper.Initialize (tone_mapper s) params1 in
    let s1 :=
      {| current_params := params1;
         current_stats := current_stats s;
         error_history := error_history s;
         last_error := last_error s;
         initialized := initialized s;
         tone_mapper := tm;
         highlight_processor := highlight_processor s |} in
    if negb tm_ok then
      (LogError s1 SCHEMA_MISSING "Failed to initialize tone mapper" ""
         zero, false)
    else
      let '(hp, hp_ok) :=
        HighlightDetailProcessor.Initialize (highlight_processor s1)
          params1 in
      let s2 :=
        {| current_params := params1;
           current_stats := current_stats s1;
           error_history := error_history s1;
           last_error := last_error s1;
           initialized := initialized s1;
           tone_mapper := tm;
           highlight_processor := hp |} in
      if negb hp_ok then
        (LogError s2 SCHEMA_MISSING
           "Failed to initialize highlight detail processor" "" zero,
         false)
      else
        ({| current_params := params1;
            current_stats := Statistics_Reset;
            error_history := error_history s2;
            last_error := last_error s2;
            initialized := true;
            tone_mapper := tm;
            highlight_processor := hp |}, true).

(** ** Stages *)

(** A pixel loop that rewrites channels 0..2 of every pixel in place. *)
Definition map_pixels (f : RGB F -> RGB F) (img : Img.Image F)
  : Img.Image F :=
  Img.mkImage (Img.width img) (Img.height img) (Img.channels img)
    (Img.tabulate (Img.width img) (Img.height img) (Img.channels img)
       (fun x y c =>
          if c <? 3
          then ColorSpaceConverter.chan
                 (f (ColorSpaceConverter.pixel_at img x y)) c
          else Img.at_xy zero img x y c))
    (Img.color_space img).

Definition ApplyToneMapping_pixel (tm : ToneMapper.ToneMapper F)
    (pixel : RGB F) : RGB F :=
  if negb (NumericalUtils.IsFiniteRGB pixel) then black
  else
    let '(r, g, b) := pixel in
    let max_rgb := std_max r (std_max g b) in
    if fle max_rgb zero then pixel
    else
      let mapped_luminance := ToneMapper.ApplyToneMapping tm max_rgb in
      let scale_factor :=
        if fgt max_rgb zero then fdiv mapped_luminance max_rgb
        else one in
      (std_clamp (fmul r scale_factor) zero one,
       std_clamp (fmul g scale_factor) zero one,
       std_clamp (fmul b scale_factor) zero one).

Definition ApplyToneMappingToImage (s : Impl) (working : Img.Image F)
  : Img.Image F :=
  map_pixels (ApplyToneMapping_pixel (tone_mapper s)) working.

Definition ApplySaturationProcessing (s : Impl) (working : Img.Image F)
  : Img.Image F :=
  map_pixels
    (ColorSpaceConverter.ApplySaturationProcessing_pixel
       (current_params s))
    working.

(** The finite MaxRGB values of the frame, in row-major order. *)
Definition max_rgb_values (frame : Img.Image F) : list F :=
  flat_map
    (fun y =>
       flat_map
         (fun x =>
            let pixel := ColorSpaceConverter.pixel_at frame x y in
            if NumericalUtils.IsFiniteRGB pixel then
              let '(r, g, b) := pixel in [std_max r (std_max g b)]
            else [])
         (ToneMapper.upto (Img.width frame)))
    (ToneMapper.upto (Img.height frame)).

Definition slice (l : list F) (start_idx end_idx : nat) : list F :=
  firstn (end_idx - start_idx) (skipn start_idx l).

Definition UpdateStatistics (s : Impl) (frame : Img.Image F) : Impl :=
  let st := current_stats s in
  let values := ToneMapper.sort (max_rgb_values frame) in
  let size := List.length values in
  let trim_count := (size / 100)%nat in
  let start_idx := trim_count in
  let end_idx := (size - trim_count)%nat in
  let st1 :=
    if (negb (Nat.eqb size 0) && Nat.ltb start_idx end_idx)%bool then
      let kept := slice values start_idx end_idx in
      let n := of_int (Z.of_nat (end_idx - start_idx)) in
      let avg := fdiv (fold_left fadd kept zero) n in
      let variance_sum :=
        fold_left
          (fun acc v => let diff := fsub v avg in
                        fadd acc (fmul diff diff))
          kept zero in
      {| min_pq := nth start_idx values zero;
         avg_pq := avg;
         max_pq := nth (end_idx - 1) values zero;
         variance := fdiv variance_sum n;
         monotonic := monotonic st;
         c1_continuous := c1_continuous st;
         max_derivative_gap := max_derivative_gap st;
         frame_count := frame_count st |}
    else st in
  {| current_params := current_params s;
     current_stats :=
       {| min_pq := min_pq st1; avg_pq := avg_pq st1;
          max_pq := max_pq st1; variance := variance st1;
          monotonic := monotonic st1;
          c1_continuous := c1_continuous st1;
          max_derivative_gap := max_derivative_gap st1;
          frame_count := frame_count st1 + 1 |};
     error_history := error_history s;
     last_error := last_error s;
     initialized := initialized s;
     tone_mapper := tone_mapper s;
     highlight_processor := highlight_processor s |}.

Definition set_curve_flags (s : Impl) (mono c1 : bool) : Impl :=
  let st := current_stats s in
  {| current_params := current_params s;
     current_stats :=
       {| min_pq := min_pq st; avg_pq := avg_pq st; max_pq := max_pq st;
          variance := variance st; monotonic := mono;
          c1_continuous := c1;
          max_derivative_gap := max_derivative_gap st;
          frame_count := frame_count st |};
     error_history := error_history s;
     last_error := last_error s;
     initialized := initialized s;
     tone_mapper := tone_mapper s;
     highlight_processor := highlight_processor s |}.

Definition ValidateCurveProperties (s : Impl) : Impl :=
  let is_monotonic :=
    ToneMapper.ValidateMonotonicity (tone_mapper s) 4096 256 in
  let s := set_curve_flags s is_monotonic
             (c1_continuous (current_stats s)) in
  let s :=
    if negb is_monotonic
    then LogError s RANGE_KNEE "Tone mapping curve is not monotonic" ""
           zero
    else s in
  let is_c1_continuous :=
    ToneMapper.ValidateC1Continuity (tone_mapper s) (ratio 1 1000)
      (ratio 1 1000) in
  let s := set_curve_flags s (monotonic (current_stats s))
             is_c1_continuous in
  if negb is_c1_continuous
  then LogError s RANGE_KNEE "Tone mapping curve is not C1 continuous"
         "" zero
  else s.

Definition set_highlight_processor (s : Impl)
    (hp : HighlightDetailProcessor.HighlightDetailProcessor F) : Impl :=
  {| current_params := current_params s;
     current_stats := current_stats s;
     error_history := error_history s;
     last_error := last_error s;
     initialized := initialized s;
     tone_mapper := tone_mapper s;
     highlight_processor := hp |}.

(** ** The pipeline *)

Definition ProcessFrameInternal (s : Impl) (input : Img.Image F)
  : Impl * Img.Image F * bool :=
  let working_image := ColorSpaceConverter.ToWorkingDomain input in
  let working_image := ApplyToneMappingToImage s working_image in
  let '(s, working_image) :=
    if fgt (highlight_detail (current_params s)) zero then
      let '(hp, detail_enhanced, ok) :=
        HighlightDetailProcessor.ProcessFrame (highlight_processor s)
          working_image (Img.new_image zero 0 0 3)
          (pivot_pq (current_params s)) in
      let s := set_highlight_processor s hp in
      if negb ok then
        (LogError s HL_FLICKER "Highlight detail processing failed" ""
           zero, working_image)
      else (s, detail_enhanced)
    else (s, working_image) in
  let working_image := ApplySaturationProcessing s working_image in
  let output :=
    ColorSpaceConverter.FromWorkingDomain working_image
      (Img.color_space input) in
  let s := UpdateStatistics s output in
  let s :=
    if frame_count (current_stats s) =? 1
    then ValidateCurveProperties s else s in
  (s, output, true).

(** [output] is the caller's image; it is returned untouched when the
    frame is rejected. *)
Definition ProcessFrame (s : Impl) (input output : Img.Image F)
  : Impl * Img.Image F * bool :=
  if negb (initialized s) then
    (LogError s SCHEMA_MISSING "Processor not initialized" "" zero,
     output, false)
  else if negb (Image_IsValid input) then
    (LogError s NAN_INF "Invalid input image" "" zero, output, false)
  else ProcessFrameInternal s input.


Definition ValidateParams (params : CphParams F) : bool :=
  fst (ValidateCphParams params []).

End Generic.

Arguments Impl F : clear implicits.
Arguments Statistics F : clear implicits.

End CphProcessor.

(* ================================================================== *)
(** * Scenario inputs *)

Module Scenarios.

Definition set_pivot_pq {F : Type} (p : CphParams F) (v : F) : CphParams F :=
  {| curve := curve p; pivot_pq := v; gamma_s := gamma_s p;
     gamma_h := gamma_h p; shoulder_h := shoulder_h p;
     black_lift := black_lift p; highlight_detail := highlight_detail p;
     sat_base := sat_base p; sat_hi := sat_hi p;
     dci_compliance := dci_compliance p; deterministic := deterministic p;
     rlog_a := rlog_a p; rlog_b := rlog_b p; rlog_c := rlog_c p;
     rlog_t := rlog_t p; yknee := yknee p; alpha := alpha p; toe := toe p |}.

Definition set_dci_compliance {F : Type} (p : CphParams F) (b : bool)
  : CphParams F :=
  {| curve := curve p; pivot_pq := pivot_pq p; gamma_s := gamma_s p;
     gamma_h := gamma_h p; shoulder_h := shoulder_h p;
     black_lift := black_lift p; highlight_detail := highlight_detail p;
     sat_base := sat_base p; sat_hi := sat_hi p;
     dci_compliance := b; deterministic := deterministic p;
     rlog_a := rlog_a p; rlog_b := rlog_b p; rlog_c := rlog_c p;
     rlog_t := rlog_t p; yknee := yknee p; alpha := alpha p; toe := toe p |}.

(** The default bundle with [pivot_pq = -0.1f]. *)
Definition low_pivot_bundle {F : Type} {ops : FloatOps F} : CphParams F :=
  set_pivot_pq default_params (fneg (ratio 1 10)).

(** Scenario S7: the pixel [(1.5, 0.9, -0.1)]. *)
Definition s7_pixel {F : Type} {ops : FloatOps F} : RGB F :=
  (ratio 15 10, ratio 9 10, fneg (ratio 1 10)).

(** Scenario S3: a 1x1 frame whose pixel has [R = NaN]. *)
Definition nan_frame {m : F32.Libm} : Img.Image F32.float :=
  Img.mkImage 1 1 3 [F32.NaN; ratio 5 10; ratio 5 10] BT2020_PQ.

(** A processor initialised with the default bundle. *)
Definition ready_processor {F : Type} {ops : FloatOps F}
  : CphProcessor.Impl F :=
  fst (CphProcessor.Initialize CphProcessor.new_impl default_params).


(** A tone mapper initialised with the bundle [p]. *)
Definition mapper_of {F : Type} {ops : FloatOps F} (p : CphParams F)
  : ToneMapper.ToneMapper F :=
  fst (ToneMapper.Initialize ToneMapper.new_mapper p).


(** A tone mapper holding the default bundle. *)
Definition default_mapper {F : Type} {ops : FloatOps F}
  : ToneMapper.ToneMapper F :=
  ToneMapper.mkToneMapper default_params EmptyString true.


(** A 1x1 frame below the default pivot. *)
Definition dark_frame {F : Type} {ops : FloatOps F} : Img.Image F :=
  Img.mkImage 1 1 3 [ratio 1 10; ratio 1 10; ratio 1 10] BT2020_PQ.


(** The answers of [LogThrottler::ShouldLog] to a run of calls for one
    error code, made at the clock readings [times]. *)
Fixpoint log_calls (times : list Z) (error_code : ErrorCode)
    (m : ErrorHandling.throttle_map) : list bool :=
  match times with
  | [] => []
  | now :: rest =>
      let '(answer, m') := ErrorHandling.ShouldLog now error_code m in
      answer :: log_calls rest error_code m'
  end.


(** [ErrorHandler::HandleError] called once per clock reading of
    [times], each time for the same error. *)
Fixpoint handle_calls {F : Type} {ops : FloatOps F} (times : list Z)
    (error_code : ErrorCode) (msg : string)
    (h : ErrorHandling.ErrorHandler F) : ErrorHandling.ErrorHandler F :=
  match times with
  | [] => h
  | now :: rest =>
      handle_calls rest error_code msg
        (fst (ErrorHandling.HandleError h now error_code msg
                EmptyString zero EmptyString EmptyString))
  end.




(** The two arguments at which [ApplyRLOG] calls [std::log] for the
    scale factor of [rlog_bundle], [1 + a t = 0x40a66666] and
    [1 + a = 9]; the correctly rounded logarithms there, [0x3fd3073f]
    and [0x400c9f54]; and the values within one unit in the last place
    of them. *)
Definition log_arg_t : F32.float := S754_finite false 10905190 (-21).
Definition log_arg_1 : F32.float := S754_finite false 9437184 (-20).
Definition log_val_t : F32.float := S754_finite false 13829951 (-23).
Definition log_val_1 : F32.float := S754_finite false 9215828 (-22).

(** A libm that returns the two correctly rounded logarithms and fails
    with NaN on every other call. *)
Definition log_table_libm : F32.Libm :=
  {| F32.libm_pow := fun _ _ => F32.NaN;
     F32.libm_log := fun x =>
       if SFeqb x log_arg_t then log_val_t
       else if SFeqb x log_arg_1 then log_val_1
       else F32.NaN;
     F32.libm_exp := fun _ => F32.NaN |}.


End Scenarios.

(* ================================================================== *)
(** * Shapes of images *)

Module Shapes.

(** The three sizes of an image. *)
Definition same_size {F : Type} (a b : Img.Image F) : Prop :=
  Img.width a = Img.width b /\ Img.height a = Img.height b
  /\ Img.channels a = Img.channels b.

(** Every sample inside the bounds of the image is [v]. *)
Definition flat {F : Type} {ops : FloatOps F} (img : Img.Image F) (v : F)
  : Prop :=
  forall x y c,
    (0 <= x < Img.width img)%Z -> (0 <= y < Img.height img)%Z ->
    (0 <= c < Img.channels img)%Z ->
    Img.at_xy zero img x y c = v.

End Shapes.



(* ================================================================== *)
(** * Images: reading back a tabulated buffer *)

Section Tabulate.

Context {A : Type} (dflt : A).

Lemma tabulate_at (w h ch : Z) (f : Z -> Z -> Z -> A) (x y c : Z) :
  (0 <= x < w)%Z -> (0 <= y < h)%Z -> (0 <= c < ch)%Z ->
  nth (Z.to_nat ((y * w + x) * ch + c)) (Img.tabulate w h ch f) dflt
  = f x y c.
Proof.
  intros Hx Hy Hc. unfold Img.tabulate.
  set (i := ((y * w + x) * ch + c)%Z).
  assert (Hyx : (0 <= y * w + x < w * h)%Z) by nia.
  assert (Hi : (0 <= i < w * h * ch)%Z).
  { subst i. split; [nia |].
    assert ((y * w + x + 1) * ch <= w * h * ch)%Z by nia. nia. }
  set (g := fun n : nat =>
              f ((Z.of_nat n / ch) mod w)%Z (Z.of_nat n / (ch * w))%Z
                (Z.of_nat n mod ch)%Z).
  rewrite (nth_indep _ dflt (g 0%nat))
    by (rewrite length_map, length_seq; lia).
  change (map _ (seq 0 (Z.to_nat (w * h * ch))))
    with (map g (seq 0 (Z.to_nat (w * h * ch)))).
  rewrite map_nth, seq_nth by lia. cbn [plus].
  subst g. cbv beta. rewrite Z2Nat.id by lia.
  assert (E1 : (i / ch = y * w + x)%Z).
  { subst i. rewrite Z.div_add_l by lia. rewrite Z.div_small; lia. }
  assert (E2 : (i mod ch = c)%Z).
  { subst i. rewrite (Z.add_comm ((y * w + x) * ch) c), Z.mod_add by lia.
    apply Z.mod_small; lia. }
  assert (E3 : (i / (ch * w) = y)%Z).
  { rewrite <- Z.div_div by lia. rewrite E1.
    rewrite Z.div_add_l by lia. rewrite Z.div_small; lia. }
  assert (E4 : ((i / ch) mod w = x)%Z).
  { rewrite E1, (Z.add_comm (y * w) x), Z.mod_add by lia.
    apply Z.mod_small; lia. }
  rewrite E4, E3, E2. reflexivity.
Qed.

(** Channel [c] of pixel [(x, y)] of an image whose buffer was filled by
    the loops. *)
Lemma at_xy_tabulate (w h ch : Z) (f : Z -> Z -> Z -> A) (cs : ColorSpace)
    (x y c : Z) :
  (0 <= x < w)%Z -> (0 <= y < h)%Z -> (0 <= c < ch)%Z ->
  Img.at_xy dflt (Img.mkImage w h ch (Img.tabulate w h ch f) cs) x y c
  = f x y c.
Proof.
  intros. unfold Img.at_xy, Img.load. cbn [Img.width Img.channels Img.data].
  now apply tabulate_at.
Qed.

End Tabulate.

(* ================================================================== *)
(** * Properties at binary32, for every libm *)

Section Binary32.

Context {m : F32.Libm}.

(** ** Order facts on binary32 *)

Lemma SFcompare_antisym (x y : F32.float) :
  SFcompare y x = option_map CompOpp (SFcompare x y).
Proof.
  destruct x as [sx | sx | | sx mx ex], y as [sy | sy | | sy my ey];
    try (destruct sx); try (destruct sy); try reflexivity; cbn;
    rewrite (Z.compare_antisym ex ey); destruct (ex ?= ey)%Z; cbn;
    try reflexivity;
    change (Pos.compare_cont Eq my mx)
      with (Pos.compare_cont (CompOpp Eq) my mx);
    rewrite <- (Pos.compare_cont_antisym mx my Eq);
    destruct (Pos.compare_cont Eq mx my); reflexivity.
Qed.

Lemma SFcompare_not_nan (x y : F32.float) :
  F32.is_nan x = false -> F32.is_nan y = false ->
  exists c, SFcompare x y = Some c.
Proof.
  destruct x as [sx | sx | | sx mx ex], y as [sy | sy | | sy my ey];
    cbn; intros Hx Hy; try discriminate; eauto.
Qed.

(** For numbers, [not (x < y)] gives [y <= x]. *)
Lemma flt_false_fle (x y : F32.float) :
  isnan x = false -> isnan y = false -> flt x y = false -> fle y x = true.
Proof.
  cbn. unfold SFltb, SFleb. intros Hx Hy.
  rewrite (SFcompare_antisym x y).
  destruct (SFcompare_not_nan x y Hx Hy) as [c ->].
  destruct c; cbn; congruence.
Qed.

Lemma isfinite_not_nan (x : F32.float) : isfinite x = true -> isnan x = false.
Proof. destruct x; cbn; congruence. Qed.

Lemma IsValid_isfinite (x : F32.float) :
  NumericalProtection.IsValid x = isfinite x.
Proof. destruct x; reflexivity. Qed.

Lemma std_clamp_cases (v lo hi : F32.float) :
  std_clamp v lo hi = lo \/ std_clamp v lo hi = hi
  \/ (std_clamp v lo hi = v /\ flt v lo = false /\ flt hi v = false).
Proof.
  unfold std_clamp.
  destruct (flt v lo) eqn:E1; [now left |].
  destruct (flt hi v) eqn:E2; [now right; left |].
  right; right; auto.
Qed.

(** A finite value clamped between two finite bounds [lo <= hi] is
    finite and lies in [[lo, hi]]. *)
Lemma std_clamp_in_range (v lo hi : F32.float) :
  isfinite v = true -> isfinite lo = true -> isfinite hi = true ->
  fle lo hi = true ->
  let r := std_clamp v lo hi in
  isfinite r = true /\ fle lo r = true /\ fle r hi = true
  /\ flt r lo = false /\ flt hi r = false.
Proof.
  intros Hv Hlo Hhi Hle r.
  assert (Hll : fle lo lo = true /\ flt lo lo = false).
  { destruct lo as [s | s | | s ml el]; try discriminate.
    - now destruct s.
    - cbn. unfold SFleb, SFltb. cbn.
      destruct s; rewrite Z.compare_refl, Pos.compare_refl; auto. }
  assert (Hhh : fle hi hi = true /\ flt hi hi = false).
  { destruct hi as [s | s | | s mh eh]; try discriminate.
    - now destruct s.
    - cbn. unfold SFleb, SFltb. cbn.
      destruct s; rewrite Z.compare_refl, Pos.compare_refl; auto. }
  assert (Hhl : flt hi lo = false).
  { revert Hle. cbn. unfold SFleb, SFltb.
    rewrite (SFcompare_antisym lo hi).
    destruct (SFcompare lo hi) as [[ | | ] | ]; cbn; congruence. }
  destruct (std_clamp_cases v lo hi) as [E | [E | (E & E1 & E2)]];
    subst r; rewrite E.
  - tauto.
  - tauto.
  - repeat split; auto.
    + apply flt_false_fle; auto using isfinite_not_nan.
    + apply flt_false_fle; auto using isfinite_not_nan.
Qed.

(** ** The parameter bundle *)

Lemma FixInvalid_IsValid (v mid : F32.float) :
  isfinite mid = true ->
  isfinite (NumericalProtection.FixInvalid v mid) = true.
Proof.
  unfold NumericalProtection.FixInvalid. rewrite IsValid_isfinite.
  destruct (isfinite v) eqn:E; auto.
Qed.

(** One field of [ClampToValidRange] passes its two checks in
    [IsValid]. *)
Lemma clamped_field_ok (v mid lo hi : F32.float) :
  isfinite mid = true -> isfinite lo = true -> isfinite hi = true ->
  fle lo hi = true ->
  let r := std_clamp (NumericalProtection.FixInvalid v mid) lo hi in
  NumericalProtection.IsValid r = true /\ Params.out_of_range r lo hi = false.
Proof.
  intros Hmid Hlo Hhi Hle r.
  destruct (std_clamp_in_range (NumericalProtection.FixInvalid v mid) lo hi)
    as (H1 & _ & _ & H4 & H5); auto using FixInvalid_IsValid.
  fold r in H1, H4, H5. rewrite IsValid_isfinite.
  unfold Params.out_of_range, fgt. rewrite H4, H5. auto.
Qed.

(** C10.  Whatever the bundle holds (NaN, infinities, out-of-range
    values), [CphParams::ClampToValidRange] produces a bundle that
    [CphParams::IsValid] accepts: every field finite and inside its
    admissible range. *)
Theorem ClampToValidRange_IsValid (p : CphParams F32.float) :
  Params.IsValid (Params.ClampToValidRange p) = true.
Proof.
  unfold Params.IsValid, Params.ClampToValidRange.
  cbv beta iota zeta delta [pivot_pq gamma_s gamma_h shoulder_h black_lift
    highlight_detail sat_base sat_hi rlog_a rlog_b rlog_c rlog_t yknee
    alpha toe].
  repeat match goal with
  | |- context [std_clamp (NumericalProtection.FixInvalid ?v ?mid) ?lo ?hi] =>
      let Hv := fresh "Hv" in
      let Hr := fresh "Hr" in
      destruct (clamped_field_ok v mid lo hi) as [Hv Hr];
      [ reflexivity | reflexivity | reflexivity | reflexivity | ];
      rewrite ?Hv, ?Hr; clear Hv Hr
  end.
  reflexivity.
Qed.

(** ** The error handler *)

(** C9.  The fallback selector [DetermineFallbackStrategy] assigns
    tier 1 (parameter correction) to RANGE_PIVOT and RANGE_KNEE, tier 2
    (standard fallback) to SCHEMA_MISSING, DET_MISMATCH, HL_FLICKER,
    DCI_BOUND and GAMUT_OOG, and tier 3 (hard fallback) to NAN_INF; and
    [HandleError] returns, installs as the current strategy and records
    in the last report's action exactly the selector's choice. *)
Theorem fallback_selector_tiers :
  (ErrorHandling.DetermineFallbackStrategy RANGE_PIVOT = PARAMETER_CORRECTION
   /\ ErrorHandling.DetermineFallbackStrategy RANGE_KNEE
      = PARAMETER_CORRECTION
   /\ ErrorHandling.DetermineFallbackStrategy SCHEMA_MISSING
      = STANDARD_FALLBACK
   /\ ErrorHandling.DetermineFallbackStrategy DET_MISMATCH = STANDARD_FALLBACK
   /\ ErrorHandling.DetermineFallbackStrategy HL_FLICKER = STANDARD_FALLBACK
   /\ ErrorHandling.DetermineFallbackStrategy DCI_BOUND = STANDARD_FALLBACK
   /\ ErrorHandling.DetermineFallbackStrategy GAMUT_OOG = STANDARD_FALLBACK
   /\ ErrorHandling.DetermineFallbackStrategy NAN_INF = HARD_FALLBACK)
  /\ forall (h : ErrorHandling.ErrorHandler F32.float) (now : Z)
       (c : ErrorCode) (msg fld : string) (v : F32.float) (guid tc : string),
       let r := ErrorHandling.HandleError h now c msg fld v guid tc in
       snd r = ErrorHandling.DetermineFallbackStrategy c
       /\ ErrorHandling.current_strategy_ (fst r)
          = ErrorHandling.DetermineFallbackStrategy c
       /\ ErrorHandling.code (ErrorHandling.last_error_ (fst r)) = c
       /\ ErrorHandling.action_taken (ErrorHandling.last_error_ (fst r))
          = match ErrorHandling.DetermineFallbackStrategy c with
            | PARAMETER_CORRECTION => "PARAM_CORRECT"%string
            | STANDARD_FALLBACK => "FALLBACK2094"%string
            | HARD_FALLBACK => "IDENTITY"%string
            end.
Proof.
  split.
  - repeat split.
  - intros h now c msg fld v guid tc r. subst r.
    unfold ErrorHandling.HandleError.
    destruct (ErrorHandling.ShouldLog now c (ErrorHandling.throttler_ h))
      as [lg thr].
    cbn. repeat split.
Qed.

Lemma finite_refl (x : F32.float) :
  isfinite x = true -> fle x x = true /\ flt x x = false.
Proof.
  destruct x as [s | s | | s mx ex]; try discriminate; intros _.
  - now destruct s.
  - cbn. unfold SFleb, SFltb. cbn.
    destruct s; rewrite Z.compare_refl, Pos.compare_refl; auto.
Qed.

(** The two bounds of a row of the range table are inside the row. *)
Lemma bounds_in_range (lo hi : F32.float) :
  isfinite lo = true -> isfinite hi = true -> fle lo hi = true ->
  Params.out_of_range lo lo hi = false /\ Params.out_of_range hi lo hi = false.
Proof.
  intros Hlo Hhi Hle.
  destruct (finite_refl lo Hlo) as [_ Hll].
  destruct (finite_refl hi Hhi) as [_ Hhh].
  assert (Hhl : flt hi lo = false).
  { revert Hle. cbn. unfold SFleb, SFltb.
    rewrite (SFcompare_antisym lo hi).
    destruct (SFcompare lo hi) as [[ | | ] | ]; cbn; congruence. }
  unfold Params.out_of_range, fgt. rewrite Hll, Hhh, Hhl. auto.
Qed.

(** [CorrectParameter] leaves a finite value inside the range: the
    nearest bound for a finite or infinite offender, the midpoint for
    NaN. *)
Lemma CorrectParameter_ok (h : ErrorHandling.ErrorHandler F32.float)
    (now : Z) (v lo hi : F32.float) (fld : string) :
  isfinite lo = true -> isfinite hi = true -> fle lo hi = true ->
  isfinite (fmul (fadd lo hi) (ratio 5 10)) = true ->
  Params.out_of_range (fmul (fadd lo hi) (ratio 5 10)) lo hi = false ->
  let r := snd (ErrorHandling.CorrectParameter h now v lo hi fld) in
  NumericalProtection.IsValid r = true /\ Params.out_of_range r lo hi = false.
Proof.
  intros Hlo Hhi Hle Hmid Hmidr r. subst r.
  destruct (bounds_in_range lo hi Hlo Hhi Hle) as [Blo Bhi].
  unfold ErrorHandling.CorrectParameter.
  destruct (ErrorHandling.ShouldLog now RANGE_PIVOT
              (ErrorHandling.throttler_ h)) as [lg thr].
  cbn [snd].
  destruct (NumericalProtection.IsValid (std_clamp v lo hi)) eqn:Ec;
    cbn [negb].
  - split; [assumption |].
    destruct (std_clamp_cases v lo hi) as [E | [E | (E & E1 & E2)]];
      rewrite E; auto.
    unfold Params.out_of_range, fgt. rewrite E1, E2. auto.
  - split; [now rewrite IsValid_isfinite | assumption].
Qed.

Lemma ValidateFloatRange_ok (h : ErrorHandling.ErrorHandler F32.float)
    (now : Z) (v lo hi : F32.float) (fld : string) :
  isfinite lo = true -> isfinite hi = true -> fle lo hi = true ->
  isfinite (fmul (fadd lo hi) (ratio 5 10)) = true ->
  Params.out_of_range (fmul (fadd lo hi) (ratio 5 10)) lo hi = false ->
  let r := snd (fst (ErrorHandling.ValidateFloatRange h now v lo hi fld)) in
  NumericalProtection.IsValid r = true /\ Params.out_of_range r lo hi = false.
Proof.
  intros Hlo Hhi Hle Hmid Hmidr r. subst r.
  unfold ErrorHandling.ValidateFloatRange.
  destruct (NumericalProtection.IsValid v) eqn:Ev; cbn [negb].
  - destruct (flt v lo || fgt v hi) eqn:Er.
    + destruct (ErrorHandling.HandleError h now RANGE_PIVOT _ fld v _ _)
        as [h1 s1].
      pose proof (CorrectParameter_ok h1 now v lo hi fld Hlo Hhi Hle Hmid
                    Hmidr) as H.
      destruct (ErrorHandling.CorrectParameter h1 now v lo hi fld)
        as [h2 r]. exact H.
    + cbn [fst snd]. split; assumption.
  - destruct (ErrorHandling.HandleError h now NAN_INF _ fld v _ _)
      as [h1 s1].
    pose proof (CorrectParameter_ok h1 now v lo hi fld Hlo Hhi Hle Hmid
                  Hmidr) as H.
    destruct (ErrorHandling.CorrectParameter h1 now v lo hi fld)
      as [h2 r]. exact H.
Qed.

(** What [ValidateFloatRange] does with the pivot [-0.1f]: it reports
    RANGE_PIVOT, selects parameter correction and clamps the value to the
    lower bound [0.05f]. *)
Lemma ValidateFloatRange_low_pivot (h : ErrorHandling.ErrorHandler F32.float)
    (now : Z) :
  let first :=
    ErrorHandling.ValidateFloatRange h now (fneg (ratio 1 10)) (ratio 5 100)
      (ratio 30 100) "pivot_pq" in
  snd (fst first) = ratio 5 100
  /\ snd first = true
  /\ ErrorHandling.code (ErrorHandling.last_error_ (fst (fst first)))
     = RANGE_PIVOT
  /\ ErrorHandling.field_name (ErrorHandling.last_error_ (fst (fst first)))
     = "pivot_pq"%string
  /\ ErrorHandling.invalid_value
       (ErrorHandling.last_error_ (fst (fst first))) = fneg (ratio 1 10)
  /\ ErrorHandling.current_strategy_ (fst (fst first)) = PARAMETER_CORRECTION.
Proof.
  intros first. subst first.
  unfold ErrorHandling.ValidateFloatRange.
  change (NumericalProtection.IsValid (fneg (ratio 1 10) : F32.float))
    with true.
  change (flt (fneg (ratio 1 10) : F32.float) (ratio 5 100)) with true.
  cbn [negb orb].
  unfold ErrorHandling.HandleError.
  destruct (ErrorHandling.ShouldLog now RANGE_PIVOT
              (ErrorHandling.throttler_ h)) as [lg thr].
  unfold ErrorHandling.CorrectParameter.
  cbn [ErrorHandling.throttler_].
  destruct (ErrorHandling.ShouldLog now RANGE_PIVOT thr) as [lg' thr'].
  cbn [fst snd ErrorHandling.last_error_ ErrorHandling.code
       ErrorHandling.field_name ErrorHandling.invalid_value
       ErrorHandling.current_strategy_].
  repeat split.
Qed.

(** C7 (amended).  For a bundle whose pivot is the finite out-of-range
    value [-0.1f], the first check of [ValidateAndCorrectParams] reports
    RANGE_PIVOT for the field [pivot_pq] and selects parameter
    correction; the pivot is clamped to the nearest bound [0.05f] (the
    midpoint is used for NaN only); the call returns [true] and the
    corrected bundle is accepted by [IsValid]. *)
Theorem ValidateAndCorrectParams_low_pivot
    (h : ErrorHandling.ErrorHandler F32.float) (now : Z)
    (p : CphParams F32.float) :
  pivot_pq p = fneg (ratio 1 10) ->
  let first :=
    ErrorHandling.ValidateFloatRange h now (pivot_pq p) (ratio 5 100)
      (ratio 30 100) "pivot_pq" in
  let r := ErrorHandling.ValidateAndCorrectParams h now p in
  ErrorHandling.code (ErrorHandling.last_error_ (fst (fst first)))
  = RANGE_PIVOT
  /\ ErrorHandling.field_name (ErrorHandling.last_error_ (fst (fst first)))
     = "pivot_pq"%string
  /\ ErrorHandling.current_strategy_ (fst (fst first)) = PARAMETER_CORRECTION
  /\ pivot_pq (snd (fst r)) = ratio 5 100
  /\ snd r = true
  /\ Params.IsValid (snd (fst r)) = true.
Proof.
  intros Hp first r. subst first r. rewrite Hp.
  destruct (ValidateFloatRange_low_pivot h now)
    as (Hv & Hc & Hcode & Hfld & _ & Hstr).
  repeat (split; [assumption |]).
  unfold ErrorHandling.ValidateAndCorrectParams. rewrite Hp.
  destruct (ErrorHandling.ValidateFloatRange h now (fneg (ratio 1 10))
              (ratio 5 100) (ratio 30 100) "pivot_pq") as [[h1 v1] c1].
  cbn [fst snd] in Hv, Hc. subst v1 c1.
  repeat match goal with
  | |- context [ErrorHandling.ValidateFloatRange ?h0 ?n ?v ?lo ?hi ?f] =>
      let H := fresh "H" in
      pose proof (ValidateFloatRange_ok h0 n v lo hi f eq_refl eq_refl eq_refl
                    eq_refl eq_refl) as H;
      destruct (ErrorHandling.ValidateFloatRange h0 n v lo hi f)
        as [[? ?] ?];
      cbn [fst snd] in H; destruct H as [? ?]
  end.
  cbn [fst snd pivot_pq orb].
  repeat split.
  unfold Params.IsValid.
  cbv beta iota zeta delta [pivot_pq gamma_s gamma_h shoulder_h black_lift
    highlight_detail sat_base sat_hi rlog_a rlog_b rlog_c rlog_t yknee
    alpha toe].
  repeat match goal with
  | H : NumericalProtection.IsValid ?v = true |- _ => rewrite H; clear H
  | H : Params.out_of_range ?v _ _ = false |- _ => rewrite H; clear H
  end.
  reflexivity.
Qed.

(** ** The two-stage gamut processor *)

Lemma IsInGamut_black (cs : ColorSpace) :
  ColorSpaceConverter.IsInGamut (black : RGB F32.float) cs = true.
Proof. destruct cs; reflexivity. Qed.

(** The coordinate clamp puts a finite pixel inside the gamut box. *)
Lemma ClampToGamut_in_gamut (rgb : RGB F32.float) (cs : ColorSpace) :
  NumericalUtils.IsFiniteRGB rgb = true ->
  ColorSpaceConverter.IsInGamut (ColorSpaceConverter.ClampToGamut rgb cs) cs
  = true.
Proof.
  destruct rgb as [[r g] b]. unfold NumericalUtils.IsFiniteRGB.
  unfold NumericalUtils.IsFinite.
  intros H. apply andb_prop in H as [H Hb]. apply andb_prop in H as [Hr Hg].
  unfold ColorSpaceConverter.IsInGamut, ColorSpaceConverter.ClampToGamut, fge.
  destruct cs;
    repeat match goal with
    | |- context [std_clamp ?v ?lo ?hi] =>
        let H1 := fresh in let H2 := fresh in
        destruct (std_clamp_in_range v lo hi) as (_ & H1 & H2 & _);
        [ assumption | reflexivity | reflexivity | reflexivity | ];
        rewrite H1, H2; clear H1 H2
    end; reflexivity.
Qed.

(** C4.  For every finite pixel, every target colour space and either
    DCI setting, [ApplyGamutProcessing] returns a pixel inside the
    target gamut box ([0,1] per channel for BT2020_PQ, P3_D65 and REC709,
    [-0.5,2] for ACEScg), whatever the perceptual clamp computed and
    whether or not its ten iterations converged. *)
Theorem ApplyGamutProcessing_in_gamut (rgb : RGB F32.float)
    (cs : ColorSpace) (dci : bool) :
  NumericalUtils.IsFiniteRGB rgb = true ->
  ColorSpaceConverter.IsInGamut
    (fst (ColorSpaceConverter.ApplyGamutProcessing rgb cs dci)) cs = true.
Proof.
  intros Hfin. unfold ColorSpaceConverter.ApplyGamutProcessing.
  rewrite Hfin. cbn [negb].
  match goal with
  | |- context [NumericalUtils.IsFiniteRGB ?px] =>
      destruct (NumericalUtils.IsFiniteRGB px) eqn:E
  end; cbn [negb fst].
  - now apply ClampToGamut_in_gamut.
  - apply IsInGamut_black.
Qed.

(** ** Saturation under DCI compliance *)

(** C6 (what the code does).  The call of [ApplySaturation] in
    [ApplySaturationProcessing] receives [sat_hi] as it stands in the
    bundle: the stage is the same with [dci_compliance] on and off, so no
    0.925 trim is applied. *)
Theorem SaturationStage_ignores_dci (p : CphParams F32.float)
    (pixel : RGB F32.float) :
  ColorSpaceConverter.SaturationStage (Scenarios.set_dci_compliance p true)
    pixel
  = ColorSpaceConverter.SaturationStage
      (Scenarios.set_dci_compliance p false) pixel
  /\ ColorSpaceConverter.SaturationStage
       (Scenarios.set_dci_compliance p true) pixel
     = ColorSpaceConverter.ApplySaturation pixel (sat_base p) (sat_hi p)
         (pivot_pq p)
         (std_clamp (std_max (fst (fst pixel))
                             (std_max (snd (fst pixel)) (snd pixel)))
                    zero one).
Proof. destruct pixel as [[r g] b]. split; reflexivity. Qed.

(** ** Non-finite input pixels *)

Lemma forallb_isfinite_nth (l : list F32.float) (n : nat) :
  forallb isfinite l = true -> isfinite (nth n l zero) = true.
Proof.
  revert n. induction l as [| a l IH]; intros [| n] H; cbn in *;
    try reflexivity; apply andb_prop in H as [Ha Hl]; auto.
Qed.

(** [Image::IsValid] refuses a frame that holds a NaN. *)
Lemma Image_IsValid_no_nan (img : Img.Image F32.float) (x y c : Z) :
  isnan (Img.at_xy zero img x y c) = true -> Image_IsValid img = false.
Proof.
  intros Hnan. destruct (Image_IsValid img) eqn:E; [| reflexivity].
  unfold Image_IsValid in E.
  destruct (_ || _ || _); [discriminate |].
  destruct (negb _); [discriminate |].
  unfold Img.at_xy, Img.load in Hnan.
  pose proof (forallb_isfinite_nth _ (Z.to_nat
    ((y * Img.width img + x) * Img.channels img + c)) E) as Hf.
  apply isfinite_not_nan in Hf. congruence.
Qed.

Lemma ToWorkingDomain_pixel_nan (cs : ColorSpace) (r g b : F32.float) :
  isnan r = true ->
  ColorSpaceConverter.ToWorkingDomain_pixel cs (r, g, b) = black.
Proof.
  intros Hr. unfold ColorSpaceConverter.ToWorkingDomain_pixel.
  assert (E : NumericalUtils.IsFiniteRGB (r, g, b) = false).
  { destruct r; try discriminate. reflexivity. }
  now rewrite E.
Qed.

(** C8 (amended).  For a frame with a pixel whose R channel is NaN: the
    working-domain converter turns that pixel into (0,0,0); but
    [ProcessFrame] never reaches the converter: its entry check
    [Image::IsValid] refuses the frame, the call records NAN_INF
    ("Invalid input image"), leaves the output untouched and returns
    false. *)
Theorem NaN_pixel_frame_rejected (s : CphProcessor.Impl F32.float)
    (input output : Img.Image F32.float) (x y : Z) :
  CphProcessor.initialized s = true ->
  isnan (Img.at_xy zero input x y 0) = true ->
  ColorSpaceConverter.ToWorkingDomain_pixel (Img.color_space input)
    (ColorSpaceConverter.pixel_at input x y) = black
  /\ ((0 <= x < Img.width input)%Z -> (0 <= y < Img.height input)%Z ->
      Img.channels input = 3%Z ->
      ColorSpaceConverter.pixel_at
        (ColorSpaceConverter.ToWorkingDomain input) x y = black)
  /\ CphProcessor.ProcessFrame s input output
     = (CphProcessor.LogError s NAN_INF "Invalid input image" "" zero,
        output, false)
  /\ option_map ErrorHandling.code
       (CphProcessor.last_error
          (fst (fst (CphProcessor.ProcessFrame s input output))))
     = Some NAN_INF.
Proof.
  intros Hinit Hnan.
  assert (Hpx : ColorSpaceConverter.ToWorkingDomain_pixel
                  (Img.color_space input)
                  (ColorSpaceConverter.pixel_at input x y) = black).
  { unfold ColorSpaceConverter.pixel_at.
    now apply ToWorkingDomain_pixel_nan. }
  assert (Hrej : CphProcessor.ProcessFrame s input output
                 = (CphProcessor.LogError s NAN_INF "Invalid input image" ""
                      zero, output, false)).
  { unfold CphProcessor.ProcessFrame.
    rewrite Hinit, (Image_IsValid_no_nan input x y 0 Hnan). reflexivity. }
  split; [exact Hpx |]. split; [| split; [exact Hrej |]].
  - intros Hx Hy Hch.
    unfold ColorSpaceConverter.pixel_at at 1.
    unfold ColorSpaceConverter.ToWorkingDomain.
    rewrite !at_xy_tabulate by lia. rewrite Hpx. reflexivity.
  - rewrite Hrej. reflexivity.
Qed.

End Binary32.

(* ================================================================== *)
(** * Scenarios at binary32, run with [F32.nan_libm] *)

Section Binary32_Scenarios.

#[local] Existing Instance F32.nan_libm.

(** C7, as stated, fails: on the default bundle with [pivot_pq = -0.1f]
    the corrected pivot is the lower bound [0.05f], not the midpoint
    [0.175f]. *)
Lemma low_pivot_not_midpoint :
  pivot_pq
    (snd (fst (ErrorHandling.ValidateAndCorrectParams
                 ErrorHandling.new_handler 0
                 (Scenarios.low_pivot_bundle (F := F32.float)))))
  = ratio 5 100
  /\ ratio 5 100 <> (ratio 175 1000 : F32.float).
Proof. split; [reflexivity | discriminate]. Qed.

Lemma ValidateAndCorrectParams_low_pivot_witness :
  pivot_pq (Scenarios.low_pivot_bundle (F := F32.float)) = fneg (ratio 1 10)
  /\ (ErrorHandling.code
        (ErrorHandling.last_error_
           (fst (fst (ErrorHandling.ValidateFloatRange
                        ErrorHandling.new_handler 0
                        (pivot_pq Scenarios.low_pivot_bundle) (ratio 5 100)
                        (ratio 30 100) "pivot_pq"))))
      = RANGE_PIVOT
      /\ pivot_pq
           (snd (fst (ErrorHandling.ValidateAndCorrectParams
                        ErrorHandling.new_handler 0
                        (Scenarios.low_pivot_bundle (F := F32.float)))))
         = ratio 5 100
      /\ Params.IsValid
           (snd (fst (ErrorHandling.ValidateAndCorrectParams
                        ErrorHandling.new_handler 0
                        (Scenarios.low_pivot_bundle (F := F32.float)))))
         = true).
Proof.
  split; [reflexivity |].
  pose proof (ValidateAndCorrectParams_low_pivot ErrorHandling.new_handler 0
                Scenarios.low_pivot_bundle eq_refl) as H.
  destruct H as (H1 & _ & _ & H4 & _ & H6).
  exact (conj H1 (conj H4 H6)).
Defined.

(** C8, as stated, fails: on a ready processor the 1x1 frame with
    [R = NaN] is not processed; [ProcessFrame] returns false and the
    error it records is NAN_INF. *)
Lemma nan_frame_not_processed :
  snd (CphProcessor.ProcessFrame Scenarios.ready_processor
         Scenarios.nan_frame (Img.new_image zero 0 0 3)) = false
  /\ option_map ErrorHandling.code
       (CphProcessor.last_error
          (fst (fst (CphProcessor.ProcessFrame Scenarios.ready_processor
                       Scenarios.nan_frame (Img.new_image zero 0 0 3)))))
     = Some NAN_INF.
Proof. split; reflexivity. Qed.

Lemma NaN_pixel_frame_rejected_witness :
  (CphProcessor.initialized
     (Scenarios.ready_processor (F := F32.float)) = true
   /\ isnan (Img.at_xy zero Scenarios.nan_frame 0 0 0) = true)
  /\ CphProcessor.ProcessFrame Scenarios.ready_processor Scenarios.nan_frame
       (Img.new_image zero 0 0 3)
     = (CphProcessor.LogError Scenarios.ready_processor NAN_INF
          "Invalid input image" "" zero,
        Img.new_image zero 0 0 3, false).
Proof.
  assert (H1 : CphProcessor.initialized
                 (Scenarios.ready_processor (F := F32.float)) = true)
    by reflexivity.
  assert (H2 : isnan (Img.at_xy zero Scenarios.nan_frame 0 0 0) = true)
    by reflexivity.
  split; [split; assumption |].
  exact (proj1 (proj2 (proj2
    (NaN_pixel_frame_rejected Scenarios.ready_processor Scenarios.nan_frame
       (Img.new_image zero 0 0 3) 0 0 H1 H2)))).
Defined.

Lemma ApplyGamutProcessing_in_gamut_witness :
  NumericalUtils.IsFiniteRGB (Scenarios.s7_pixel (F := F32.float)) = true
  /\ ColorSpaceConverter.IsInGamut
       (fst (ColorSpaceConverter.ApplyGamutProcessing Scenarios.s7_pixel
               P3_D65 true)) P3_D65 = true.
Proof.
  split; [reflexivity |].
  apply (ApplyGamutProcessing_in_gamut Scenarios.s7_pixel P3_D65 true).
  reflexivity.
Defined.

End Binary32_Scenarios.

(* ================================================================== *)
(** * Properties in exact arithmetic *)

Section Exact.

#[local] Existing Instance Ideal.ops.

Local Open Scope R_scope.

(** ** Reading the interface at [R] *)

Lemma flt_R (x y : R) : flt x y = true <-> x < y.
Proof.
  cbn. unfold Ideal.Rltb. destruct (Rlt_dec x y); split; intros; auto;
    try discriminate; contradiction.
Qed.

Lemma fle_R (x y : R) : fle x y = true <-> x <= y.
Proof.
  cbn. unfold Ideal.Rleb. destruct (Rle_dec x y); split; intros; auto;
    try discriminate; contradiction.
Qed.

Lemma flt_R_false (x y : R) : flt x y = false <-> y <= x.
Proof.
  cbn. unfold Ideal.Rltb. destruct (Rlt_dec x y); split; intros; auto;
    try discriminate; lra.
Qed.

Lemma fle_R_false (x y : R) : fle x y = false <-> y < x.
Proof.
  cbn. unfold Ideal.Rleb. destruct (Rle_dec x y); split; intros; auto;
    try discriminate; lra.
Qed.

Lemma ratio_R (n d : positive) : ratio n d = IZR (Zpos n) / IZR (Zpos d).
Proof. reflexivity. Qed.

Lemma one_R : (one : R) = 1.
Proof. unfold one. rewrite ratio_R. lra. Qed.

(** Case analysis on a comparison at [R]. *)
Ltac cmp_R t :=
  let E := fresh "E" in
  destruct t eqn:E;
  [ first [ apply flt_R in E | apply fle_R in E ]
  | first [ apply flt_R_false in E | apply fle_R_false in E ] ].

Lemma std_clamp_R (v lo hi : R) :
  lo <= hi ->
  lo <= std_clamp v lo hi <= hi
  /\ (lo <= v <= hi -> std_clamp v lo hi = v)
  /\ (v <= lo -> std_clamp v lo hi = lo)
  /\ (hi <= v -> std_clamp v lo hi = hi).
Proof.
  intros Hle. unfold std_clamp.
  cmp_R (flt v lo); [| cmp_R (flt hi v)]; repeat split; intros; lra.
Qed.

Lemma std_clamp_R_mono (v v' lo hi : R) :
  lo <= hi -> v <= v' -> std_clamp v lo hi <= std_clamp v' lo hi.
Proof.
  intros Hle Hv. unfold std_clamp.
  cmp_R (flt v lo); cmp_R (flt v' lo); try lra;
    try (cmp_R (flt hi v')); try (cmp_R (flt hi v)); try lra.
Qed.

Lemma std_max_R (a b : R) : std_max a b = Rmax a b.
Proof.
  unfold std_max. cmp_R (flt a b).
  - rewrite Rmax_right; lra.
  - rewrite Rmax_left; lra.
Qed.

(** ** The validity predicate at [R] *)

Lemma out_of_range_R (v lo hi : R) :
  Params.out_of_range v lo hi = false <-> lo <= v <= hi.
Proof.
  unfold Params.out_of_range, fgt. split.
  - intros H. apply orb_false_elim in H as [H1 H2].
    apply flt_R_false in H1, H2. lra.
  - intros [H1 H2]. apply orb_false_intro; apply flt_R_false; lra.
Qed.

(** [IsValid] at [R] is the range table. *)
Lemma IsValid_R (p : CphParams R) :
  Params.IsValid p = true ->
  (5 / 100 <= pivot_pq p <= 30 / 100)
  /\ (1 <= gamma_s p <= 16 / 10)
  /\ (8 / 10 <= gamma_h p <= 14 / 10)
  /\ (5 / 10 <= shoulder_h p <= 3)
  /\ (1 <= rlog_a p <= 16)
  /\ (8 / 10 <= rlog_b p <= 12 / 10)
  /\ (5 / 10 <= rlog_c p <= 3)
  /\ (4 / 10 <= rlog_t p <= 7 / 10)
  /\ (95 / 100 <= yknee p <= 99 / 100)
  /\ (2 / 10 <= alpha p <= 1)
  /\ (0 <= toe p <= 1 / 100).
Proof.
  unfold Params.IsValid.
  change (NumericalProtection.IsValid (F := R) ?v) with true.
  cbn [negb orb].
  repeat match goal with
  | |- context [Params.out_of_range ?v ?lo ?hi] =>
      let E := fresh "E" in
      destruct (Params.out_of_range v lo hi) eqn:E;
      [ discriminate 1 | apply out_of_range_R in E; rewrite ?ratio_R in E ]
  end.
  intros _. cbn [zero Ideal.ops] in *. repeat split; lra.
Qed.

Lemma mapper_of_valid (p : CphParams R) :
  Params.IsValid p = true ->
  Scenarios.mapper_of p
  = ToneMapper.mkToneMapper p EmptyString true.
Proof.
  intros H. unfold Scenarios.mapper_of, ToneMapper.Initialize.
  rewrite H. reflexivity.
Qed.

(** ** Soft knee *)

Lemma ApplySoftKnee_below (tm : ToneMapper.ToneMapper R) (y : R) :
  y <= yknee (ToneMapper.params_ tm) -> ToneMapper.ApplySoftKnee tm y = y.
Proof.
  intros H. unfold ToneMapper.ApplySoftKnee.
  apply fle_R in H. now rewrite H.
Qed.

(** Above the knee, with [e = y - yknee] and [m = 1 - yknee], the output
    is [yknee + e * m / (m + alpha * e)]. *)
Lemma ApplySoftKnee_above (tm : ToneMapper.ToneMapper R) (y : R) :
  let k := yknee (ToneMapper.params_ tm) in
  let a := alpha (ToneMapper.params_ tm) in
  k < y -> k < 1 -> 0 <= a ->
  ToneMapper.ApplySoftKnee tm y
  = k + (y - k) * (1 - k) / ((1 - k) + a * (y - k)).
Proof.
  intros k a Hy Hk Ha. unfold ToneMapper.ApplySoftKnee.
  fold k a. rewrite one_R.
  cmp_R (fle y k); [lra |].
  cbn [fsub fadd fmul fdiv zero Ideal.ops].
  cmp_R (fle (1 - k) 0); [lra |].
  assert (0 < (1 - k) + a * (y - k)) by nra.
  field. split; lra.
Qed.

(** The formula of the soft knee, in exact arithmetic: for yknee in
    [0.95,0.99] and alpha in [0.2,1.0] its value never exceeds its
    argument, and above the knee it is below 1 exactly when
    [(y - yknee) * (1 - alpha) < 1 - yknee].  The binary32 program
    rounds; what it does is stated with the binary32 properties of the
    tone curve. *)
Theorem ApplySoftKnee_compresses (tm : ToneMapper.ToneMapper R) (y : R) :
  95 / 100 <= yknee (ToneMapper.params_ tm) <= 99 / 100 ->
  2 / 10 <= alpha (ToneMapper.params_ tm) <= 1 ->
  ToneMapper.ApplySoftKnee tm y <= y
  /\ (y <= 1 -> ToneMapper.ApplySoftKnee tm y < 1)
  /\ (yknee (ToneMapper.params_ tm) < y ->
      (ToneMapper.ApplySoftKnee tm y < 1
       <-> (y - yknee (ToneMapper.params_ tm))
           * (1 - alpha (ToneMapper.params_ tm))
           < 1 - yknee (ToneMapper.params_ tm))).
Proof.
  intros Hk Ha.
  set (k := yknee (ToneMapper.params_ tm)) in *.
  set (a := alpha (ToneMapper.params_ tm)) in *.
  destruct (Rle_lt_dec y k) as [Hy | Hy].
  - rewrite (ApplySoftKnee_below tm y Hy). repeat split; try lra.
  - rewrite (ApplySoftKnee_above tm y) by (fold k a; lra). fold k a.
    clearbody k a.
    set (D := (1 - k) + a * (y - k)).
    assert (HD : 0 < D) by (subst D; nra).
    set (X := (y - k) * (1 - k) / D).
    assert (HX : X * D = (y - k) * (1 - k)) by (subst X; field; lra).
    assert (HDe : D = (1 - k) + a * (y - k)) by reflexivity.
    clearbody X D.
    assert (Hsq : 0 <= a * ((y - k) * (y - k))).
    { apply Rmult_le_pos; [lra | apply Rle_0_sqr]. }
    assert (Hiff : X < 1 - k <-> (y - k) * (1 - a) < 1 - k).
    { split; intros H.
      - assert (X * D < (1 - k) * D) by (apply Rmult_lt_compat_r; lra).
        nra.
      - apply (Rmult_lt_reg_r D); [lra |]. rewrite HX. nra. }
    repeat split.
    + assert (X <= y - k); [| lra].
      apply (Rmult_le_reg_r D); [lra |]. rewrite HX. nra.
    + intros Hy1. assert (X < 1 - k); [| lra].
      apply Hiff. nra.
    + intros H'. apply Hiff. lra.
    + intros H'. apply Hiff in H'. lra.
Qed.

(** ** The tone-mapping evaluator: range and fixed point at 0 *)

(** The curve selected by the bundle. *)
Lemma ApplyToneMapping_R (p : CphParams R) (x : R) :
  let tm := ToneMapper.mkToneMapper p EmptyString true in
  ToneMapper.ApplyToneMapping tm x
  = std_clamp
      (ToneMapper.ApplyToeClamp tm
         (ToneMapper.ApplySoftKnee tm
            (match curve p with
             | PPR => ToneMapper.ApplyPPR tm (std_clamp x 0 1)
             | RLOG => ToneMapper.ApplyRLOG tm (std_clamp x 0 1)
             end))) 0 1.
Proof.
  intros tm. unfold ToneMapper.ApplyToneMapping.
  cbn [ToneMapper.initialized_ ToneMapper.params_ tm negb].
  change (NumericalProtection.IsValid x) with true. cbn [negb].
  rewrite one_R. reflexivity.
Qed.





(** ** Highlight detail *)




(** At [R] too, [ClampToValidRange] produces a valid bundle. *)
Lemma ClampToValidRange_IsValid_R (p : CphParams R) :
  Params.IsValid (Params.ClampToValidRange p) = true.
Proof.
  unfold Params.IsValid.
  change (NumericalProtection.IsValid (F := R) ?v) with true.
  cbn [negb orb].
  unfold Params.ClampToValidRange.
  cbv beta iota zeta delta [pivot_pq gamma_s gamma_h shoulder_h black_lift
    highlight_detail sat_base sat_hi rlog_a rlog_b rlog_c rlog_t yknee
    alpha toe].
  repeat match goal with
  | |- context [Params.out_of_range (std_clamp ?v ?lo ?hi) ?lo ?hi] =>
      replace (Params.out_of_range (std_clamp v lo hi) lo hi) with false
        by (symmetry; apply out_of_range_R; apply std_clamp_R; cbn; lra)
  end.
  reflexivity.
Qed.

(** * Monotonicity of the tone curves *)

(** ** Elementary analysis *)

Lemma ln_le_sub1 (v : R) : 0 < v -> ln v <= v - 1.
Proof.
  intros Hv. pose proof (exp_ineq1_le (ln v)) as H.
  rewrite exp_ln in H by assumption. lra.
Qed.

Lemma ln_ge_sub1_inv (v : R) : 0 < v -> 1 - / v <= ln v.
Proof.
  intros Hv. pose proof (ln_le_sub1 (/ v) (Rinv_0_lt_compat v Hv)) as H.
  rewrite ln_Rinv in H by assumption. lra.
Qed.

Lemma ln_le_mono (x y : R) : 0 < x -> x <= y -> ln x <= ln y.
Proof.
  intros Hx [Hlt | ->]; [| lra]. left. now apply ln_increasing.
Qed.

(** [ln y - ln x <= (y - x) / x] and [(y - x) / y <= ln y - ln x]. *)
Lemma ln_diff_le (x y : R) : 0 < x -> 0 < y -> ln y - ln x <= (y - x) / x.
Proof.
  intros Hx Hy.
  assert (Hq : 0 < y / x) by (apply Rdiv_lt_0_compat; assumption).
  pose proof (ln_le_sub1 (y / x) Hq) as H.
  unfold Rdiv in H at 1. rewrite ln_mult, ln_Rinv in H
    by (auto using Rinv_0_lt_compat).
  replace ((y - x) / x) with (y / x - 1) by (field; lra). lra.
Qed.

Lemma ln_diff_ge (x y : R) : 0 < x -> 0 < y -> (y - x) / y <= ln y - ln x.
Proof.
  intros Hx Hy. pose proof (ln_diff_le y x Hy Hx) as H.
  replace ((y - x) / y) with (- ((x - y) / y)) by (field; lra). lra.
Qed.

Lemma Rpower_one_base (c : R) : Rpower 1 c = 1.
Proof. unfold Rpower. rewrite ln_1, Rmult_0_r. apply exp_0. Qed.

Lemma Rpow_pos (b e : R) : 0 < b -> 0 < Ideal.Rpow b e.
Proof.
  intros Hb. unfold Ideal.Rpow. destruct (Rlt_dec 0 b); [| contradiction].
  apply exp_pos.
Qed.

Lemma Rpow_mono (b b' e : R) :
  0 <= e -> 0 < b -> b <= b' -> Ideal.Rpow b e <= Ideal.Rpow b' e.
Proof.
  intros He Hb Hbb. unfold Ideal.Rpow.
  destruct (Rlt_dec 0 b); [| contradiction].
  destruct (Rlt_dec 0 b'); [| lra].
  apply Rle_Rpower_l; lra.
Qed.

Lemma Rpow_le_one (b e : R) : 0 <= e -> 0 < b -> b <= 1 -> Ideal.Rpow b e <= 1.
Proof.
  intros He Hb Hb1. pose proof (Rpow_mono b 1 e He Hb Hb1) as H.
  unfold Ideal.Rpow in H at 2.
  destruct (Rlt_dec 0 1); [| lra]. now rewrite Rpower_one_base in H.
Qed.

(** ** The smoothstep weight and the blend *)

Lemma smooth_range (u : R) : 0 <= u <= 1 -> 0 <= u * u * (3 - 2 * u) <= 1.
Proof.
  intros H. split.
  - apply Rmult_le_pos; [apply Rle_0_sqr | lra].
  - assert (0 <= (1 - u) * (1 - u) * (1 + 2 * u))
      by (apply Rmult_le_pos; [apply Rle_0_sqr | lra]).
    lra.
Qed.

Lemma smooth_mono (u v : R) :
  0 <= u -> u <= v -> v <= 1 ->
  u * u * (3 - 2 * u) <= v * v * (3 - 2 * v).
Proof.
  intros Hu Huv Hv.
  assert (v * v * (3 - 2 * v) - u * u * (3 - 2 * u)
          = (v - u) * (u * (3 - 2 * u - v) + v * (3 - 2 * v - u))) by ring.
  assert (0 <= u * (3 - 2 * u - v)) by (apply Rmult_le_pos; lra).
  assert (0 <= v * (3 - 2 * v - u)) by (apply Rmult_le_pos; lra).
  assert (0 <= (v - u) * (u * (3 - 2 * u - v) + v * (3 - 2 * v - u)))
    by (apply Rmult_le_pos; lra).
  lra.
Qed.

Lemma SmoothStep_R (e0 e1 x : R) :
  e0 < e1 ->
  ToneMapper.SmoothStep e0 e1 x
  = let u := std_clamp ((x - e0) / (e1 - e0)) 0 1 in u * u * (3 - 2 * u).
Proof.
  intros H. unfold ToneMapper.SmoothStep.
  cmp_R (fle e1 e0); [lra |]. rewrite one_R.
  cbn [fmul fsub fdiv ratio zero Ideal.ops]. cbv zeta. field.
Qed.

Lemma SmoothStep_props (e0 e1 : R) :
  e0 < e1 ->
  (forall x, 0 <= ToneMapper.SmoothStep e0 e1 x <= 1)
  /\ (forall x, x <= e0 -> ToneMapper.SmoothStep e0 e1 x = 0)
  /\ (forall x, e1 <= x -> ToneMapper.SmoothStep e0 e1 x = 1)
  /\ (forall x y, x <= y ->
        ToneMapper.SmoothStep e0 e1 x <= ToneMapper.SmoothStep e0 e1 y).
Proof.
  intros H.
  assert (Hc : forall x, 0 <= std_clamp ((x - e0) / (e1 - e0)) 0 1 <= 1)
    by (intros x; apply std_clamp_R; lra).
  repeat split.
  - rewrite SmoothStep_R by assumption. cbv zeta. apply smooth_range, Hc.
  - rewrite SmoothStep_R by assumption. cbv zeta. apply smooth_range, Hc.
  - intros x Hx. rewrite SmoothStep_R by assumption. cbv zeta.
    destruct (std_clamp_R ((x - e0) / (e1 - e0)) 0 1) as (_ & _ & E & _);
      [lra |].
    rewrite E; [ring |].
    apply Rmult_le_reg_r with (e1 - e0); [lra |].
    unfold Rdiv. rewrite Rmult_assoc, Rinv_l by lra. lra.
  - intros x Hx. rewrite SmoothStep_R by assumption. cbv zeta.
    destruct (std_clamp_R ((x - e0) / (e1 - e0)) 0 1) as (_ & _ & _ & E);
      [lra |].
    rewrite E; [ring |].
    apply Rmult_le_reg_r with (e1 - e0); [lra |].
    unfold Rdiv. rewrite Rmult_assoc, Rinv_l by lra. lra.
  - intros x y Hxy. rewrite !SmoothStep_R by assumption. cbv zeta.
    apply smooth_mono; try apply Hc.
    apply std_clamp_R_mono; [lra |].
    apply Rmult_le_compat_r; [| lra].
    left. apply Rinv_0_lt_compat. lra.
Qed.

Lemma Mix_R (a b t : R) : ToneMapper.Mix a b t = a + t * (b - a).
Proof. reflexivity. Qed.

(** A blend of two non-decreasing curves [f <= g] with a non-decreasing
    weight in [0,1] is non-decreasing. *)
Lemma blend_mono (f g w : R -> R) (x y : R) :
  f x <= f y -> g x <= g y -> w x <= w y -> 0 <= w x -> w y <= 1 ->
  f y <= g y ->
  f x + w x * (g x - f x) <= f y + w y * (g y - f y).
Proof. intros. nra. Qed.

(** ** PPR *)

Lemma PPRShadowSegment_R (p : CphParams R) (x : R) :
  0 < pivot_pq p ->
  ToneMapper.PPRShadowSegment (ToneMapper.mkToneMapper p EmptyString true) x
  = if Rle_dec x 0 then 0
    else if Rle_dec (pivot_pq p) x then pivot_pq p
    else Ideal.Rpow (x / pivot_pq p) (gamma_s p) * pivot_pq p.
Proof.
  intros Hp. unfold ToneMapper.PPRShadowSegment, fge.
  cbn [ToneMapper.params_ zero fmul fdiv powf fle Ideal.ops].
  unfold Ideal.Rleb.
  destruct (Rle_dec x 0); [reflexivity |].
  destruct (Rle_dec (pivot_pq p) 0); [lra |].
  destruct (Rle_dec (pivot_pq p) x); reflexivity.
Qed.

Lemma PPRShadowSegment_range (p : CphParams R) (x : R) :
  0 < pivot_pq p -> 0 <= gamma_s p ->
  0 <= ToneMapper.PPRShadowSegment
         (ToneMapper.mkToneMapper p EmptyString true) x <= pivot_pq p.
Proof.
  intros Hp Hg. rewrite PPRShadowSegment_R by assumption.
  destruct (Rle_dec x 0); [lra |].
  destruct (Rle_dec (pivot_pq p) x); [lra |].
  assert (Hq : 0 < x / pivot_pq p) by (apply Rdiv_lt_0_compat; lra).
  assert (Hq1 : x / pivot_pq p <= 1).
  { apply Rmult_le_reg_r with (pivot_pq p); [lra |].
    unfold Rdiv. rewrite Rmult_assoc, Rinv_l by lra. lra. }
  pose proof (Rpow_pos _ (gamma_s p) Hq).
  pose proof (Rpow_le_one _ (gamma_s p) Hg Hq Hq1).
  split; nra.
Qed.

Lemma PPRShadowSegment_mono (p : CphParams R) (x y : R) :
  0 < pivot_pq p -> 0 <= gamma_s p -> x <= y ->
  ToneMapper.PPRShadowSegment (ToneMapper.mkToneMapper p EmptyString true) x
  <= ToneMapper.PPRShadowSegment
       (ToneMapper.mkToneMapper p EmptyString true) y.
Proof.
  intros Hp Hg Hxy.
  pose proof (PPRShadowSegment_range p x Hp Hg) as Hx.
  pose proof (PPRShadowSegment_range p y Hp Hg) as Hy.
  rewrite (PPRShadowSegment_R p x Hp) in *.
  rewrite (PPRShadowSegment_R p y Hp) in *.
  destruct (Rle_dec x 0); [lra |].
  destruct (Rle_dec y 0); [lra |].
  destruct (Rle_dec (pivot_pq p) y); [lra |].
  destruct (Rle_dec (pivot_pq p) x); [lra |].
  apply Rmult_le_compat_r; [lra |].
  apply Rpow_mono; [assumption | apply Rdiv_lt_0_compat; lra |].
  apply Rmult_le_compat_r; [| assumption].
  left. apply Rinv_0_lt_compat. lra.
Qed.

(** The rational part [n / (1 + h * n)] of the highlight segment. *)
Lemma rational_part_mono (h n n' : R) :
  0 <= h -> 0 < n -> n <= n' -> n / (1 + h * n) <= n' / (1 + h * n').
Proof.
  intros Hh Hn Hnn.
  assert (0 < 1 + h * n) by nra. assert (0 < 1 + h * n') by nra.
  apply Rmult_le_reg_r with ((1 + h * n) * (1 + h * n')); [nra |].
  replace (n / (1 + h * n) * ((1 + h * n) * (1 + h * n')))
    with (n * (1 + h * n')) by (field; lra).
  replace (n' / (1 + h * n') * ((1 + h * n) * (1 + h * n')))
    with (n' * (1 + h * n)) by (field; lra).
  nra.
Qed.

Lemma PPRHighlightSegment_R (p : CphParams R) (x : R) :
  pivot_pq p < 1 -> 0 <= shoulder_h p ->
  ToneMapper.PPRHighlightSegment
    (ToneMapper.mkToneMapper p EmptyString true) x
  = if Rle_dec x (pivot_pq p) then pivot_pq p
    else
      let n := Rmin ((x - pivot_pq p) / (1 - pivot_pq p)) 1 in
      pivot_pq p
      + Ideal.Rpow (n / (1 + shoulder_h p * n)) (gamma_h p)
        * (1 - pivot_pq p).
Proof.
  intros Hp Hh. unfold ToneMapper.PPRHighlightSegment, fge.
  rewrite one_R.
  cbn [ToneMapper.params_ zero fmul fdiv fadd fsub powf Ideal.ops].
  cbn [fle Ideal.ops]. unfold Ideal.Rleb at 1.
  destruct (Rle_dec x (pivot_pq p)) as [Hxp | Hxp]; [reflexivity |].
  change Ideal.Rleb with (fle (F := R)).
  set (n := (x - pivot_pq p) / (1 - pivot_pq p)).
  assert (Hn : 0 < n) by (apply Rdiv_lt_0_compat; lra).
  cmp_R (fle n 0); [lra |].
  cbv zeta.
  cmp_R (fle 1 n).
  - rewrite Rmin_right by lra.
    cmp_R (fle (1 + shoulder_h p * 1) 0); [nra | reflexivity].
  - rewrite Rmin_left by lra.
    cmp_R (fle (1 + shoulder_h p * n) 0); [nra | reflexivity].
Qed.

Lemma PPRHighlightSegment_lower (p : CphParams R) (x : R) :
  pivot_pq p < 1 -> 0 <= shoulder_h p ->
  pivot_pq p <= ToneMapper.PPRHighlightSegment
                 (ToneMapper.mkToneMapper p EmptyString true) x.
Proof.
  intros Hp Hh. rewrite PPRHighlightSegment_R by assumption.
  destruct (Rle_dec x (pivot_pq p)) as [Hxp | Hxp]; [lra |]. cbv zeta.
  set (n := Rmin ((x - pivot_pq p) / (1 - pivot_pq p)) 1).
  assert (Hn : 0 < n).
  { subst n. apply Rmin_glb_lt; [apply Rdiv_lt_0_compat |]; lra. }
  assert (0 < n / (1 + shoulder_h p * n))
    by (apply Rdiv_lt_0_compat; nra).
  pose proof (Rpow_pos _ (gamma_h p) H). nra.
Qed.

Lemma PPRHighlightSegment_mono (p : CphParams R) (x y : R) :
  pivot_pq p < 1 -> 0 <= shoulder_h p -> 0 <= gamma_h p -> x <= y ->
  ToneMapper.PPRHighlightSegment
    (ToneMapper.mkToneMapper p EmptyString true) x
  <= ToneMapper.PPRHighlightSegment
       (ToneMapper.mkToneMapper p EmptyString true) y.
Proof.
  intros Hp Hh Hg Hxy.
  pose proof (PPRHighlightSegment_lower p y Hp Hh) as Hy.
  rewrite (PPRHighlightSegment_R p x Hp Hh).
  destruct (Rle_dec x (pivot_pq p)) as [Hxp | Hxp]; [exact Hy |].
  rewrite (PPRHighlightSegment_R p y Hp Hh).
  destruct (Rle_dec y (pivot_pq p)) as [Hyp | Hyp]; [lra |]. cbv zeta.
  set (n := Rmin ((x - pivot_pq p) / (1 - pivot_pq p)) 1).
  set (n' := Rmin ((y - pivot_pq p) / (1 - pivot_pq p)) 1).
  assert (Hn : 0 < n).
  { subst n. apply Rmin_glb_lt; [apply Rdiv_lt_0_compat |]; lra. }
  assert (Hnn : n <= n').
  { subst n n'. apply Rle_min_compat_r.
    apply Rmult_le_compat_r; [| lra].
    left. apply Rinv_0_lt_compat. lra. }
  apply Rplus_le_compat_l, Rmult_le_compat_r; [lra |].
  apply Rpow_mono; [assumption | apply Rdiv_lt_0_compat; nra |].
  now apply rational_part_mono.
Qed.

Lemma ApplyPPR_R (p : CphParams R) (x : R) :
  0 < pivot_pq p ->
  let tm := ToneMapper.mkToneMapper p EmptyString true in
  let lo := pivot_pq p - pivot_pq p * (1 / 10) in
  let hi := pivot_pq p + pivot_pq p * (1 / 10) in
  ToneMapper.ApplyPPR tm x
  = ToneMapper.PPRShadowSegment tm x
    + ToneMapper.SmoothStep lo hi x
      * (ToneMapper.PPRHighlightSegment tm x
         - ToneMapper.PPRShadowSegment tm x).
Proof.
  intros Hp tm lo hi. unfold ToneMapper.ApplyPPR, fge.
  cbn [ToneMapper.params_ tm fmul fadd fsub ratio Ideal.ops].
  fold lo hi.
  destruct (SmoothStep_props lo hi) as (_ & H0 & H1 & _);
    [subst lo hi; lra |].
  cmp_R (fle x lo); [rewrite H0 by assumption; ring |].
  cmp_R (fle hi x); [rewrite H1 by assumption; ring |].
  apply Mix_R.
Qed.

Lemma ApplyPPR_mono (p : CphParams R) (x y : R) :
  0 < pivot_pq p < 1 -> 0 <= gamma_s p -> 0 <= gamma_h p ->
  0 <= shoulder_h p -> x <= y ->
  ToneMapper.ApplyPPR (ToneMapper.mkToneMapper p EmptyString true) x
  <= ToneMapper.ApplyPPR (ToneMapper.mkToneMapper p EmptyString true) y.
Proof.
  intros Hp Hgs Hgh Hh Hxy.
  rewrite !ApplyPPR_R by lra. cbv zeta.
  set (lo := pivot_pq p - pivot_pq p * (1 / 10)).
  set (hi := pivot_pq p + pivot_pq p * (1 / 10)).
  destruct (SmoothStep_props lo hi) as (Hr & _ & _ & Hm);
    [subst lo hi; lra |].
  apply (blend_mono
           (ToneMapper.PPRShadowSegment
              (ToneMapper.mkToneMapper p EmptyString true))
           (ToneMapper.PPRHighlightSegment
              (ToneMapper.mkToneMapper p EmptyString true))
           (ToneMapper.SmoothStep lo hi)).
  - apply PPRShadowSegment_mono; lra.
  - apply PPRHighlightSegment_mono; lra.
  - now apply Hm.
  - apply Hr.
  - apply Hr.
  - pose proof (PPRShadowSegment_range p y (proj1 Hp) Hgs).
    pose proof (PPRHighlightSegment_lower p y (proj2 Hp) Hh). lra.
Qed.

(** ** RLOG: the arithmetic of the splice *)

(** Chords of the smoothstep polynomial on the right half of the window:
    [(s(v) - s(u)) * (u - 1/2) <= (v - u) * s(v) / 3]. *)
Lemma smooth_chord_right (u v : R) :
  1 / 2 <= u -> u <= v -> v <= 1 ->
  (v * v * (3 - 2 * v) - u * u * (3 - 2 * u)) * (u - 1 / 2)
  <= (v - u) * (v * v * (3 - 2 * v)) / 3.
Proof.
  intros Hu Huv Hv.
  set (q := 3 * (u + v) - 2 * (u * u + u * v + v * v)).
  assert (Hq : 0 <= q).
  { replace q with (u * (3 - 2 * u - v) + v * (3 - 2 * v - u))
      by (subst q; ring).
    assert (0 <= u * (3 - 2 * u - v)) by (apply Rmult_le_pos; lra).
    assert (0 <= v * (3 - 2 * v - u)) by (apply Rmult_le_pos; lra). lra. }
  assert (Hr : 0 <= q / 3 + (2 * v + 4 * u - 3) * (u - 1 / 2)).
  { assert (0 <= (2 * v + 4 * u - 3) * (u - 1 / 2))
      by (apply Rmult_le_pos; lra). lra. }
  assert (Hd : 0 <= u * ((4 * u - 3) * (4 * u - 3)) / 3).
  { assert (0 <= u * ((4 * u - 3) * (4 * u - 3)))
      by (apply Rmult_le_pos; [lra | apply Rle_0_sqr]). lra. }
  assert (Hall : 0 <= (v - u)
                      * (u * ((4 * u - 3) * (4 * u - 3)) / 3
                         + (v - u)
                           * (q / 3 + (2 * v + 4 * u - 3) * (u - 1 / 2)))).
  { apply Rmult_le_pos; [lra |].
    assert (0 <= (v - u) * (q / 3 + (2 * v + 4 * u - 3) * (u - 1 / 2)))
      by (apply Rmult_le_pos; lra). lra. }
  replace ((v - u)
           * (u * ((4 * u - 3) * (4 * u - 3)) / 3
              + (v - u) * (q / 3 + (2 * v + 4 * u - 3) * (u - 1 / 2))))
    with ((v - u) * (v * v * (3 - 2 * v)) / 3
          - (v * v * (3 - 2 * v) - u * u * (3 - 2 * u)) * (u - 1 / 2))
    in Hall by (subst q; field).
  lra.
Qed.

(** The mirror image on the left half:
    [(s(v) - s(u)) * (1/2 - v) <= (v - u) * (1 - s(u)) / 3]. *)
Lemma smooth_chord_left (u v : R) :
  0 <= u -> u <= v -> v <= 1 / 2 ->
  (v * v * (3 - 2 * v) - u * u * (3 - 2 * u)) * (1 / 2 - v)
  <= (v - u) * (1 - u * u * (3 - 2 * u)) / 3.
Proof.
  intros Hu Huv Hv.
  pose proof (smooth_chord_right (1 - v) (1 - u)) as H.
  replace ((1 - u) * (1 - u) * (3 - 2 * (1 - u)))
    with (1 - u * u * (3 - 2 * u)) in H by ring.
  replace ((1 - v) * (1 - v) * (3 - 2 * (1 - v)))
    with (1 - v * v * (3 - 2 * v)) in H by ring.
  replace (1 - v - 1 / 2) with (1 / 2 - v) in H by field.
  replace (1 - u - (1 - v)) with (v - u) in H by ring.
  replace (1 - u * u * (3 - 2 * u) - (1 - v * v * (3 - 2 * v)))
    with (v * v * (3 - 2 * v) - u * u * (3 - 2 * u)) in H by ring.
  apply H; lra.
Qed.

(** One step across the splice.  [A] is the growth of the weight, [E]
    how far the incoming curve lies below the outgoing one, [d] the
    growth of the curve that carries weight [w]. *)
Lemma splice_step (A B h E S s d w : R) :
  0 <= A -> 0 <= B -> 0 <= h -> 0 <= w -> 0 <= s ->
  E <= B * (S - s) -> A * B <= h * w / 3 -> S <= 4 * s -> s * h <= d ->
  A * E <= w * d.
Proof.
  intros HA HB Hh Hw Hs HE HAB HS Hd.
  assert (H1 : A * E <= A * (B * (S - s)))
    by (apply Rmult_le_compat_l; assumption).
  assert (H2 : w * (s * h) <= w * d)
    by (apply Rmult_le_compat_l; assumption).
  destruct (Rle_lt_dec S s) as [Hle | Hlt].
  - assert (A * (B * (S - s)) <= 0).
    { assert (0 <= A * B * (s - S))
        by (apply Rmult_le_pos; [apply Rmult_le_pos |]; lra).
      lra. }
    assert (0 <= w * (s * h))
      by (apply Rmult_le_pos; [| apply Rmult_le_pos]; lra).
    lra.
  - assert (H3 : A * B * (S - s) <= h * w / 3 * (S - s))
      by (apply Rmult_le_compat_r; lra).
    assert (H4 : h * w / 3 * (S - s) <= h * w / 3 * (3 * s)).
    { apply Rmult_le_compat_l; [| lra].
      assert (0 <= h * w) by (apply Rmult_le_pos; lra). lra. }
    lra.
Qed.

(** Bounds on the logarithm used for the slopes at the threshold. *)
Lemma ln_tangent (v k : R) : 0 < v -> 0 < k -> ln v <= v / k + ln k - 1.
Proof.
  intros Hv Hk.
  assert (Hq : 0 < v / k) by (apply Rdiv_lt_0_compat; assumption).
  pose proof (ln_le_sub1 (v / k) Hq) as H.
  unfold Rdiv in H at 1. rewrite ln_mult, ln_Rinv in H
    by (auto using Rinv_0_lt_compat).
  lra.
Qed.

Lemma ln_2_le_1 : ln 2 <= 1.
Proof. pose proof (ln_le_sub1 2). lra. Qed.

Lemma ln_4_le_2 : ln 4 <= 2.
Proof.
  replace 4 with (2 * 2) by ring. rewrite ln_mult by lra.
  pose proof ln_2_le_1. lra.
Qed.

(** [(1 + z) * ln (1 + z)] between [z] and [4.56 * z]. *)
Lemma xlnx_lower (z : R) : 0 < z -> z <= (1 + z) * ln (1 + z).
Proof.
  intros Hz. pose proof (ln_ge_sub1_inv (1 + z)) as H.
  assert (H1 : (1 + z) * (1 - / (1 + z)) <= (1 + z) * ln (1 + z))
    by (apply Rmult_le_compat_l; lra).
  replace ((1 + z) * (1 - / (1 + z))) with z in H1 by (field; lra).
  exact H1.
Qed.

Lemma xlnx_upper (z : R) :
  4 / 10 <= z -> z <= 112 / 10 -> (1 + z) * ln (1 + z) <= 456 / 100 * z.
Proof.
  intros Hlo Hhi.
  destruct (Rle_lt_dec z 5) as [H5 | H5].
  - pose proof (ln_tangent (1 + z) 2) as H. pose proof ln_2_le_1.
    assert (H1 : (1 + z) * ln (1 + z) <= (1 + z) * ((1 + z) / 2))
      by (apply Rmult_le_compat_l; lra).
    nra.
  - pose proof (ln_tangent (1 + z) 4) as H. pose proof ln_4_le_2.
    assert (H1 : (1 + z) * ln (1 + z) <= (1 + z) * ((1 + z) / 4 + 1))
      by (apply Rmult_le_compat_l; lra).
    nra.
Qed.

Lemma SmoothStep_inside (e0 e1 x : R) :
  e0 < e1 -> e0 <= x <= e1 ->
  ToneMapper.SmoothStep e0 e1 x
  = (x - e0) / (e1 - e0) * ((x - e0) / (e1 - e0))
    * (3 - 2 * ((x - e0) / (e1 - e0))).
Proof.
  intros H Hx. rewrite SmoothStep_R by assumption. cbv zeta.
  destruct (std_clamp_R ((x - e0) / (e1 - e0)) 0 1) as (_ & E & _);
    [lra |].
  rewrite E; [reflexivity |].
  assert (0 < / (e1 - e0)) by (apply Rinv_0_lt_compat; lra).
  split.
  - apply Rmult_le_pos; lra.
  - apply Rmult_le_reg_r with (e1 - e0); [lra |].
    unfold Rdiv. rewrite Rmult_assoc, Rinv_l by lra. lra.
Qed.



Lemma frac_le_denom (N d1 d2 : R) :
  0 <= N -> 0 < d1 -> d1 <= d2 -> N / d2 <= N / d1.
Proof.
  intros HN Hd1 Hd2. apply Rmult_le_compat_l; [assumption |].
  apply Rinv_le_contravar; assumption.
Qed.

(** Two ranges of monotonicity that share their end point make one. *)
Lemma mono_glue (f : R -> R) (m : R) :
  (forall x y, x <= y -> y <= m -> f x <= f y) ->
  (forall x y, m <= x -> x <= y -> f x <= f y) ->
  forall x y, x <= y -> f x <= f y.
Proof.
  intros Hl Hr x y Hxy.
  destruct (Rle_lt_dec y m) as [Hy | Hy]; [now apply Hl |].
  destruct (Rle_lt_dec m x) as [Hx | Hx]; [now apply Hr |].
  apply Rle_trans with (f m); [apply Hl | apply Hr]; lra.
Qed.

Lemma mono_glue_from (f : R -> R) (l m : R) :
  (forall x y, l <= x -> x <= y -> y <= m -> f x <= f y) ->
  (forall x y, m <= x -> x <= y -> f x <= f y) ->
  l <= m ->
  forall x y, l <= x -> x <= y -> f x <= f y.
Proof.
  intros Hl Hr Hlm x y Hx Hxy.
  destruct (Rle_lt_dec y m) as [Hy | Hy]; [now apply Hl |].
  destruct (Rle_lt_dec m x) as [Hx' | Hx']; [now apply Hr |].
  apply Rle_trans with (f m); [apply Hl | apply Hr]; lra.
Qed.


(** ** RLOG *)

Section RLOG_curve.

Variable p : CphParams R.

Hypothesis Ha : 1 <= rlog_a p <= 16.
Hypothesis Hb : 8 / 10 <= rlog_b p <= 12 / 10.
Hypothesis Hc : 5 / 10 <= rlog_c p <= 3.
Hypothesis Ht : 4 / 10 <= rlog_t p <= 7 / 10.

Local Notation "'tm'" := (ToneMapper.mkToneMapper p EmptyString true).
Local Notation "'a'" := (rlog_a p).
Local Notation "'b'" := (rlog_b p).
Local Notation "'c'" := (rlog_c p).
Local Notation "'t'" := (rlog_t p).
Local Notation "'Dark'" := (ToneMapper.RLOGDarkSegment tm).
Local Notation "'Raw'" := (ToneMapper.RLOGHighlightSegment tm).

Lemma ln_1a_pos : 0 < ln (1 + a).
Proof. rewrite <- ln_1. apply ln_increasing; lra. Qed.

Lemma Dark_R (x : R) :
  Dark x = if Rle_dec x 0 then 0
           else if Rle_dec 1 x then 1
           else ln (1 + a * x) / ln (1 + a).
Proof.
  unfold ToneMapper.RLOGDarkSegment, fge. rewrite one_R.
  cbn [ToneMapper.params_ zero fmul fdiv fadd logf fle Ideal.ops].
  unfold Ideal.Rleb.
  destruct (Rle_dec x 0); [reflexivity |].
  destruct (Rle_dec 1 x); [reflexivity |].
  pose proof ln_1a_pos.
  destruct (Rle_dec (ln (1 + a)) 0); [lra | reflexivity].
Qed.

Lemma Dark_inside (x : R) :
  0 < x -> x < 1 -> Dark x = ln (1 + a * x) / ln (1 + a).
Proof.
  intros H0 H1. rewrite Dark_R.
  destruct (Rle_dec x 0); [lra |]. destruct (Rle_dec 1 x); [lra |].
  reflexivity.
Qed.

Lemma Dark_inside_range (x : R) :
  0 < x -> x < 1 -> 0 <= ln (1 + a * x) / ln (1 + a) <= 1.
Proof.
  intros H0 H1. pose proof ln_1a_pos as HL.
  assert (0 <= ln (1 + a * x)).
  { rewrite <- ln_1. apply ln_le_mono; nra. }
  assert (ln (1 + a * x) <= ln (1 + a)) by (apply ln_le_mono; nra).
  split.
  - apply Rmult_le_pos; [assumption |]. left. now apply Rinv_0_lt_compat.
  - apply Rmult_le_reg_r with (ln (1 + a)); [assumption |].
    unfold Rdiv. rewrite Rmult_assoc, Rinv_l by lra. lra.
Qed.

Lemma Dark_range (x : R) : 0 <= Dark x <= 1.
Proof.
  rewrite Dark_R.
  destruct (Rle_dec x 0); [lra |]. destruct (Rle_dec 1 x); [lra |].
  apply Dark_inside_range; lra.
Qed.

Lemma Dark_mono (x y : R) : x <= y -> Dark x <= Dark y.
Proof.
  intros Hxy. pose proof (Dark_range x) as Hx.
  pose proof (Dark_range y) as Hy. rewrite Dark_R in *.
  rewrite (Dark_R y) in *.
  destruct (Rle_dec x 0); [lra |]. destruct (Rle_dec y 0); [lra |].
  destruct (Rle_dec 1 y); [lra |]. destruct (Rle_dec 1 x); [lra |].
  pose proof ln_1a_pos as HL.
  apply Rmult_le_compat_r; [left; now apply Rinv_0_lt_compat |].
  apply ln_le_mono; nra.
Qed.

(** Chords of the dark segment. *)
Lemma Dark_chord (x y : R) :
  0 < x -> x <= y -> y < 1 ->
  a * (y - x) / ((1 + a * y) * ln (1 + a)) <= Dark y - Dark x
  /\ Dark y - Dark x <= a * (y - x) / ((1 + a * x) * ln (1 + a)).
Proof.
  intros H0 Hxy H1. pose proof ln_1a_pos as HL.
  rewrite !Dark_inside by lra.
  assert (Hx : 0 < 1 + a * x) by nra.
  assert (Hy : 0 < 1 + a * y) by nra.
  pose proof (ln_diff_ge _ _ Hx Hy) as Hlo.
  pose proof (ln_diff_le _ _ Hx Hy) as Hhi.
  replace (ln (1 + a * y) / ln (1 + a) - ln (1 + a * x) / ln (1 + a))
    with ((ln (1 + a * y) - ln (1 + a * x)) * / ln (1 + a))
    by (field; lra).
  replace (a * (y - x) / ((1 + a * y) * ln (1 + a)))
    with ((1 + a * y - (1 + a * x)) / (1 + a * y) * / ln (1 + a))
    by (field; lra).
  replace (a * (y - x) / ((1 + a * x) * ln (1 + a)))
    with ((1 + a * y - (1 + a * x)) / (1 + a * x) * / ln (1 + a))
    by (field; lra).
  assert (0 < / ln (1 + a)) by now apply Rinv_0_lt_compat.
  split; apply Rmult_le_compat_r; lra.
Qed.

Lemma Raw_R (x : R) :
  Raw x = if Rle_dec x 0 then 0
          else if Rle_dec 1 x then b / (1 + c)
          else b * x / (1 + c * x).
Proof.
  unfold ToneMapper.RLOGHighlightSegment, fge. rewrite one_R.
  cbn [ToneMapper.params_ zero fmul fdiv fadd fle Ideal.ops].
  unfold Ideal.Rleb.
  destruct (Rle_dec x 0); [reflexivity |].
  destruct (Rle_dec 1 x); [reflexivity |].
  destruct (Rle_dec (1 + c * x) 0); [nra | reflexivity].
Qed.

Lemma Raw_inside (x : R) : 0 < x -> x < 1 -> Raw x = b * x / (1 + c * x).
Proof.
  intros H0 H1. rewrite Raw_R.
  destruct (Rle_dec x 0); [lra |]. destruct (Rle_dec 1 x); [lra |].
  reflexivity.
Qed.

Lemma Raw_mono (x y : R) : x <= y -> Raw x <= Raw y.
Proof.
  intros Hxy. rewrite !Raw_R.
  assert (Hfrac : forall u v, 0 < u -> u <= v ->
                    b * u / (1 + c * u) <= b * v / (1 + c * v)).
  { intros u v Hu Huv.
    replace (b * u / (1 + c * u)) with (b * (u / (1 + c * u)))
      by (field; nra).
    replace (b * v / (1 + c * v)) with (b * (v / (1 + c * v)))
      by (field; nra).
    apply Rmult_le_compat_l; [lra |]. apply rational_part_mono; lra. }
  assert (Hpos : forall u, 0 < u -> 0 <= b * u / (1 + c * u)).
  { intros u Hu. apply Rmult_le_pos; [nra |].
    left. apply Rinv_0_lt_compat. nra. }
  destruct (Rle_dec x 0).
  - destruct (Rle_dec y 0); [lra |].
    destruct (Rle_dec 1 y).
    + apply Rmult_le_pos; [lra |]. left. apply Rinv_0_lt_compat. lra.
    + apply Hpos. lra.
  - destruct (Rle_dec y 0); [lra |].
    destruct (Rle_dec 1 x).
    + destruct (Rle_dec 1 y); lra.
    + destruct (Rle_dec 1 y).
      * replace (b / (1 + c)) with (b * 1 / (1 + c * 1)) by (field; lra).
        apply Hfrac; lra.
      * apply Hfrac; lra.
Qed.

Lemma Raw_t_pos : 0 < Raw t.
Proof.
  rewrite Raw_inside by lra.
  apply Rdiv_lt_0_compat; nra.
Qed.

Local Notation "'Weight'" :=
  (ToneMapper.SmoothStep (t - 5 / 100) (t + 5 / 100)).
Local Notation "'Scale'" := (Dark t / Raw t).

Lemma ApplyRLOG_R (x : R) :
  ToneMapper.ApplyRLOG tm x = Dark x + Weight x * (Raw x * Scale - Dark x).
Proof.
  unfold ToneMapper.ApplyRLOG, fgt. rewrite one_R.
  cbn [ToneMapper.params_ zero fmul fdiv fadd fsub ratio Ideal.ops].
  pose proof Raw_t_pos as Hr.
  cmp_R (flt 0 (Raw t)); [| lra].
  destruct (SmoothStep_props (t - 5 / 100) (t + 5 / 100))
    as (_ & H0 & H1 & _); [lra |].
  cmp_R (flt x (t - 5 / 100)); [rewrite H0 by lra; ring |].
  cmp_R (flt (t + 5 / 100) x); [rewrite H1 by lra; ring |].
  apply Mix_R.
Qed.

Lemma Hi_t : Raw t * Scale = Dark t.
Proof. pose proof Raw_t_pos. field. lra. Qed.

Lemma Hi_mono (x y : R) : x <= y -> Raw x * Scale <= Raw y * Scale.
Proof.
  intros Hxy. apply Rmult_le_compat_r; [| now apply Raw_mono].
  pose proof Raw_t_pos. pose proof (Dark_range t).
  apply Rmult_le_pos; [lra |]. left. apply Rinv_0_lt_compat. lra.
Qed.

(** Inside (0,1) the scaled highlight branch is [K * x / (1 + c * x)]
    with [K = Dark t * (1 + c * t) / t]. *)
Lemma Hi_inside (x : R) :
  0 < x -> x < 1 ->
  Raw x * Scale = Dark t * (1 + c * t) / t * x / (1 + c * x).
Proof.
  intros H0 H1. rewrite (Raw_inside x), (Raw_inside t) by lra.
  field. repeat split; nra.
Qed.

Lemma Hi_chord (x y : R) :
  0 < x -> x <= y -> y < 1 ->
  Raw y * Scale - Raw x * Scale
  = Dark t * (1 + c * t) / t * (y - x) / ((1 + c * x) * (1 + c * y)).
Proof.
  intros H0 Hxy H1. rewrite (Hi_inside x), (Hi_inside y) by lra.
  field. repeat split; nra.
Qed.

Lemma K_nonneg : 0 <= Dark t * (1 + c * t) / t.
Proof.
  pose proof (Dark_range t).
  apply Rmult_le_pos; [apply Rmult_le_pos; nra |].
  left. apply Rinv_0_lt_compat. lra.
Qed.

(** The slope of the dark segment at the threshold against the slopes of
    the highlight branch at the two ends of the window. *)
Lemma slopes_right :
  a / ((1 + a * t) * ln (1 + a))
  <= 4 * (Dark t * (1 + c * t) / t
          / ((1 + c * (t + 5 / 100)) * (1 + c * (t + 5 / 100)))).
Proof.
  pose proof ln_1a_pos as HL.
  rewrite (Dark_inside t) by lra.
  set (Q := (1 + c * (t + 5 / 100)) * (1 + c * (t + 5 / 100))).
  assert (HQ : 0 < Q) by (subst Q; nra).
  assert (HQ4 : Q <= 4 * (1 + c * t)).
  { assert (Hm : 12 / 10 <= 1 + c * t <= 31 / 10) by nra.
    assert (He : 1 + c * (t + 5 / 100) <= 1 + c * t + 15 / 100) by nra.
    assert (H1 : Q <= (1 + c * t + 15 / 100) * (1 + c * t + 15 / 100)).
    { subst Q. apply Rmult_le_compat; nra. }
    assert (H2 : (1 + c * t - 12 / 10) * (1 + c * t - 31 / 10) <= 0) by nra.
    nra. }
  assert (Hz : 0 < a * t) by nra.
  pose proof (xlnx_lower (a * t) Hz) as Hl.
  set (den := ln (1 + a) * t * Q * (1 + a * t)).
  assert (Hden : 0 < den).
  { subst den. repeat apply Rmult_lt_0_compat; nra. }
  replace (a / ((1 + a * t) * ln (1 + a)))
    with (a * t * Q / den) by (subst den; field; repeat split; nra).
  replace (4 * (ln (1 + a * t) / ln (1 + a) * (1 + c * t) / t / Q))
    with (4 * ((1 + a * t) * ln (1 + a * t)) * (1 + c * t) / den)
    by (subst den; field; repeat split; nra).
  apply Rmult_le_compat_r; [left; now apply Rinv_0_lt_compat |].
  assert (a * t * Q <= a * t * (4 * (1 + c * t)))
    by (apply Rmult_le_compat_l; lra).
  assert (a * t * (1 + c * t)
          <= (1 + a * t) * ln (1 + a * t) * (1 + c * t))
    by (apply Rmult_le_compat_r; nra).
  lra.
Qed.

Lemma slopes_left :
  Dark t * (1 + c * t) / t
  / ((1 + c * (t - 5 / 100)) * (1 + c * (t - 5 / 100)))
  <= 4 * (a / ((1 + a * t) * ln (1 + a))).
Proof.
  pose proof ln_1a_pos as HL.
  rewrite (Dark_inside t) by lra.
  set (Q := (1 + c * (t - 5 / 100)) * (1 + c * (t - 5 / 100))).
  assert (HQ : 0 < Q) by (subst Q; nra).
  assert (HQ4 : 114 / 100 * (1 + c * t) <= Q).
  { assert (H1 : 0 <= (c - 5 / 10) * (t - 4 / 10)) by nra.
    assert (H2 : 0 <= (c - 5 / 10) * (c - 5 / 10)) by apply Rle_0_sqr.
    assert (H3 : 0 <= (t - 4 / 10) * (c * c)) by nra.
    assert (H4 : 0 <= (t - 4 / 10) * (t - 4 / 10) * (c * c)) by nra.
    subst Q. nra. }
  assert (Hz : 4 / 10 <= a * t <= 112 / 10) by nra.
  pose proof (xlnx_upper (a * t) (proj1 Hz) (proj2 Hz)) as Hu.
  set (den := ln (1 + a) * t * Q * (1 + a * t)).
  assert (Hden : 0 < den).
  { subst den. repeat apply Rmult_lt_0_compat; nra. }
  replace (4 * (a / ((1 + a * t) * ln (1 + a))))
    with (4 * (a * t) * Q / den) by (subst den; field; repeat split; nra).
  replace (ln (1 + a * t) / ln (1 + a) * (1 + c * t) / t / Q)
    with ((1 + a * t) * ln (1 + a * t) * (1 + c * t) / den)
    by (subst den; field; repeat split; nra).
  apply Rmult_le_compat_r; [left; now apply Rinv_0_lt_compat |].
  assert ((1 + a * t) * ln (1 + a * t) * (1 + c * t)
          <= 456 / 100 * (a * t) * (1 + c * t))
    by (apply Rmult_le_compat_r; nra).
  assert (4 * (a * t) * (114 / 100 * (1 + c * t)) <= 4 * (a * t) * Q)
    by (apply Rmult_le_compat_l; nra).
  lra.
Qed.

(** Monotonicity across the right half of the splice window. *)
Lemma ApplyRLOG_window_right (x y : R) :
  t <= x -> x <= y -> y <= t + 5 / 100 ->
  ToneMapper.ApplyRLOG tm x <= ToneMapper.ApplyRLOG tm y.
Proof.
  intros Hx Hxy Hy. rewrite !ApplyRLOG_R.
  pose proof ln_1a_pos as HL. pose proof K_nonneg as HK.
  destruct (SmoothStep_props (t - 5 / 100) (t + 5 / 100))
    as (Hw & _ & _ & Hwm); [lra |].
  pose proof (Hw x) as Hwx. pose proof (Hw y) as Hwy.
  pose proof (Hwm x y Hxy) as Hwxy.
  pose proof (Dark_mono x y Hxy) as HD.
  destruct (Dark_chord t x) as [_ HDu]; [lra | lra | lra |].
  pose proof (Hi_chord t x) as Hct. pose proof (Hi_chord x y) as Hcxy.
  rewrite Hi_t in Hct. pose proof slopes_right as HS.
  set (K := Dark t * (1 + c * t) / t) in *. clearbody K.
  set (Q := (1 + c * (t + 5 / 100)) * (1 + c * (t + 5 / 100))).
  assert (HQ : 0 < Q) by (subst Q; nra).
  assert (Hstep :
    (Weight y - Weight x) * (Dark x - Raw x * Scale)
    <= Weight y * (Raw y * Scale - Raw x * Scale)).
  { apply (splice_step _ (x - t) (y - x) _
             (a / ((1 + a * t) * ln (1 + a))) (K / Q)); try lra.
    - apply Rmult_le_pos; [assumption | left; now apply Rinv_0_lt_compat].
    - assert (K * (x - t) / Q <= Raw x * Scale - Dark t).
      { rewrite Hct by lra. apply frac_le_denom;
          [apply Rmult_le_pos; lra | apply Rmult_lt_0_compat; nra |].
        subst Q. apply Rmult_le_compat; nra. }
      replace ((x - t) * (a / ((1 + a * t) * ln (1 + a)) - K / Q))
        with (a * (x - t) / ((1 + a * t) * ln (1 + a)) - K * (x - t) / Q)
        by (field; repeat split; nra).
      lra.
    - rewrite !SmoothStep_inside by lra.
      pose proof (smooth_chord_right
                    ((x - (t - 5 / 100)) / (t + 5 / 100 - (t - 5 / 100)))
                    ((y - (t - 5 / 100)) / (t + 5 / 100 - (t - 5 / 100))))
        as Hp.
      replace (t + 5 / 100 - (t - 5 / 100)) with (1 / 10) in * by field.
      set (u := (x - (t - 5 / 100)) / (1 / 10)) in *.
      set (v := (y - (t - 5 / 100)) / (1 / 10)) in *.
      assert (Hu : x - t = (u - 1 / 2) / 10) by (subst u; field).
      assert (Hv : y - x = (v - u) / 10) by (subst u v; field).
      rewrite Hu, Hv.
      assert (1 / 2 <= u) by (subst u; lra).
      assert (u <= v) by (subst u v; lra).
      assert (v <= 1) by (subst v; lra).
      specialize (Hp ltac:(assumption) ltac:(assumption) ltac:(assumption)).
      lra.
    - exact HS.
    - rewrite Hcxy by lra.
      replace (K / Q * (y - x)) with (K * (y - x) / Q) by (field; lra).
      apply frac_le_denom;
          [apply Rmult_le_pos; lra | apply Rmult_lt_0_compat; nra |].
      subst Q. apply Rmult_le_compat; nra. }
  assert (0 <= (1 - Weight y) * (Dark y - Dark x))
    by (apply Rmult_le_pos; lra).
  lra.
Qed.

(** Monotonicity across the left half of the splice window. *)
Lemma ApplyRLOG_window_left (x y : R) :
  t - 5 / 100 <= x -> x <= y -> y <= t ->
  ToneMapper.ApplyRLOG tm x <= ToneMapper.ApplyRLOG tm y.
Proof.
  intros Hx Hxy Hy. rewrite !ApplyRLOG_R.
  pose proof ln_1a_pos as HL. pose proof K_nonneg as HK.
  destruct (SmoothStep_props (t - 5 / 100) (t + 5 / 100))
    as (Hw & _ & _ & Hwm); [lra |].
  pose proof (Hw x) as Hwx. pose proof (Hw y) as Hwy.
  pose proof (Hwm x y Hxy) as Hwxy.
  pose proof (Hi_mono x y Hxy) as HH.
  destruct (Dark_chord y t) as [HDl _]; [lra | lra | lra |].
  destruct (Dark_chord x y) as [HDxy _]; [lra | lra | lra |].
  pose proof (Hi_chord y t) as Hct. rewrite Hi_t in Hct.
  pose proof slopes_left as HS.
  set (K := Dark t * (1 + c * t) / t) in *. clearbody K.
  set (Q := (1 + c * (t - 5 / 100)) * (1 + c * (t - 5 / 100))).
  assert (HQ : 0 < Q) by (subst Q; nra).
  assert (Hstep :
    (Weight y - Weight x) * (Dark y - Raw y * Scale)
    <= (1 - Weight x) * (Dark y - Dark x)).
  { apply (splice_step _ (t - y) (y - x) _ (K / Q)
             (a / ((1 + a * t) * ln (1 + a)))); try lra.
    - apply Rmult_le_pos; [lra |].
      left. apply Rinv_0_lt_compat, Rmult_lt_0_compat; [nra | assumption].
    - assert (Dark t - Raw y * Scale <= K * (t - y) / Q).
      { rewrite Hct by lra. apply frac_le_denom;
          [apply Rmult_le_pos; lra | apply Rmult_lt_0_compat; nra |].
        subst Q. apply Rmult_le_compat; nra. }
      replace ((t - y) * (K / Q - a / ((1 + a * t) * ln (1 + a))))
        with (K * (t - y) / Q - a * (t - y) / ((1 + a * t) * ln (1 + a)))
        by (field; repeat split; nra).
      lra.
    - rewrite !SmoothStep_inside by lra.
      pose proof (smooth_chord_left
                    ((x - (t - 5 / 100)) / (t + 5 / 100 - (t - 5 / 100)))
                    ((y - (t - 5 / 100)) / (t + 5 / 100 - (t - 5 / 100))))
        as Hp.
      replace (t + 5 / 100 - (t - 5 / 100)) with (1 / 10) in * by field.
      set (u := (x - (t - 5 / 100)) / (1 / 10)) in *.
      set (v := (y - (t - 5 / 100)) / (1 / 10)) in *.
      assert (Hu : t - y = (1 / 2 - v) / 10) by (subst v; field).
      assert (Hv : y - x = (v - u) / 10) by (subst u v; field).
      rewrite Hu, Hv.
      assert (0 <= u) by (subst u; lra).
      assert (u <= v) by (subst u v; lra).
      assert (v <= 1 / 2) by (subst v; lra).
      specialize (Hp ltac:(assumption) ltac:(assumption) ltac:(assumption)).
      lra.
    - exact HS.
    - apply Rle_trans with (a * (y - x) / ((1 + a * y) * ln (1 + a)));
        [| exact HDxy].
      replace (a / ((1 + a * t) * ln (1 + a)) * (y - x))
        with (a * (y - x) / ((1 + a * t) * ln (1 + a)))
        by (field; repeat split; nra).
      apply frac_le_denom;
          [apply Rmult_le_pos; lra | apply Rmult_lt_0_compat; nra |].
      apply Rmult_le_compat_r; nra. }
  assert (0 <= Weight x * (Raw y * Scale - Raw x * Scale))
    by (apply Rmult_le_pos; lra).
  lra.
Qed.

Lemma ApplyRLOG_mono (x y : R) :
  x <= y -> ToneMapper.ApplyRLOG tm x <= ToneMapper.ApplyRLOG tm y.
Proof.
  destruct (SmoothStep_props (t - 5 / 100) (t + 5 / 100))
    as (_ & H0 & H1 & _); [lra |].
  revert x y.
  apply (mono_glue _ (t - 5 / 100)).
  - intros x y Hxy Hy. rewrite !ApplyRLOG_R, !H0 by lra.
    pose proof (Dark_mono x y Hxy). lra.
  - apply (mono_glue_from _ (t - 5 / 100) t); [| | lra].
    + intros x y Hx Hxy Hy. now apply ApplyRLOG_window_left.
    + apply (mono_glue_from _ t (t + 5 / 100)); [| | lra].
      * intros x y Hx Hxy Hy. now apply ApplyRLOG_window_right.
      * intros x y Hx Hxy. rewrite !ApplyRLOG_R, !H1 by lra.
        pose proof (Hi_mono x y Hxy). lra.
Qed.

End RLOG_curve.

(** ** Soft knee, toe clamp and the whole evaluator are non-decreasing *)

Lemma ApplySoftKnee_mono (tm : ToneMapper.ToneMapper R) (x y : R) :
  yknee (ToneMapper.params_ tm) < 1 ->
  0 <= alpha (ToneMapper.params_ tm) ->
  x <= y ->
  ToneMapper.ApplySoftKnee tm x <= ToneMapper.ApplySoftKnee tm y.
Proof.
  intros Hk Ha Hxy.
  pose proof (ApplySoftKnee_above tm x) as Ax.
  pose proof (ApplySoftKnee_above tm y) as Ay.
  cbv zeta in Ax, Ay.
  set (k := yknee (ToneMapper.params_ tm)) in *.
  set (a := alpha (ToneMapper.params_ tm)) in *.
  destruct (Rle_lt_dec y k) as [Hy | Hy].
  - rewrite !ApplySoftKnee_below by (fold k; lra). assumption.
  - rewrite Ay by lra.
    assert (Hdy : 0 < 1 - k + a * (y - k)) by nra.
    destruct (Rle_lt_dec x k) as [Hx | Hx].
    + rewrite ApplySoftKnee_below by (fold k; lra).
      assert (0 <= (y - k) * (1 - k) / (1 - k + a * (y - k))).
      { apply Rmult_le_pos; [nra | left; now apply Rinv_0_lt_compat]. }
      lra.
    + rewrite Ax by lra.
      assert (Hdx : 0 < 1 - k + a * (x - k)) by nra.
      assert (Hd : (y - k) * (1 - k) / (1 - k + a * (y - k))
                   - (x - k) * (1 - k) / (1 - k + a * (x - k))
                   = (1 - k) * (1 - k) * (y - x)
                     / ((1 - k + a * (y - k)) * (1 - k + a * (x - k))))
        by (field; lra).
      assert (0 <= (1 - k) * (1 - k) * (y - x)
                   / ((1 - k + a * (y - k)) * (1 - k + a * (x - k)))).
      { apply Rmult_le_pos; [repeat apply Rmult_le_pos; lra |].
        left. apply Rinv_0_lt_compat. now apply Rmult_lt_0_compat. }
      lra.
Qed.

Lemma ApplyToeClamp_mono (tm : ToneMapper.ToneMapper R) (x y : R) :
  x <= y -> ToneMapper.ApplyToeClamp tm x <= ToneMapper.ApplyToeClamp tm y.
Proof.
  intros Hxy. unfold ToneMapper.ApplyToeClamp. cbn [zero Ideal.ops].
  cmp_R (fle (toe (ToneMapper.params_ tm)) 0); cbn [orb]; [assumption |].
  rewrite !std_max_R.
  pose proof (Rmax_l y (toe (ToneMapper.params_ tm))).
  pose proof (Rmax_r y (toe (ToneMapper.params_ tm))).
  cmp_R (fle x 0); cmp_R (fle y 0); try lra.
  apply Rle_max_compat_r; assumption.
Qed.

Lemma ApplyToneMapping_mono (p : CphParams R) (x y : R) :
  Params.IsValid p = true -> x <= y ->
  ToneMapper.ApplyToneMapping (Scenarios.mapper_of p) x
  <= ToneMapper.ApplyToneMapping (Scenarios.mapper_of p) y.
Proof.
  intros Hv Hxy. rewrite (mapper_of_valid p Hv).
  destruct (IsValid_R p Hv)
    as (Hp & Hgs & Hgh & Hh & Ha & Hb & Hc & Ht & Hk & Hal & _).
  rewrite !ApplyToneMapping_R.
  apply std_clamp_R_mono; [lra |].
  apply ApplyToeClamp_mono.
  apply ApplySoftKnee_mono; cbn [ToneMapper.params_]; try lra.
  assert (Hc01 : std_clamp x 0 1 <= std_clamp y 0 1)
    by (apply std_clamp_R_mono; lra).
  destruct (curve p).
  - apply ApplyPPR_mono; lra.
  - apply ApplyRLOG_mono; assumption.
Qed.

Lemma ApplyToneMapping_nonneg (p : CphParams R) (x : R) :
  Params.IsValid p = true ->
  0 <= ToneMapper.ApplyToneMapping (Scenarios.mapper_of p) x.
Proof.
  intros Hv. rewrite (mapper_of_valid p Hv), ApplyToneMapping_R.
  apply std_clamp_R. lra.
Qed.

(** ** The validator's sample grid *)

Lemma feq_R (x y : R) : feq x y = true <-> x = y.
Proof.
  cbn. unfold Ideal.Reqb. destruct (Req_dec_T x y); split; intros; auto;
    try discriminate; contradiction.
Qed.

Lemma insert_sorted_Forall (P : R -> Prop) (x : R) (l : list R) :
  P x -> Forall P l -> Forall P (ToneMapper.insert_sorted x l).
Proof.
  intros Hx Hl. induction Hl as [| z l Hz Hl IH]; cbn [ToneMapper.insert_sorted].
  - constructor; [assumption | constructor].
  - destruct (flt z x); repeat constructor; assumption.
Qed.

Lemma insert_sorted_sorted (x : R) (l : list R) :
  StronglySorted Rle l -> StronglySorted Rle (ToneMapper.insert_sorted x l).
Proof.
  intros Hl. induction Hl as [| z l Hl IH Hz]; cbn [ToneMapper.insert_sorted].
  - repeat constructor.
  - cmp_R (flt z x).
    + constructor; [assumption |].
      apply insert_sorted_Forall; [lra | assumption].
    + constructor; [now constructor |].
      constructor; [assumption |].
      eapply Forall_impl; [| exact Hz]. cbv beta. intros; lra.
Qed.

Lemma sort_sorted (l : list R) : StronglySorted Rle (ToneMapper.sort l).
Proof.
  unfold ToneMapper.sort.
  induction l as [| x l IH]; cbn [fold_right];
    [constructor | now apply insert_sorted_sorted].
Qed.

Lemma insert_sorted_In (z x : R) (l : list R) :
  In z (x :: l) -> In z (ToneMapper.insert_sorted x l).
Proof.
  induction l as [| w l IH]; cbn [ToneMapper.insert_sorted]; [trivial |].
  destruct (flt w x); [| trivial].
  intros [-> | [-> | Hz]].
  - right. apply IH. now left.
  - now left.
  - right. apply IH. now right.
Qed.

Lemma sort_In (z : R) (l : list R) : In z l -> In z (ToneMapper.sort l).
Proof.
  unfold ToneMapper.sort.
  induction l as [| x l IH]; cbn [fold_right]; [trivial |].
  intros [-> | Hz]; apply insert_sorted_In; [now left | right; auto].
Qed.

Lemma unique_from_Forall (P : R -> Prop) (l : list R) :
  forall x, Forall P (x :: l) -> Forall P (ToneMapper.unique_from x l).
Proof.
  induction l as [| w l IH]; intros x Hx; cbn [ToneMapper.unique_from];
    [assumption |].
  inversion Hx as [| ? ? Px Hwl]; subst.
  inversion Hwl as [| ? ? Pw Hl]; subst.
  destruct (feq x w).
  - apply IH. now constructor.
  - constructor; [assumption |]. now apply IH.
Qed.

Lemma unique_from_sorted (l : list R) :
  forall x, StronglySorted Rle (x :: l) ->
            StronglySorted Rle (ToneMapper.unique_from x l).
Proof.
  induction l as [| w l IH]; intros x Hx; cbn [ToneMapper.unique_from];
    [assumption |].
  inversion Hx as [| ? ? Hwl Hxl]; subst.
  destruct (feq x w).
  - apply IH. inversion Hwl; subst. inversion Hxl; subst.
    now constructor.
  - constructor; [now apply IH |]. now apply unique_from_Forall.
Qed.

Lemma unique_from_In (z : R) (l : list R) :
  forall x, In z (x :: l) -> In z (ToneMapper.unique_from x l).
Proof.
  induction l as [| w l IH]; intros x Hz; cbn [ToneMapper.unique_from];
    [assumption |].
  destruct (feq x w) eqn:E.
  - apply feq_R in E. subst w. apply IH.
    destruct Hz as [-> | [-> | Hz]]; [now left | now left | now right].
  - destruct Hz as [-> | Hz]; [now left | right; now apply IH].
Qed.

Lemma GenerateSamplePoints_sorted
    (tm : ToneMapper.ToneMapper R) (n m : Z) :
  StronglySorted Rle (ToneMapper.GenerateSamplePoints tm n m).
Proof.
  unfold ToneMapper.GenerateSamplePoints, ToneMapper.unique.
  match goal with |- context [ToneMapper.sort ?l] =>
    pose proof (sort_sorted l) as Hs; destruct (ToneMapper.sort l)
  end; [constructor | now apply unique_from_sorted].
Qed.

Lemma GenerateSamplePoints_uniform
    (tm : ToneMapper.ToneMapper R) (n m i : Z) :
  (0 <= i < n)%Z ->
  In (IZR i / IZR (n - 1)) (ToneMapper.GenerateSamplePoints tm n m).
Proof.
  intros Hi. unfold ToneMapper.GenerateSamplePoints, ToneMapper.unique.
  match goal with |- context [ToneMapper.sort ?l] =>
    assert (Hin : In (IZR i / IZR (n - 1)) (ToneMapper.sort l));
    [| destruct (ToneMapper.sort l);
       [assumption | now apply unique_from_In] ]
  end.
  apply sort_In, in_or_app. left.
  apply in_map_iff. exists i. split; [reflexivity |].
  unfold ToneMapper.upto. apply in_map_iff.
  exists (Z.to_nat i). split; [lia |]. apply in_seq. lia.
Qed.

Lemma sorted_neighbours (l : list R) :
  StronglySorted Rle l ->
  forall i x y, nth_error l i = Some x -> nth_error l (S i) = Some y ->
                x <= y.
Proof.
  induction 1 as [| z l Hl IH Hz]; intros i x y Hx Hy.
  - destruct i; discriminate.
  - destruct i as [| i]; cbn in Hx, Hy.
    + injection Hx as <-. rewrite Forall_forall in Hz. apply Hz.
      destruct l; [discriminate |]. injection Hy as <-. now left.
    + eapply IH; eassumption.
Qed.

Lemma monotonic_from_sorted (p : CphParams R) (l : list R) :
  Params.IsValid p = true ->
  StronglySorted Rle l ->
  forall prev,
    (forall x, In x l ->
       prev <= ToneMapper.ApplyToneMapping (Scenarios.mapper_of p) x) ->
    ToneMapper.monotonic_from (Scenarios.mapper_of p) prev l = true.
Proof.
  intros Hv Hl. induction Hl as [| z l Hl IH Hz]; intros prev Hprev;
    cbn [ToneMapper.monotonic_from]; [reflexivity |].
  cmp_R (flt (ToneMapper.ApplyToneMapping (Scenarios.mapper_of p) z) prev).
  - specialize (Hprev z (or_introl eq_refl)). lra.
  - apply IH. intros x Hx. apply ApplyToneMapping_mono; [assumption |].
    rewrite Forall_forall in Hz. now apply Hz.
Qed.

(** The formulas of the curves, in exact arithmetic: for every valid
    bundle the evaluator is non-decreasing on the validator's grid of
    4096 uniform points and 256 problem points, so a validator that did
    not round would return [true].  The binary32 program rounds, and
    its validator rejects some valid bundles: see the binary32
    scenarios of the tone curve. *)
Theorem ValidateMonotonicity_valid (p : CphParams R) :
  Params.IsValid p = true ->
  let tm := Scenarios.mapper_of p in
  let grid := ToneMapper.GenerateSamplePoints tm 4096 256 in
  (forall i : Z, (0 <= i < 4096)%Z -> In (IZR i / 4095) grid)
  /\ (forall (i : nat) (x y : R),
        nth_error grid i = Some x -> nth_error grid (S i) = Some y ->
        x <= y
        /\ ToneMapper.ApplyToneMapping tm x
           <= ToneMapper.ApplyToneMapping tm y)
  /\ ToneMapper.ValidateMonotonicity tm 4096 256 = true.
Proof.
  intros Hv tm grid.
  pose proof (GenerateSamplePoints_sorted tm 4096 256) as Hs.
  fold grid in Hs.
  split; [| split].
  - intros i Hi. apply (GenerateSamplePoints_uniform tm 4096 256 i Hi).
  - intros i x y Hx Hy.
    pose proof (sorted_neighbours grid Hs i x y Hx Hy) as Hxy.
    split; [assumption | now apply ApplyToneMapping_mono].
  - unfold ToneMapper.ValidateMonotonicity.
    replace (ToneMapper.initialized_ tm) with true
      by (subst tm; now rewrite (mapper_of_valid p Hv)).
    cbn [negb]. apply monotonic_from_sorted; [assumption | exact Hs |].
    intros x _. pose proof (ApplyToneMapping_nonneg p x Hv).
    rewrite one_R. cbn [fneg Ideal.ops]. lra.
Qed.


End Exact.

(* ================================================================== *)
(** * Scenarios in exact arithmetic *)

Section Exact_Scenarios.

#[local] Existing Instance Ideal.ops.

Local Open Scope R_scope.




End Exact_Scenarios.

(* ================================================================== *)
(** * Further properties at binary32, for every libm *)

Section Binary32_Coverage.

Context {m : F32.Libm}.

(** ** The parameter bundle: fixed points of the clamp *)

Lemma IsValid_fields (p : CphParams F32.float) :
  Params.IsValid p = true ->
  Params.field_ok (pivot_pq p) (ratio 5 100) (ratio 30 100)
  /\ Params.field_ok (gamma_s p) (ratio 1 1) (ratio 16 10)
  /\ Params.field_ok (gamma_h p) (ratio 8 10) (ratio 14 10)
  /\ Params.field_ok (shoulder_h p) (ratio 5 10) (ratio 3 1)
  /\ Params.field_ok (rlog_a p) (ratio 1 1) (ratio 16 1)
  /\ Params.field_ok (rlog_b p) (ratio 8 10) (ratio 12 10)
  /\ Params.field_ok (rlog_c p) (ratio 5 10) (ratio 3 1)
  /\ Params.field_ok (rlog_t p) (ratio 4 10) (ratio 7 10)
  /\ Params.field_ok (black_lift p) zero (ratio 2 100)
  /\ Params.field_ok (highlight_detail p) zero (ratio 1 1)
  /\ Params.field_ok (sat_base p) zero (ratio 2 1)
  /\ Params.field_ok (sat_hi p) zero (ratio 2 1)
  /\ Params.field_ok (yknee p) (ratio 95 100) (ratio 99 100)
  /\ Params.field_ok (alpha p) (ratio 2 10) (ratio 1 1)
  /\ Params.field_ok (toe p) zero (ratio 1 100).
Proof.
  unfold Params.IsValid, Params.field_ok.
  repeat match goal with
  | |- context [NumericalProtection.IsValid ?v] =>
      destruct (NumericalProtection.IsValid v);
      cbn [negb orb]; rewrite ?orb_true_r;
      [| intros; discriminate]
  end.
  repeat match goal with
  | |- context [Params.out_of_range ?v ?lo ?hi] =>
      destruct (Params.out_of_range v lo hi); [intros; discriminate |]
  end.
  intros _. repeat split.
Qed.

Lemma fields_IsValid (p : CphParams F32.float) :
  Params.field_ok (pivot_pq p) (ratio 5 100) (ratio 30 100) ->
  Params.field_ok (gamma_s p) (ratio 1 1) (ratio 16 10) ->
  Params.field_ok (gamma_h p) (ratio 8 10) (ratio 14 10) ->
  Params.field_ok (shoulder_h p) (ratio 5 10) (ratio 3 1) ->
  Params.field_ok (rlog_a p) (ratio 1 1) (ratio 16 1) ->
  Params.field_ok (rlog_b p) (ratio 8 10) (ratio 12 10) ->
  Params.field_ok (rlog_c p) (ratio 5 10) (ratio 3 1) ->
  Params.field_ok (rlog_t p) (ratio 4 10) (ratio 7 10) ->
  Params.field_ok (black_lift p) zero (ratio 2 100) ->
  Params.field_ok (highlight_detail p) zero (ratio 1 1) ->
  Params.field_ok (sat_base p) zero (ratio 2 1) ->
  Params.field_ok (sat_hi p) zero (ratio 2 1) ->
  Params.field_ok (yknee p) (ratio 95 100) (ratio 99 100) ->
  Params.field_ok (alpha p) (ratio 2 10) (ratio 1 1) ->
  Params.field_ok (toe p) zero (ratio 1 100) ->
  Params.IsValid p = true.
Proof.
  unfold Params.field_ok, Params.IsValid.
  repeat match goal with
  | |- (_ /\ _) -> _ =>
      let H1 := fresh in let H2 := fresh in
      intros [H1 H2]; rewrite ?H1, ?H2
  end.
  reflexivity.
Qed.

Lemma clamp_fix_id (v mid lo hi : F32.float) :
  Params.field_ok v lo hi ->
  std_clamp (NumericalProtection.FixInvalid v mid) lo hi = v.
Proof.
  intros [Hv Hr]. unfold NumericalProtection.FixInvalid. rewrite Hv.
  unfold Params.out_of_range, fgt in Hr.
  apply orb_false_elim in Hr as [H1 H2].
  unfold std_clamp. now rewrite H1, H2.
Qed.

Lemma clamp_fix_idem (v mid lo hi : F32.float) :
  isfinite mid = true -> isfinite lo = true -> isfinite hi = true ->
  fle lo hi = true ->
  std_clamp
    (NumericalProtection.FixInvalid
       (std_clamp (NumericalProtection.FixInvalid v mid) lo hi) mid) lo hi
  = std_clamp (NumericalProtection.FixInvalid v mid) lo hi.
Proof.
  intros Hmid Hlo Hhi Hle. apply clamp_fix_id.
  exact (clamped_field_ok v mid lo hi Hmid Hlo Hhi Hle).
Qed.

Lemma ClampToValidRange_idem (p : CphParams F32.float) :
  Params.ClampToValidRange (Params.ClampToValidRange p)
  = Params.ClampToValidRange p.
Proof.
  unfold Params.ClampToValidRange at 1.
  set (q := Params.ClampToValidRange p).
  unfold Params.ClampToValidRange in q. subst q.
  cbv beta iota zeta delta [curve pivot_pq gamma_s gamma_h shoulder_h
    black_lift highlight_detail sat_base sat_hi dci_compliance
    deterministic rlog_a rlog_b rlog_c rlog_t yknee alpha toe].
  rewrite !clamp_fix_idem by reflexivity. reflexivity.
Qed.

(** X1.  [CphParams::ClampToValidRange] is idempotent, and it returns a
    bundle that [CphParams::IsValid] accepts exactly as it was given:
    clamping never alters a valid bundle. *)
Theorem ClampToValidRange_fixed_points (p : CphParams F32.float) :
  Params.ClampToValidRange (Params.ClampToValidRange p)
  = Params.ClampToValidRange p
  /\ (Params.IsValid p = true -> Params.ClampToValidRange p = p).
Proof.
  split.
  - apply ClampToValidRange_idem.
  - intros Hv.
    destruct (IsValid_fields p Hv)
      as (F1 & F2 & F3 & F4 & F5 & F6 & F7 & F8 & F9 & F10 & F11 & F12
          & F13 & F14 & F15).
    unfold Params.ClampToValidRange.
    rewrite !clamp_fix_id by assumption.
    destruct p; reflexivity.
Qed.

(** ** The error handler: validation of a whole bundle *)

(** [ValidateFloatRange] answers [true] exactly for a field that
    [IsValid] would refuse, and hands a field it accepts back with the
    handler untouched. *)
Lemma ValidateFloatRange_flag (h : ErrorHandling.ErrorHandler F32.float)
    (now : Z) (v lo hi : F32.float) (fld : string) :
  snd (ErrorHandling.ValidateFloatRange h now v lo hi fld)
  = negb (NumericalProtection.IsValid v) || Params.out_of_range v lo hi.
Proof.
  unfold ErrorHandling.ValidateFloatRange, Params.out_of_range.
  destruct (NumericalProtection.IsValid v); cbn [negb orb].
  - destruct (flt v lo || fgt v hi); [| reflexivity].
    destruct (ErrorHandling.HandleError _ _ _ _ _ _ _ _) as [h1 s1].
    destruct (ErrorHandling.CorrectParameter _ _ _ _ _ _) as [h2 r].
    reflexivity.
  - destruct (ErrorHandling.HandleError _ _ _ _ _ _ _ _) as [h1 s1].
    destruct (ErrorHandling.CorrectParameter _ _ _ _ _ _) as [h2 r].
    reflexivity.
Qed.

Lemma ValidateFloatRange_accepts (h : ErrorHandling.ErrorHandler F32.float)
    (now : Z) (v lo hi : F32.float) (fld : string) :
  Params.field_ok v lo hi ->
  ErrorHandling.ValidateFloatRange h now v lo hi fld = (h, v, false).
Proof.
  intros [Hv Hr]. unfold ErrorHandling.ValidateFloatRange.
  rewrite Hv. cbn [negb]. unfold Params.out_of_range in Hr.
  now rewrite Hr.
Qed.

(** X2.  Whatever bundle [ErrorHandler::ValidateAndCorrectParams] is
    given (NaN, infinities, values outside the range table) and whatever
    the handler's state, the bundle it leaves behind is accepted by
    [CphParams::IsValid], with the curve type and the two mode flags as
    they were. *)
Theorem ValidateAndCorrectParams_result_valid
    (h : ErrorHandling.ErrorHandler F32.float) (now : Z)
    (p : CphParams F32.float) :
  let q := snd (fst (ErrorHandling.ValidateAndCorrectParams h now p)) in
  Params.IsValid q = true
  /\ curve q = curve p
  /\ dci_compliance q = dci_compliance p
  /\ deterministic q = deterministic p.
Proof.
  unfold ErrorHandling.ValidateAndCorrectParams.
  repeat match goal with
  | |- context [ErrorHandling.ValidateFloatRange ?h0 ?n ?v ?lo ?hi ?f] =>
      let H := fresh "H" in
      pose proof (ValidateFloatRange_ok h0 n v lo hi f eq_refl eq_refl eq_refl
                    eq_refl eq_refl) as H;
      destruct (ErrorHandling.ValidateFloatRange h0 n v lo hi f)
        as [[? ?] ?];
      cbn [fst snd] in H
  end.
  cbn [fst snd curve dci_compliance deterministic].
  split; [| repeat split].
  apply fields_IsValid; assumption.
Qed.

(** X3.  The flag returned by [ValidateAndCorrectParams] is [true]
    exactly when the bundle was not valid; a valid bundle comes back
    unchanged, with nothing reported and the handler as it was. *)
Theorem ValidateAndCorrectParams_flag
    (h : ErrorHandling.ErrorHandler F32.float) (now : Z)
    (p : CphParams F32.float) :
  snd (ErrorHandling.ValidateAndCorrectParams h now p)
  = negb (Params.IsValid p)
  /\ (Params.IsValid p = true ->
      ErrorHandling.ValidateAndCorrectParams h now p = (h, p, false)).
Proof.
  assert (Hid : Params.IsValid p = true ->
                ErrorHandling.ValidateAndCorrectParams h now p
                = (h, p, false)).
  { intros Hv.
    destruct (IsValid_fields p Hv)
      as (F1 & F2 & F3 & F4 & F5 & F6 & F7 & F8 & F9 & F10 & F11 & F12
          & F13 & F14 & F15).
    unfold ErrorHandling.ValidateAndCorrectParams.
    rewrite !ValidateFloatRange_accepts by assumption.
    destruct p; reflexivity. }
  split; [| exact Hid].
  destruct (Params.IsValid p) eqn:Hv; cbn [negb].
  - now rewrite Hid.
  - destruct (snd (ErrorHandling.ValidateAndCorrectParams h now p)) eqn:E;
      [reflexivity | exfalso].
    revert E. unfold ErrorHandling.ValidateAndCorrectParams.
    repeat match goal with
    | |- context [ErrorHandling.ValidateFloatRange ?h0 ?n ?v ?lo ?hi ?f] =>
        let H := fresh "H" in
        pose proof (ValidateFloatRange_flag h0 n v lo hi f) as H;
        destruct (ErrorHandling.ValidateFloatRange h0 n v lo hi f)
          as [[? ?] ?];
        cbn [fst snd] in H
    end.
    cbn [snd]. intros E.
    repeat match goal with
    | H : (_ || _) = false |- _ => apply orb_false_elim in H as [? ?]
    end.
    subst.
    repeat match goal with
    | H : (negb _ || _) = false |- _ => apply orb_false_elim in H as [? ?]
    | H : negb _ = false |- _ => apply negb_false_iff in H
    end.
    assert (Params.IsValid p = true)
      by (apply fields_IsValid; split; assumption).
    congruence.
Qed.

(** ** The log throttler *)

Lemma code_index_inj (c c' : ErrorCode) :
  ErrorHandling.code_index c = ErrorHandling.code_index c' -> c = c'.
Proof. destruct c, c'; cbn; intros H; congruence. Qed.

Lemma store_same (t : ErrorHandling.throttle_map) (c : ErrorCode)
    (i : ErrorHandling.ThrottleInfo) :
  ErrorHandling.store t c i c = i.
Proof. unfold ErrorHandling.store. now rewrite Z.eqb_refl. Qed.

Lemma store_other (t : ErrorHandling.throttle_map) (c c' : ErrorCode)
    (i : ErrorHandling.ThrottleInfo) :
  c' <> c -> ErrorHandling.store t c i c' = t c'.
Proof.
  intros Hne. unfold ErrorHandling.store.
  destruct (Z.eqb_spec (ErrorHandling.code_index c')
              (ErrorHandling.code_index c)) as [E | E]; [| reflexivity].
  now apply code_index_inj in E.
Qed.

(** One call inside the current window: it is let through while fewer
    than ten have been, and the window does not move. *)
Lemma ShouldLog_in_window (now : Z) (c : ErrorCode)
    (t : ErrorHandling.throttle_map) :
  (now - ErrorHandling.window_start (t c) < 1000)%Z ->
  let r := ErrorHandling.ShouldLog now c t in
  fst r = (ErrorHandling.count (t c) <? 10)%Z
  /\ ErrorHandling.window_start (snd r c)
     = ErrorHandling.window_start (t c)
  /\ ErrorHandling.count (snd r c)
     = (if (ErrorHandling.count (t c) <? 10)%Z
        then ErrorHandling.count (t c) + 1
        else ErrorHandling.count (t c))%Z.
Proof.
  intros Hw. unfold ErrorHandling.ShouldLog, ErrorHandling.UpdateWindow,
    ErrorHandling.WINDOW_DURATION, ErrorHandling.MAX_LOGS_PER_SECOND.
  destruct (Z.leb_spec 1000 (now - ErrorHandling.window_start (t c)));
    [lia |].
  destruct (Z.leb_spec 10 (ErrorHandling.count (t c)));
    destruct (Z.ltb_spec (ErrorHandling.count (t c)) 10); try lia;
    cbn [fst snd]; rewrite store_same; cbn; auto.
Qed.

(** A call that opens a new window is let through and starts the count
    at one. *)
Lemma ShouldLog_new_window (now : Z) (c : ErrorCode)
    (t : ErrorHandling.throttle_map) :
  (1000 <= now - ErrorHandling.window_start (t c))%Z ->
  let r := ErrorHandling.ShouldLog now c t in
  fst r = true
  /\ ErrorHandling.window_start (snd r c) = now
  /\ ErrorHandling.count (snd r c) = 1%Z.
Proof.
  intros Hw. unfold ErrorHandling.ShouldLog, ErrorHandling.UpdateWindow,
    ErrorHandling.WINDOW_DURATION, ErrorHandling.MAX_LOGS_PER_SECOND.
  destruct (Z.leb_spec 1000 (now - ErrorHandling.window_start (t c)));
    [| lia].
  cbn [ErrorHandling.count Z.leb Z.compare fst snd].
  rewrite store_same. cbn. auto.
Qed.

Lemma ShouldLog_frame (now : Z) (c c' : ErrorCode)
    (t : ErrorHandling.throttle_map) :
  c' <> c -> snd (ErrorHandling.ShouldLog now c t) c' = t c'.
Proof.
  intros Hne. unfold ErrorHandling.ShouldLog.
  destruct (_ <=? _)%Z; cbn [snd]; now apply store_other.
Qed.

(** The answers to a run of calls that all fall into the window opened
    at [t0], when [k] reports have been let through in it. *)
Lemma log_calls_in_window (t0 : Z) (c : ErrorCode) (times : list Z) :
  Forall (fun now => (t0 <= now < t0 + 1000)%Z) times ->
  forall (t : ErrorHandling.throttle_map) (k : nat),
    ErrorHandling.window_start (t c) = t0 ->
    ErrorHandling.count (t c) = Z.of_nat k ->
    Scenarios.log_calls times c t
    = map (fun j => Nat.ltb (k + j) 10) (seq 0 (List.length times)).
Proof.
  induction 1 as [| now times Hnow _ IH]; intros t k Hws Hk;
    [reflexivity |].
  cbn [Scenarios.log_calls List.length seq map].
  destruct (ShouldLog_in_window now c t) as (Ha & Hw' & Hc'); [lia |].
  destruct (ErrorHandling.ShouldLog now c t) as [answer t'].
  cbn [fst snd] in Ha, Hw', Hc'.
  rewrite Nat.add_0_r. f_equal.
  - rewrite Ha, Hk.
    destruct (Z.ltb_spec (Z.of_nat k) 10), (Nat.ltb_spec k 10);
      try reflexivity; lia.
  - rewrite <- seq_shift, map_map.
    destruct (Z.ltb_spec (ErrorHandling.count (t c)) 10) as [Hlt | Hge].
    + rewrite (IH t' (S k)) by (rewrite ?Hw', ?Hc'; lia).
      apply map_ext. intros j. f_equal. lia.
    + rewrite (IH t' k) by (rewrite ?Hw', ?Hc'; lia).
      apply map_ext. intros j.
      destruct (Nat.ltb_spec (k + j) 10), (Nat.ltb_spec (k + S j) 10);
        try reflexivity; lia.
Qed.

(** X4.  [LogThrottler::ShouldLog] is a fixed-window limiter: when a
    call at [t0] opens a new window for an error code, that call and the
    next nine calls for the code inside the window (clock readings in
    [[t0, t0 + 1000)] milliseconds) are let through and every later one
    inside the window is refused; the records of all other error codes
    are left as they were. *)
Theorem ShouldLog_ten_per_window (t0 : Z) (c : ErrorCode)
    (times : list Z) (t : ErrorHandling.throttle_map) :
  (1000 <= t0 - ErrorHandling.window_start (t c))%Z ->
  Forall (fun now => (t0 <= now < t0 + 1000)%Z) times ->
  Scenarios.log_calls (t0 :: times) c t
  = map (fun j => Nat.ltb j 10) (seq 0 (S (List.length times)))
  /\ forall c', c' <> c ->
       snd (ErrorHandling.ShouldLog t0 c t) c' = t c'.
Proof.
  intros Hnew Htimes. split; [| intros c'; apply ShouldLog_frame].
  cbn [Scenarios.log_calls seq map].
  destruct (ShouldLog_new_window t0 c t Hnew) as (Ha & Hw & Hc).
  destruct (ErrorHandling.ShouldLog t0 c t) as [answer t'].
  cbn [fst snd] in Ha, Hw, Hc. rewrite Ha. f_equal.
  rewrite (log_calls_in_window t0 c times Htimes t' 1 Hw Hc).
  rewrite <- seq_shift, map_map. reflexivity.
Qed.

(** ** The error handler under a burst of errors *)

(** What a run of [HandleError] calls prints and hands to the callback,
    in terms of the throttler's answers. *)
Lemma handle_calls_effects (c : ErrorCode) (msg : string)
    (times : list Z) :
  forall h : ErrorHandling.ErrorHandler F32.float,
    let h' := Scenarios.handle_calls times c msg h in
    List.length (ErrorHandling.cerr h')
    = (List.length (ErrorHandling.cerr h)
       + List.length
           (filter (fun b => b)
              (Scenarios.log_calls times c (ErrorHandling.throttler_ h))))%nat
    /\ List.length (ErrorHandling.callback_calls h')
       = (List.length (ErrorHandling.callback_calls h)
          + if ErrorHandling.error_callback_ h then List.length times
            else 0)%nat
    /\ (times <> [] ->
        ErrorHandling.code (ErrorHandling.last_error_ h') = c).
Proof.
  induction times as [| now times IH]; intros h.
  - cbn. repeat split; try lia.
    + destruct (ErrorHandling.error_callback_ h); lia.
    + congruence.
  - cbn [Scenarios.handle_calls Scenarios.log_calls].
    specialize (IH (fst (ErrorHandling.HandleError h now c msg EmptyString
                           zero EmptyString EmptyString))).
    revert IH. unfold ErrorHandling.HandleError.
    destruct (ErrorHandling.ShouldLog now c (ErrorHandling.throttler_ h))
      as [answer t'].
    cbn [fst ErrorHandling.cerr ErrorHandling.callback_calls
         ErrorHandling.throttler_ ErrorHandling.error_callback_].
    intros (Hcerr & Hcb & Hlast). cbv zeta. repeat split.
    + rewrite Hcerr. destruct answer; cbn [filter List.length];
        rewrite ?length_app; cbn [List.length]; lia.
    + rewrite Hcb. destruct (ErrorHandling.error_callback_ h);
        rewrite ?length_app; cbn [List.length]; lia.
    + intros _. destruct times as [| now' times'].
      * reflexivity.
      * apply Hlast. congruence.
Qed.

Lemma count_below (k n : nat) :
  List.length
    (filter (fun b : bool => b)
       (map (fun j => Nat.ltb (k + j) 10) (seq 0 n)))
  = Nat.min n (10 - k).
Proof.
  revert k. induction n as [| n IH]; intros k; [reflexivity |].
  cbn [seq map filter]. rewrite Nat.add_0_r, <- seq_shift, map_map.
  rewrite (map_ext _ (fun j => Nat.ltb (S k + j) 10))
    by (intros j; f_equal; lia).
  destruct (Nat.ltb_spec k 10); cbn [List.length]; rewrite IH; lia.
Qed.

(** X5.  A burst of [HandleError] calls for one error code, the first
    opening a new throttle window and the others falling inside it:
    at most ten reports are printed (the first ten), while every call
    still reaches the installed callback and the last error recorded is
    of that code. *)
Theorem HandleError_burst (t0 : Z) (c : ErrorCode) (msg : string)
    (times : list Z) (h : ErrorHandling.ErrorHandler F32.float) :
  (1000 <= t0 - ErrorHandling.window_start (ErrorHandling.throttler_ h c))%Z ->
  Forall (fun now => (t0 <= now < t0 + 1000)%Z) times ->
  let h' := Scenarios.handle_calls (t0 :: times) c msg h in
  List.length (ErrorHandling.cerr h')
  = (List.length (ErrorHandling.cerr h)
     + Nat.min (S (List.length times)) 10)%nat
  /\ (ErrorHandling.error_callback_ h = true ->
      List.length (ErrorHandling.callback_calls h')
      = (List.length (ErrorHandling.callback_calls h)
         + S (List.length times))%nat)
  /\ ErrorHandling.code (ErrorHandling.last_error_ h') = c.
Proof.
  intros Hnew Htimes h'.
  destruct (handle_calls_effects c msg (t0 :: times) h)
    as (Hcerr & Hcb & Hlast).
  fold h' in Hcerr, Hcb, Hlast. repeat split.
  - rewrite Hcerr. f_equal.
    cbn [Scenarios.log_calls].
    destruct (ShouldLog_new_window t0 c (ErrorHandling.throttler_ h) Hnew)
      as (Ha & Hw & Hc).
    destruct (ErrorHandling.ShouldLog t0 c (ErrorHandling.throttler_ h))
      as [answer t'].
    cbn [fst snd] in Ha, Hw, Hc. rewrite Ha.
    rewrite (log_calls_in_window t0 c times Htimes t' 1 Hw Hc).
    cbn [filter List.length]. rewrite count_below. lia.
  - intros Hinst. rewrite Hcb, Hinst. reflexivity.
  - apply Hlast. congruence.
Qed.

(** ** Gamut boxes *)

Lemma fle_flt_false (x y : F32.float) :
  fle x y = true -> flt y x = false.
Proof.
  cbn. unfold SFleb, SFltb. rewrite (SFcompare_antisym x y).
  destruct (SFcompare x y) as [[ | | ] | ]; cbn; congruence.
Qed.

Lemma between_finite (x lo hi : F32.float) :
  isfinite lo = true -> isfinite hi = true ->
  fle lo x = true -> fle x hi = true -> isfinite x = true.
Proof.
  destruct x as [s | [ | ] | | s mx ex]; try reflexivity; intros Hlo Hhi;
    destruct lo as [sl | sl | | sl ml el], hi as [sh | sh | | sh mh eh];
    try discriminate; try (destruct sl); try (destruct sh);
    cbn; intros; discriminate.
Qed.

Lemma IsInGamut_finite (rgb : RGB F32.float) (cs : ColorSpace) :
  ColorSpaceConverter.IsInGamut rgb cs = true ->
  NumericalUtils.IsFiniteRGB rgb = true.
Proof.
  destruct rgb as [[r g] b].
  unfold ColorSpaceConverter.IsInGamut, NumericalUtils.IsFiniteRGB,
    NumericalUtils.IsFinite, fge.
  destruct cs; intros H;
    repeat match type of H with
    | (_ && _) = true => let H' := fresh in apply andb_prop in H as [H H']
    end;
    repeat (apply andb_true_intro; split);
    eapply between_finite; try eassumption; reflexivity.
Qed.

Lemma std_clamp_inside (v lo hi : F32.float) :
  fle lo v = true -> fle v hi = true -> std_clamp v lo hi = v.
Proof.
  intros H1 H2. unfold std_clamp.
  now rewrite (fle_flt_false lo v H1), (fle_flt_false v hi H2).
Qed.

(** X6.  [ColorSpaceConverter::ClampToGamut] leaves every pixel that
    [IsInGamut] accepts exactly as it is, for each colour space; so the
    clamp is idempotent on finite pixels. *)
Theorem ClampToGamut_identity_in_gamut (rgb : RGB F32.float)
    (cs : ColorSpace) :
  (ColorSpaceConverter.IsInGamut rgb cs = true ->
   ColorSpaceConverter.ClampToGamut rgb cs = rgb)
  /\ (NumericalUtils.IsFiniteRGB rgb = true ->
      ColorSpaceConverter.ClampToGamut
        (ColorSpaceConverter.ClampToGamut rgb cs) cs
      = ColorSpaceConverter.ClampToGamut rgb cs).
Proof.
  assert (Hid : forall px : RGB F32.float,
            ColorSpaceConverter.IsInGamut px cs = true ->
            ColorSpaceConverter.ClampToGamut px cs = px).
  { intros [[r g] b].
    unfold ColorSpaceConverter.IsInGamut, ColorSpaceConverter.ClampToGamut,
      fge.
    destruct cs; intros H;
      repeat match type of H with
      | (_ && _) = true => let H' := fresh in apply andb_prop in H as [H H']
      end;
      rewrite !std_clamp_inside by assumption; reflexivity. }
  split; [apply Hid |].
  intros Hfin. apply Hid. now apply ClampToGamut_in_gamut.
Qed.

(** ** The gamut processor on a pixel of the gamut box *)

(** [std::max(lo, v)] for [lo <= v] is [v] as a number (a negative zero
    becomes [lo = +0]). *)
Lemma std_max_inside (lo v : F32.float) :
  isfinite lo = true -> fle lo v = true ->
  feq (std_max lo v) v = true /\ fle lo (std_max lo v) = true
  /\ forall hi, fle lo hi = true -> fle v hi = true ->
       fle (std_max lo v) hi = true.
Proof.
  intros Hlo Hle. unfold std_max.
  destruct (flt lo v) eqn:E.
  - repeat split; auto.
    revert Hle. cbn. unfold SFleb, SFeqb.
    destruct v as [s | s | | s mv ev];
      destruct lo as [sl | sl | | sl ml el]; try discriminate;
      try (destruct s); try (destruct sl); cbn; try reflexivity;
      try discriminate; intros _;
      rewrite Z.compare_refl, Pos.compare_refl; reflexivity.
  - repeat split; auto.
    + revert Hle E. cbn. unfold SFleb, SFltb, SFeqb.
      destruct (SFcompare lo v) as [[ | | ] | ]; congruence.
    + apply (finite_refl lo Hlo).
Qed.

(** X26.  Without DCI compliance, [ApplyGamutProcessing] passes a pixel
    of the gamut box through: the flag is [false], the result is in
    the box, and every channel compares equal ([==]) to the source
    channel (a negative zero may come back as +0), for each colour
    space and whatever the libm returns. *)
Theorem ApplyGamutProcessing_passes_in_gamut (r g b : F32.float)
    (cs : ColorSpace) :
  ColorSpaceConverter.IsInGamut (r, g, b) cs = true ->
  let out := ColorSpaceConverter.ApplyGamutProcessing (r, g, b) cs false in
  snd out = false
  /\ ColorSpaceConverter.IsInGamut (fst out) cs = true
  /\ feq (fst (fst (fst out))) r = true
  /\ feq (snd (fst (fst out))) g = true
  /\ feq (snd (fst out)) b = true.
Proof.
  intros Hin out. subst out.
  pose proof (IsInGamut_finite (r, g, b) cs Hin) as Hfin.
  unfold ColorSpaceConverter.ApplyGamutProcessing.
  rewrite Hfin, Hin. cbn [negb orb].
  assert (Hlin : exists r' g' b',
    ColorSpaceConverter.LinearGamutCompression (r, g, b) cs = (r', g', b')
    /\ ColorSpaceConverter.IsInGamut (r', g', b') cs = true
    /\ feq r' r = true /\ feq g' g = true /\ feq b' b = true).
  { unfold ColorSpaceConverter.LinearGamutCompression.
    rewrite Hfin. cbn [negb].
    revert Hin. unfold ColorSpaceConverter.IsInGamut, fge.
    destruct cs; intros H;
      repeat match type of H with
      | (_ && _) = true => let H' := fresh in apply andb_prop in H as [H H']
      end;
      match goal with
      | |- context [fgt (std_max3 r g b) ?top] =>
          assert (Hmax : fgt (std_max3 r g b) top = false)
            by (unfold fgt, std_max3, std_max;
                destruct (flt r g); destruct (flt _ b);
                apply fle_flt_false; assumption);
          rewrite Hmax
      end;
      match goal with
      | |- context [std_max ?lo r] =>
          destruct (std_max_inside lo r eq_refl) as (Er & Lr & Ur);
            [assumption |];
          destruct (std_max_inside lo g eq_refl) as (Eg & Lg & Ug);
            [assumption |];
          destruct (std_max_inside lo b eq_refl) as (Eb & Lb & Ub);
            [assumption |];
          exists (std_max lo r), (std_max lo g), (std_max lo b)
      end;
      (split; [reflexivity |]);
      (split; [| auto]);
      rewrite Lr, Lg, Lb, Ur, Ug, Ub by (assumption || reflexivity);
      reflexivity. }
  destruct Hlin as (r' & g' & b' & -> & Hin' & Er & Eg & Eb).
  rewrite Hin'. cbn [negb].
  rewrite (IsInGamut_finite _ cs Hin'). cbn [negb fst snd].
  assert (Hid : ColorSpaceConverter.ClampToGamut (r', g', b') cs
                = (r', g', b')).
  { revert Hin'.
    unfold ColorSpaceConverter.IsInGamut, ColorSpaceConverter.ClampToGamut,
      fge.
    destruct cs; intros H;
      repeat match type of H with
      | (_ && _) = true => let H' := fresh in apply andb_prop in H as [H H']
      end;
      rewrite !std_clamp_inside by assumption; reflexivity. }
  rewrite Hid. cbn [fst snd]. auto.
Qed.


(** ** The working-domain converters *)

Lemma black_finite : NumericalUtils.IsFiniteRGB (black : RGB F32.float) = true.
Proof. reflexivity. Qed.

Lemma SaturateRGB_ClampToGamut (rgb : RGB F32.float) :
  NumericalUtils.SaturateRGB rgb
  = ColorSpaceConverter.ClampToGamut rgb BT2020_PQ.
Proof. destruct rgb as [[r g] b]. reflexivity. Qed.

Lemma ToWorkingDomain_pixel_in_gamut (cs : ColorSpace)
    (src : RGB F32.float) :
  ColorSpaceConverter.IsInGamut
    (ColorSpaceConverter.ToWorkingDomain_pixel cs src) BT2020_PQ = true.
Proof.
  unfold ColorSpaceConverter.ToWorkingDomain_pixel.
  destruct (NumericalUtils.IsFiniteRGB src); cbn [negb];
    [| apply IsInGamut_black].
  match goal with
  | |- context [NumericalUtils.IsFiniteRGB ?d] =>
      destruct (NumericalUtils.IsFiniteRGB d) eqn:E
  end; cbn [negb]; [| apply IsInGamut_black].
  rewrite SaturateRGB_ClampToGamut. now apply ClampToGamut_in_gamut.
Qed.

Lemma FromWorkingDomain_pixel_in_gamut (target_cs : ColorSpace)
    (src : RGB F32.float) :
  ColorSpaceConverter.IsInGamut
    (ColorSpaceConverter.FromWorkingDomain_pixel target_cs src) target_cs
  = true.
Proof.
  unfold ColorSpaceConverter.FromWorkingDomain_pixel.
  destruct (NumericalUtils.IsFiniteRGB src); cbn [negb];
    [| apply IsInGamut_black].
  match goal with
  | |- context [NumericalUtils.IsFiniteRGB ?d] =>
      destruct (NumericalUtils.IsFiniteRGB d) eqn:E
  end; cbn [negb]; [| apply IsInGamut_black].
  now apply ClampToGamut_in_gamut.
Qed.

(** X7.  Whatever the source pixel holds (NaN and infinities included)
    and whatever the libm functions return, the pixel written by
    [ToWorkingDomain] is finite with every channel in [[0,1]], and the
    pixel written by [FromWorkingDomain] is finite and inside the gamut
    box of the target colour space. *)
Theorem working_domain_pixels_in_gamut (cs : ColorSpace)
    (src : RGB F32.float) :
  let to_px := ColorSpaceConverter.ToWorkingDomain_pixel cs src in
  let from_px := ColorSpaceConverter.FromWorkingDomain_pixel cs src in
  NumericalUtils.IsFiniteRGB to_px = true
  /\ ColorSpaceConverter.IsInGamut to_px BT2020_PQ = true
  /\ NumericalUtils.IsFiniteRGB from_px = true
  /\ ColorSpaceConverter.IsInGamut from_px cs = true.
Proof.
  intros to_px from_px.
  pose proof (ToWorkingDomain_pixel_in_gamut cs src) as Hto.
  pose proof (FromWorkingDomain_pixel_in_gamut cs src) as Hfrom.
  fold to_px in Hto. fold from_px in Hfrom.
  repeat split; try assumption; eapply IsInGamut_finite; eassumption.
Qed.

(** ** The saturation stage *)

Lemma ApplySaturation_finite (rgb : RGB F32.float)
    (sb sh pv x : F32.float) :
  NumericalUtils.IsFiniteRGB rgb = true ->
  NumericalUtils.IsFiniteRGB
    (ColorSpaceConverter.ApplySaturation rgb sb sh pv x) = true.
Proof.
  intros Hfin. unfold ColorSpaceConverter.ApplySaturation.
  rewrite Hfin. cbn [negb orb].
  destruct (negb (NumericalUtils.IsFinite sb) || _ || _ || _);
    [assumption |].
  match goal with
  | |- context [if negb (NumericalUtils.IsFiniteRGB ?d) then _ else _] =>
      destruct (NumericalUtils.IsFiniteRGB d) eqn:E
  end; cbn [negb]; [assumption | reflexivity].
Qed.

(** X8.  The pixel written by the loop of
    [CphProcessor::ApplySaturationProcessing] is always finite with
    every channel in [[0,1]]: for a NaN or infinite source pixel, for
    non-finite saturation parameters, and whatever the OKLab round trip
    and the libm functions return. *)
Theorem ApplySaturationProcessing_pixel_in_unit_cube
    (params : CphParams F32.float) (pixel : RGB F32.float) :
  let out :=
    ColorSpaceConverter.ApplySaturationProcessing_pixel params pixel in
  NumericalUtils.IsFiniteRGB out = true
  /\ ColorSpaceConverter.IsInGamut out BT2020_PQ = true.
Proof.
  intros out.
  assert (Hin : ColorSpaceConverter.IsInGamut out BT2020_PQ = true).
  { subst out. unfold ColorSpaceConverter.ApplySaturationProcessing_pixel.
    destruct (NumericalUtils.IsFiniteRGB pixel) eqn:Hfin; cbn [negb];
      [| apply IsInGamut_black].
    assert (Hq : NumericalUtils.IsFiniteRGB
                   (ColorSpaceConverter.SaturationStage params pixel)
                 = true).
    { unfold ColorSpaceConverter.SaturationStage.
      destruct pixel as [[r g] b]. now apply ApplySaturation_finite. }
    unfold ColorSpaceConverter.ApplyGamutProcessing. rewrite Hq.
    cbn [negb].
    match goal with
    | |- context [if negb (NumericalUtils.IsFiniteRGB ?d) then _ else _] =>
        destruct (NumericalUtils.IsFiniteRGB d) eqn:E
    end; cbn [negb]; rewrite SaturateRGB_ClampToGamut.
    - apply ClampToGamut_in_gamut.
      apply (IsInGamut_finite _ BT2020_PQ).
      now apply ClampToGamut_in_gamut.
    - apply ClampToGamut_in_gamut, black_finite. }
  split; [eapply IsInGamut_finite; eassumption | assumption].
Qed.

(** ** Images written by the pixel loops *)

Lemma tabulate_length {A : Type} (w h ch : Z) (f : Z -> Z -> Z -> A) :
  List.length (Img.tabulate w h ch f) = Z.to_nat (w * h * ch).
Proof. unfold Img.tabulate. now rewrite length_map, length_seq. Qed.

Lemma tabulate_forall {A : Type} (P : A -> Prop) (w h ch : Z)
    (f : Z -> Z -> Z -> A) :
  (0 < w)%Z -> (0 < h)%Z -> (0 < ch)%Z ->
  (forall x y c, (0 <= x < w)%Z -> (0 <= y < h)%Z -> (0 <= c < ch)%Z ->
                 P (f x y c)) ->
  forall v, In v (Img.tabulate w h ch f) -> P v.
Proof.
  intros Hw Hh Hch Hf v Hin. unfold Img.tabulate in Hin.
  apply in_map_iff in Hin as (n & <- & Hn). apply in_seq in Hn.
  cbv zeta.
  assert (Hi : (0 <= Z.of_nat n < w * h * ch)%Z) by lia.
  apply Hf.
  - apply Z.mod_pos_bound; lia.
  - split; [apply Z.div_pos; nia |].
    apply Z.div_lt_upper_bound; nia.
  - apply Z.mod_pos_bound; lia.
Qed.

Lemma tabulate_image_valid (w h ch : Z)
    (f : Z -> Z -> Z -> F32.float) (cs : ColorSpace) :
  (0 < w)%Z -> (0 < h)%Z -> (0 < ch)%Z ->
  (forall x y c, (0 <= x < w)%Z -> (0 <= y < h)%Z -> (0 <= c < ch)%Z ->
                 isfinite (f x y c) = true) ->
  Image_IsValid (Img.mkImage w h ch (Img.tabulate w h ch f) cs) = true.
Proof.
  intros Hw Hh Hch Hf. unfold Image_IsValid.
  cbn [Img.width Img.height Img.channels Img.data].
  destruct (Z.leb_spec w 0); [lia |].
  destruct (Z.leb_spec h 0); [lia |].
  destruct (Z.leb_spec ch 0); [lia |].
  cbn [orb]. rewrite tabulate_length, Z2Nat.id by nia.
  rewrite Z.eqb_refl. cbn [negb].
  apply forallb_forall. now apply tabulate_forall.
Qed.

Lemma Image_IsValid_dims (img : Img.Image F32.float) :
  Image_IsValid img = true ->
  (0 < Img.width img)%Z /\ (0 < Img.height img)%Z
  /\ (0 < Img.channels img)%Z.
Proof.
  unfold Image_IsValid.
  destruct (Z.leb_spec (Img.width img) 0); [discriminate |].
  destruct (Z.leb_spec (Img.height img) 0); [discriminate |].
  destruct (Z.leb_spec (Img.channels img) 0); [discriminate |].
  intros _. lia.
Qed.

Lemma chan_finite (px : RGB F32.float) (c : Z) :
  NumericalUtils.IsFiniteRGB px = true ->
  isfinite (ColorSpaceConverter.chan px c) = true.
Proof.
  destruct px as [[r g] b].
  unfold NumericalUtils.IsFiniteRGB, NumericalUtils.IsFinite.
  intros H. apply andb_prop in H as [H Hb]. apply andb_prop in H as [Hr Hg].
  unfold ColorSpaceConverter.chan.
  destruct (c =? 0)%Z; [assumption |].
  destruct (c =? 1)%Z; [assumption |].
  destruct (c =? 2)%Z; [assumption | reflexivity].
Qed.

Lemma pixel_at_tabulate (w h ch : Z) (cs : ColorSpace)
    (g : Z -> Z -> RGB F32.float) (x y : Z) :
  (0 <= x < w)%Z -> (0 <= y < h)%Z -> (3 <= ch)%Z ->
  ColorSpaceConverter.pixel_at
    (Img.mkImage w h ch
       (Img.tabulate w h ch
          (fun x y c => ColorSpaceConverter.chan (g x y) c)) cs) x y
  = g x y.
Proof.
  intros Hx Hy Hch. unfold ColorSpaceConverter.pixel_at.
  rewrite !at_xy_tabulate by lia.
  destruct (g x y) as [[r gg] b]. reflexivity.
Qed.

Lemma HighlightDetail_ProcessFrame_size
    (hp : HighlightDetailProcessor.HighlightDetailProcessor F32.float)
    (input output0 : Img.Image F32.float) (pv : F32.float) :
  let r := HighlightDetailProcessor.ProcessFrame hp input output0 pv in
  snd r = true -> Shapes.same_size (snd (fst r)) input.
Proof.
  unfold HighlightDetailProcessor.ProcessFrame.
  destruct (negb (HighlightDetailProcessor.initialized_ hp));
    [cbn; discriminate |].
  destruct (negb (Image_IsValid input)); [cbn; discriminate |].
  destruct (fle _ _); cbn; intros _; repeat split.
Qed.

(** X9.  For an initialised processor and a valid input frame with at
    least three channels, [CphProcessor::ProcessFrame] succeeds and its
    output has the size and colour space of the input, holds no NaN or
    infinity ([Image::IsValid] accepts it), and has every pixel inside
    the gamut box of that colour space, whatever the parameters, the
    tone curve and the libm functions computed on the way. *)
Theorem ProcessFrame_output_valid (s : CphProcessor.Impl F32.float)
    (input output0 : Img.Image F32.float) :
  CphProcessor.initialized s = true ->
  Image_IsValid input = true ->
  (3 <= Img.channels input)%Z ->
  let r := CphProcessor.ProcessFrame s input output0 in
  let out := snd (fst r) in
  snd r = true
  /\ Shapes.same_size out input
  /\ Img.color_space out = Img.color_space input
  /\ Image_IsValid out = true
  /\ forall x y, (0 <= x < Img.width input)%Z ->
                 (0 <= y < Img.height input)%Z ->
       ColorSpaceConverter.IsInGamut
         (ColorSpaceConverter.pixel_at out x y) (Img.color_space input)
       = true.
Proof.
  intros Hinit Hvalid Hch r out. subst out r.
  destruct (Image_IsValid_dims input Hvalid) as (Hw & Hh & _).
  unfold CphProcessor.ProcessFrame. rewrite Hinit, Hvalid. cbn [negb].
  unfold CphProcessor.ProcessFrameInternal.
  set (w1 := CphProcessor.ApplyToneMappingToImage s
               (ColorSpaceConverter.ToWorkingDomain input)).
  assert (Hw1 : Shapes.same_size w1 input) by (repeat split).
  match goal with
  | |- context [let '(s0, wi) := ?e in _] =>
      assert (Hsz : Shapes.same_size (snd e) input); [| destruct e as [s2 w2]]
  end.
  { destruct (fgt _ _); [| exact Hw1].
    pose proof (HighlightDetail_ProcessFrame_size
                  (CphProcessor.highlight_processor s) w1
                  (Img.new_image zero 0 0 3)
                  (pivot_pq (CphProcessor.current_params s))) as Hhp.
    destruct (HighlightDetailProcessor.ProcessFrame _ _ _ _)
      as [[hp de] ok].
    cbn [fst snd] in Hhp. destruct ok; cbn [negb snd].
    - destruct (Hhp eq_refl) as (A & B & C).
      destruct Hw1 as (A' & B' & C'). repeat split; congruence.
    - exact Hw1. }
  cbn [snd] in Hsz. destruct Hsz as (Sw & Sh & Sc).
  cbn [fst snd]. unfold ColorSpaceConverter.FromWorkingDomain.
  unfold CphProcessor.ApplySaturationProcessing, CphProcessor.map_pixels.
  cbn [Img.width Img.height Img.channels Img.color_space].
  rewrite Sw, Sh, Sc.
  split; [reflexivity |]. split; [repeat split |].
  split; [reflexivity |]. split.
  - apply tabulate_image_valid; try lia.
    intros x y c _ _ _. apply chan_finite.
    apply (IsInGamut_finite _ (Img.color_space input)).
    apply FromWorkingDomain_pixel_in_gamut.
  - intros x y Hx Hy.
    rewrite (pixel_at_tabulate _ _ _ _
               (fun x y =>
                  ColorSpaceConverter.FromWorkingDomain_pixel
                    (Img.color_space input) _)) by lia.
    apply FromWorkingDomain_pixel_in_gamut.
Qed.

(** ** Guarded arithmetic *)

(** X10.  The guarded operations of [NumericalUtils] never return NaN
    or an infinity, whatever their arguments and whatever the libm
    functions return: [SafePow] and [SafeLog] always return a finite
    number, and [SafeDivide] returns a finite number or its fallback. *)
Theorem NumericalUtils_safe_operations_finite (x y fb : F32.float) :
  isfinite (NumericalUtils.SafePow x y) = true
  /\ isfinite (NumericalUtils.SafeLog x) = true
  /\ (isfinite (NumericalUtils.SafeDivide x y fb) = true
      \/ NumericalUtils.SafeDivide x y fb = fb).
Proof.
  unfold NumericalUtils.SafePow, NumericalUtils.SafeLog,
    NumericalUtils.SafeDivide, NumericalUtils.IsFinite.
  repeat split.
  - destruct (fle x zero); [reflexivity |].
    destruct (negb (isfinite x) || negb (isfinite y)); [reflexivity |].
    destruct (isfinite (powf x y)) eqn:E; [exact E | reflexivity].
  - destruct (fle x zero); [reflexivity |].
    destruct (negb (isfinite x)); [reflexivity |].
    destruct (isfinite (logf x)) eqn:E; [exact E | reflexivity].
  - destruct (flt (fabs y) (ratio 1 100000000)); [now right |].
    destruct (negb (isfinite x) || negb (isfinite y)); [now right |].
    destruct (isfinite (fdiv x y)) eqn:E; [now left | now right].
Qed.

(** X11.  [NumericalProtection::Saturate] maps every float, NaN and
    the infinities included, to a finite number in [[0,1]], and it
    leaves a number already in [[0,1]] as it is; [SafeDivide] and
    [SafeLog] return a finite number whenever their fallback is
    finite. *)
Theorem NumericalProtection_saturate_and_safe (x y fb : F32.float) :
  (isfinite (NumericalProtection.Saturate x) = true
   /\ fle zero (NumericalProtection.Saturate x) = true
   /\ fle (NumericalProtection.Saturate x) one = true)
  /\ (fle zero x = true -> fle x one = true ->
      NumericalProtection.Saturate x = x)
  /\ (isfinite fb = true ->
      isfinite (NumericalProtection.SafeDivide x y fb) = true
      /\ isfinite (NumericalProtection.SafeLog x fb) = true).
Proof.
  split; [| split].
  - unfold NumericalProtection.Saturate. rewrite IsValid_isfinite.
    destruct (isfinite x) eqn:Hx; cbn [negb]; [| repeat split].
    destruct (std_clamp_in_range x zero one Hx)
      as (H1 & H2 & H3 & _); try reflexivity.
    auto.
  - intros H0 H1. unfold NumericalProtection.Saturate.
    assert (Hx : isfinite x = true)
      by (apply (between_finite x zero one); auto).
    rewrite IsValid_isfinite, Hx.
    cbn [negb]. now apply std_clamp_inside.
  - intros Hfb.
    unfold NumericalProtection.SafeDivide, NumericalProtection.SafeLog.
    rewrite !IsValid_isfinite. split.
    + destruct (negb (isfinite x) || negb (isfinite y) || _);
        [assumption |].
      destruct (isfinite (fdiv x y)) eqn:E; [exact E | assumption].
    + destruct (negb (isfinite x) || fle x zero); [assumption |].
      destruct (isfinite (logf x)) eqn:E; [exact E | assumption].
Qed.

(** ** The two validators of a bundle *)

Lemma field_ok_IsInRange (v lo hi : F32.float) :
  isfinite lo = true -> isfinite hi = true ->
  Params.field_ok v lo hi -> CphProcessor.IsInRange v lo hi = true.
Proof.
  intros Hlo Hhi [Hv Hr]. rewrite IsValid_isfinite in Hv.
  unfold Params.out_of_range, fgt in Hr.
  apply orb_false_elim in Hr as [H1 H2].
  unfold CphProcessor.IsInRange, fge.
  rewrite (flt_false_fle v lo), (flt_false_fle hi v);
    auto using isfinite_not_nan.
Qed.

Lemma ValidateRange_accepts (v lo hi : F32.float) (name : string)
    (errors : list (ErrorHandling.ErrorReport F32.float)) :
  isfinite lo = true -> isfinite hi = true ->
  Params.field_ok v lo hi ->
  CphProcessor.ValidateRange v lo hi name errors = (true, errors).
Proof.
  intros Hlo Hhi Hok. unfold CphProcessor.ValidateRange.
  now rewrite (field_ok_IsInRange v lo hi Hlo Hhi Hok).
Qed.

(** X12.  Every bundle that [CphParams::IsValid] accepts is accepted
    by [ParamValidator::ValidateCphParams], for either curve type, with
    no error report added, and so by [CphProcessor::ValidateParams]. *)
Theorem ValidateCphParams_accepts_valid (p : CphParams F32.float)
    (errors : list (ErrorHandling.ErrorReport F32.float)) :
  Params.IsValid p = true ->
  CphProcessor.ValidateCphParams p errors = (true, errors)
  /\ CphProcessor.ValidateParams p = true.
Proof.
  intros Hv.
  destruct (IsValid_fields p Hv)
    as (F1 & F2 & F3 & F4 & F5 & F6 & F7 & F8 & F9 & F10 & F11 & F12
        & F13 & F14 & F15).
  assert (H : forall es,
            CphProcessor.ValidateCphParams p es = (true, es)).
  { intros es.
    unfold CphProcessor.ValidateCphParams, CphProcessor.ValidateCommonParams,
      CphProcessor.ValidatePPRParams, CphProcessor.ValidateRLOGParams.
    rewrite !ValidateRange_accepts by (reflexivity || assumption).
    destruct (curve p);
      rewrite ?ValidateRange_accepts by (reflexivity || assumption);
      reflexivity. }
  split; [apply H |].
  unfold CphProcessor.ValidateParams. now rewrite H.
Qed.

(** ** Initialisation of the processor *)

Lemma ClampToValidRange_valid (p : CphParams F32.float) :
  Params.IsValid (Params.ClampToValidRange p) = true.
Proof.
  apply fields_IsValid; unfold Params.ClampToValidRange;
    cbv beta iota zeta delta [pivot_pq gamma_s gamma_h shoulder_h black_lift
      highlight_detail sat_base sat_hi rlog_a rlog_b rlog_c rlog_t yknee
      alpha toe];
    apply clamped_field_ok; reflexivity.
Qed.

(** A range check adds one report exactly when it fails. *)
Lemma ValidateRange_reports (v lo hi : F32.float) (name : string)
    (errors : list (ErrorHandling.ErrorReport F32.float)) :
  let r := CphProcessor.ValidateRange v lo hi name errors in
  (List.length errors <= List.length (snd r))%nat
  /\ (fst r = false -> (List.length errors < List.length (snd r))%nat).
Proof.
  unfold CphProcessor.ValidateRange.
  destruct (CphProcessor.IsInRange v lo hi); cbn [negb fst snd];
    rewrite ?length_app; cbn [List.length]; split; intros;
    try discriminate; lia.
Qed.

Ltac step_ValidateRange :=
  match goal with
  | |- context [CphProcessor.ValidateRange ?v ?lo ?hi ?n ?es] =>
      let H := fresh "H" in
      let H' := fresh "H" in
      let b := fresh "b" in
      let es' := fresh "es" in
      pose proof (ValidateRange_reports v lo hi n es) as [H H'];
      destruct (CphProcessor.ValidateRange v lo hi n es) as [b es'];
      cbn [fst snd] in H, H'
  end.

Ltac failed_check :=
  repeat match goal with
  | E : (_ && _) = false |- _ => apply andb_false_iff in E as [E | E]
  end;
  match goal with
  | E : ?b = false, H : ?b = false -> _ |- _ => specialize (H E)
  end; lia.

Lemma ValidateCphParams_reports (p : CphParams F32.float)
    (errors : list (ErrorHandling.ErrorReport F32.float)) :
  let r := CphProcessor.ValidateCphParams p errors in
  fst r = false -> (List.length errors < List.length (snd r))%nat.
Proof.
  unfold CphProcessor.ValidateCphParams, CphProcessor.ValidateCommonParams,
    CphProcessor.ValidatePPRParams, CphProcessor.ValidateRLOGParams.
  repeat step_ValidateRange.
  destruct (curve p); repeat step_ValidateRange; cbn [fst snd];
    intros E; failed_check.
Qed.

Lemma fold_LogError_history (es : list (ErrorHandling.ErrorReport F32.float)) :
  forall s : CphProcessor.Impl F32.float,
    let s' :=
      fold_left
        (fun s e =>
           CphProcessor.LogError s (ErrorHandling.code e)
             (ErrorHandling.message e) (ErrorHandling.field_name e)
             (ErrorHandling.invalid_value e)) es s in
    List.length (CphProcessor.error_history s')
    = (List.length (CphProcessor.error_history s) + List.length es)%nat
    /\ CphProcessor.initialized s' = CphProcessor.initialized s
    /\ CphProcessor.current_params s' = CphProcessor.current_params s.
Proof.
  induction es as [| e es IH]; intros s; cbn [fold_left].
  - cbn. repeat split; lia.
  - destruct (IH (CphProcessor.LogError s (ErrorHandling.code e)
                    (ErrorHandling.message e) (ErrorHandling.field_name e)
                    (ErrorHandling.invalid_value e))) as (H1 & H2 & H3).
    cbv zeta. rewrite H1, H2, H3. cbn. rewrite length_app. cbn.
    repeat split; lia.
Qed.

(** X13.  [CphProcessor::Initialize] succeeds exactly when
    [ParamValidator] accepts the bundle.  On success the processor is
    initialised, its parameters are the clamped bundle, which
    [CphParams::IsValid] accepts, the tone mapper and the highlight
    processor are initialised with that same bundle, and nothing is
    logged.  On failure the processor keeps its initialisation flag and
    parameters, and at least one error is added to the history. *)
Theorem Initialize_outcome (s : CphProcessor.Impl F32.float)
    (p : CphParams F32.float) :
  let r := CphProcessor.Initialize s p in
  let s' := fst r in
  snd r = CphProcessor.ValidateParams p
  /\ (snd r = true ->
      CphProcessor.initialized s' = true
      /\ CphProcessor.current_params s' = Params.ClampToValidRange p
      /\ Params.IsValid (CphProcessor.current_params s') = true
      /\ ToneMapper.initialized_ (CphProcessor.tone_mapper s') = true
      /\ ToneMapper.params_ (CphProcessor.tone_mapper s')
         = CphProcessor.current_params s'
      /\ HighlightDetailProcessor.initialized_
           (CphProcessor.highlight_processor s') = true
      /\ HighlightDetailProcessor.params_
           (CphProcessor.highlight_processor s')
         = CphProcessor.current_params s'
      /\ CphProcessor.error_history s' = CphProcessor.error_history s)
  /\ (snd r = false ->
      CphProcessor.initialized s' = CphProcessor.initialized s
      /\ CphProcessor.current_params s' = CphProcessor.current_params s
      /\ (List.length (CphProcessor.error_history s)
          < List.length (CphProcessor.error_history s'))%nat).
Proof.
  intros r s'. subst s' r.
  unfold CphProcessor.Initialize, CphProcessor.ValidateParams.
  pose proof (ValidateCphParams_reports p []) as Hrep.
  destruct (CphProcessor.ValidateCphParams p []) as [ok es].
  cbn [fst snd] in Hrep |- *.
  destruct ok; cbn [negb].
  - unfold ToneMapper.Initialize.
    rewrite (ClampToValidRange_valid p). cbn [negb].
    unfold HighlightDetailProcessor.Initialize.
    cbn [CphProcessor.highlight_processor].
    pose proof (ClampToValidRange_idem p) as Hidem.
    rewrite Hidem, (ClampToValidRange_valid p). cbn [negb fst snd].
    split; [reflexivity |]. split; [| discriminate].
    intros _. cbn. repeat split. apply ClampToValidRange_valid.
  - destruct (fold_LogError_history es s) as (H1 & H2 & H3).
    cbn [fst snd]. split; [reflexivity |]. split; [discriminate |].
    intros _. rewrite H1, H2, H3.
    specialize (Hrep eq_refl). cbn [List.length] in Hrep.
    repeat split; lia.
Qed.

(** ** Images and colour spaces *)

Lemma forallb_repeat_zero (n : nat) :
  forallb isfinite (repeat (zero : F32.float) n) = true.
Proof. induction n as [| n IH]; [reflexivity | exact IH]. Qed.

(** X14.  [Image(w, h, c)] with positive sizes whose product fits an
    [int] is a valid image.  On a
    valid image [GetPixel] returns the null pointer exactly for the
    coordinates outside the image, and any pointer it returns has all
    its channels inside the buffer. *)
Theorem Image_GetPixel_in_bounds (img : Img.Image F32.float)
    (w h c x y : Z) :
  ((0 < w)%Z -> (0 < h)%Z -> (0 < c)%Z -> (w * h * c <= 2147483647)%Z ->
   Image_IsValid (Img.new_image (zero : F32.float) w h c) = true)
  /\ (Image_IsValid img = true ->
      (Img.GetPixel img x y = None
       <-> ~ ((0 <= x < Img.width img)%Z /\ (0 <= y < Img.height img)%Z))
      /\ forall off, Img.GetPixel img x y = Some off ->
           (0 <= off)%Z
           /\ (off + Img.channels img
               <= Z.of_nat (List.length (Img.data img)))%Z).
Proof.
  split.
  - intros Hw Hh Hc _. unfold Image_IsValid, Img.new_image.
    cbn [Img.width Img.height Img.channels Img.data].
    destruct (Z.leb_spec w 0); [lia |].
    destruct (Z.leb_spec h 0); [lia |].
    destruct (Z.leb_spec c 0); [lia |].
    cbn [orb]. rewrite repeat_length, Z2Nat.id by nia.
    rewrite Z.eqb_refl. cbn [negb]. apply forallb_repeat_zero.
  - intros Hvalid.
    destruct (Image_IsValid_dims img Hvalid) as (Hw & Hh & Hc).
    assert (Hlen : Z.of_nat (List.length (Img.data img))
                   = (Img.width img * Img.height img * Img.channels img)%Z).
    { revert Hvalid. unfold Image_IsValid.
      destruct (_ || _ || _); [discriminate |].
      destruct (Z.eqb_spec (Z.of_nat (List.length (Img.data img)))
                  (Img.width img * Img.height img * Img.channels img));
        [intros _; assumption | discriminate]. }
    unfold Img.GetPixel.
    destruct (Z.ltb_spec x 0); destruct (Z.geb_spec x (Img.width img));
      destruct (Z.ltb_spec y 0); destruct (Z.geb_spec y (Img.height img));
      cbn [orb]; (split; [split; [intros; try discriminate; lia
                                 | intros; try reflexivity; exfalso; lia]
                         | intros off E; try discriminate]).
    injection E as <-. split; [nia |]. rewrite Hlen.
    assert ((y * Img.width img + x + 1) <= Img.width img * Img.height img)%Z
      by nia.
    nia.
Qed.

(** X15.  [ValidateColorSpaceTransform] supports a transform exactly
    when the two spaces are equal, or one of them is BT.2020 PQ and the
    other P3-D65 or ACEScg; in particular support is symmetric, and
    REC709 converts only to itself. *)
Theorem ValidateColorSpaceTransform_supported (a b : ColorSpace) :
  (ColorSpaceConverter.ValidateColorSpaceTransform a b = true
   <-> a = b
       \/ (a = BT2020_PQ /\ (b = P3_D65 \/ b = ACESG))
       \/ (b = BT2020_PQ /\ (a = P3_D65 \/ a = ACESG)))
  /\ ColorSpaceConverter.ValidateColorSpaceTransform a b
     = ColorSpaceConverter.ValidateColorSpaceTransform b a.
Proof.
  split; [| destruct a, b; reflexivity].
  destruct a, b; cbn; split; intros H; try discriminate; auto;
    try (now left); try (right; left; split; auto; fail);
    try (right; right; split; auto; fail);
    destruct H as [H | [[H1 [H2 | H2]] | [H1 [H2 | H2]]]];
    discriminate.
Qed.

End Binary32_Coverage.

(* ================================================================== *)
(** * Further scenarios at binary32, run with [F32.nan_libm] *)

Section Binary32_Coverage_Scenarios.

#[local] Existing Instance F32.nan_libm.

Lemma ShouldLog_ten_per_window_witness :
  ((1000 <= 1000 - ErrorHandling.window_start
                     (ErrorHandling.empty_map NAN_INF))%Z
   /\ Forall (fun now => (1000 <= now < 1000 + 1000)%Z) [1001; 1500]%Z)
  /\ Scenarios.log_calls [1000; 1001; 1500]%Z NAN_INF
       ErrorHandling.empty_map
     = [true; true; true].
Proof.
  assert (H1 : (1000 <= 1000 - ErrorHandling.window_start
                                 (ErrorHandling.empty_map NAN_INF))%Z)
    by (cbn; lia).
  assert (H2 : Forall (fun now => (1000 <= now < 1000 + 1000)%Z)
                 [1001; 1500]%Z)
    by (repeat constructor; lia).
  split; [split; assumption |].
  exact (proj1 (ShouldLog_ten_per_window 1000 NAN_INF [1001; 1500]%Z
                  ErrorHandling.empty_map H1 H2)).
Defined.

Lemma HandleError_burst_witness :
  ((1000 <= 1000 - ErrorHandling.window_start
                     (ErrorHandling.throttler_
                        (ErrorHandling.new_handler (F := F32.float))
                        NAN_INF))%Z
   /\ Forall (fun now => (1000 <= now < 1000 + 1000)%Z) [1001]%Z)
  /\ ErrorHandling.code
       (ErrorHandling.last_error_
          (Scenarios.handle_calls [1000; 1001]%Z NAN_INF "burst"
             (ErrorHandling.new_handler (F := F32.float))))
     = NAN_INF.
Proof.
  assert (H1 : (1000 <= 1000 - ErrorHandling.window_start
                                 (ErrorHandling.throttler_
                                    (ErrorHandling.new_handler
                                       (F := F32.float)) NAN_INF))%Z)
    by (cbn; lia).
  assert (H2 : Forall (fun now => (1000 <= now < 1000 + 1000)%Z) [1001]%Z)
    by (repeat constructor; lia).
  split; [split; assumption |].
  exact (proj2 (proj2 (HandleError_burst 1000 NAN_INF "burst" [1001]%Z
                         ErrorHandling.new_handler H1 H2))).
Defined.

Lemma ProcessFrame_output_valid_witness :
  (CphProcessor.initialized
     (Scenarios.ready_processor (F := F32.float)) = true
   /\ Image_IsValid (Scenarios.dark_frame (F := F32.float)) = true
   /\ (3 <= Img.channels (Scenarios.dark_frame (F := F32.float)))%Z)
  /\ snd (CphProcessor.ProcessFrame Scenarios.ready_processor
            (Scenarios.dark_frame (F := F32.float))
            (Img.new_image zero 0 0 3)) = true.
Proof.
  assert (H1 : CphProcessor.initialized
                 (Scenarios.ready_processor (F := F32.float)) = true)
    by reflexivity.
  assert (H2 : Image_IsValid (Scenarios.dark_frame (F := F32.float)) = true)
    by reflexivity.
  assert (H3 : (3 <= Img.channels
                       (Scenarios.dark_frame (F := F32.float)))%Z)
    by (cbn; lia).
  split; [exact (conj H1 (conj H2 H3)) |].
  exact (proj1 (ProcessFrame_output_valid Scenarios.ready_processor
                  Scenarios.dark_frame (Img.new_image zero 0 0 3)
                  H1 H2 H3)).
Defined.

Lemma ValidateCphParams_accepts_valid_witness :
  Params.IsValid (default_params (F := F32.float)) = true
  /\ CphProcessor.ValidateParams (default_params (F := F32.float)) = true.
Proof.
  assert (H1 : Params.IsValid (default_params (F := F32.float)) = true)
    by reflexivity.
  split; [exact H1 |].
  exact (proj2 (ValidateCphParams_accepts_valid default_params [] H1)).
Defined.

Lemma ApplyGamutProcessing_passes_in_gamut_witness :
  ColorSpaceConverter.IsInGamut
    (ratio 8 10, ratio 4 10, ratio 2 10 : F32.float) BT2020_PQ = true
  /\ snd (ColorSpaceConverter.ApplyGamutProcessing
            (ratio 8 10, ratio 4 10, ratio 2 10 : F32.float) BT2020_PQ
            false) = false.
Proof.
  assert (H1 : ColorSpaceConverter.IsInGamut
                 (ratio 8 10, ratio 4 10, ratio 2 10 : F32.float)
                 BT2020_PQ = true) by reflexivity.
  split; [exact H1 |].
  exact (proj1 (ApplyGamutProcessing_passes_in_gamut
                  (ratio 8 10) (ratio 4 10) (ratio 2 10) BT2020_PQ H1)).
Defined.

End Binary32_Coverage_Scenarios.

(* ================================================================== *)
(** * The tone curve at binary32, for every libm *)

Section Binary32_ToneCurve.

Context {m : F32.Libm}.







(** ** The descent of the RLOG curve between two grid points *)




(** ** The soft knee *)


End Binary32_ToneCurve.

(* ================================================================== *)
(** * The tone curve at binary32: scenarios *)

Section Binary32_ToneCurve_Scenarios.

#[local] Existing Instance F32.nan_libm.



End Binary32_ToneCurve_Scenarios.

(** ** With the logarithms of [Scenarios.log_table_libm] *)

Section Binary32_Log_Scenarios.

#[local] Existing Instance Scenarios.log_table_libm.


End Binary32_Log_Scenarios.

(* ================================================================== *)
(** * Further properties in exact arithmetic *)

Section Exact_Coverage.

#[local] Existing Instance Ideal.ops.

Local Open Scope R_scope.

Ltac case_R t :=
  let E := fresh "E" in
  destruct t eqn:E;
  [ first [ apply flt_R in E | apply fle_R in E ]
  | first [ apply flt_R_false in E | apply fle_R_false in E ] ].

(** ** The toe clamp *)

(** X20.  [ApplyToeClamp] never lowers a level, is idempotent, leaves
    non-positive levels and levels at or above the toe as they are, and
    lifts every positive level to at least a positive toe. *)
Theorem ApplyToeClamp_properties (tm : ToneMapper.ToneMapper R) (y : R) :
  let toe := toe (ToneMapper.params_ tm) in
  y <= ToneMapper.ApplyToeClamp tm y
  /\ ToneMapper.ApplyToeClamp tm (ToneMapper.ApplyToeClamp tm y)
     = ToneMapper.ApplyToeClamp tm y
  /\ (y <= 0 -> ToneMapper.ApplyToeClamp tm y = y)
  /\ (toe <= y -> ToneMapper.ApplyToeClamp tm y = y)
  /\ (0 < y -> 0 < toe -> toe <= ToneMapper.ApplyToeClamp tm y).
Proof.
  intros toe.
  assert (Hform : forall v,
            ToneMapper.ApplyToeClamp tm v
            = if Rle_dec toe 0 then v
              else if Rle_dec v 0 then v else Rmax v toe).
  { intros v. unfold ToneMapper.ApplyToeClamp. fold toe.
    cbn [zero fle Ideal.ops]. unfold Ideal.Rleb.
    destruct (Rle_dec toe 0); [reflexivity |].
    destruct (Rle_dec v 0); cbn [orb]; [reflexivity | apply std_max_R]. }
  rewrite (Hform (ToneMapper.ApplyToeClamp tm y)), !Hform.
  destruct (Rle_dec toe 0) as [Ht | Ht].
  - repeat split; intros; lra.
  - destruct (Rle_dec y 0) as [Hy | Hy].
    + destruct (Rle_dec y 0); [| lra]. repeat split; intros; lra.
    + pose proof (Rmax_l y toe). pose proof (Rmax_r y toe).
      destruct (Rle_dec (Rmax y toe) 0); [lra |].
      repeat split; intros; try lra; apply Rmax_left; lra.
Qed.

(** ** The validators of the tone mapper *)

Lemma insert_sorted_In_inv (z x : R) (l : list R) :
  In z (ToneMapper.insert_sorted x l) -> In z (x :: l).
Proof.
  induction l as [| w l IH]; cbn [ToneMapper.insert_sorted]; [trivial |].
  destruct (flt w x); [| trivial].
  intros [-> | Hz]; [right; now left |].
  destruct (IH Hz) as [-> | Hz']; [now left | right; now right].
Qed.

Lemma sort_In_inv (z : R) (l : list R) : In z (ToneMapper.sort l) -> In z l.
Proof.
  unfold ToneMapper.sort.
  induction l as [| x l IH]; cbn [fold_right]; [trivial |].
  intros Hz. apply insert_sorted_In_inv in Hz as [-> | Hz];
    [now left | right; auto].
Qed.

Lemma unique_from_In_inv (z : R) (l : list R) :
  forall x, In z (ToneMapper.unique_from x l) -> In z (x :: l).
Proof.
  induction l as [| w l IH]; intros x Hz; cbn [ToneMapper.unique_from] in Hz;
    [assumption |].
  destruct (feq x w).
  - destruct (IH x Hz) as [-> | Hz']; [now left | right; now right].
  - destruct Hz as [-> | Hz]; [now left | right; now apply IH].
Qed.

(** [std::unique] on a sorted run leaves a strictly increasing one. *)
Lemma unique_from_strict (l : list R) :
  forall x, StronglySorted Rle (x :: l) ->
            StronglySorted Rlt (ToneMapper.unique_from x l).
Proof.
  induction l as [| w l IH]; intros x Hx; cbn [ToneMapper.unique_from].
  - repeat constructor.
  - inversion Hx as [| ? ? Hwl Hxl]; subst.
    inversion Hxl as [| ? ? Hxw Hxl']; subst.
    destruct (feq x w) eqn:E.
    + apply IH. inversion Hwl; subst. now constructor.
    + assert (Hne : x <> w).
      { intros ->. assert (feq w w = true) by now apply feq_R. congruence. }
      constructor; [now apply IH |].
      apply Forall_forall. intros z Hz.
      apply unique_from_In_inv in Hz.
      inversion Hwl as [| ? ? _ Hwl']; subst.
      rewrite Forall_forall in Hwl'.
      destruct Hz as [<- | Hz]; [lra |].
      specialize (Hwl' z Hz). lra.
Qed.

(** X22.  The grid built by [ToneMapper::GenerateSamplePoints] from at
    least two uniform samples is strictly increasing (sorted, with no
    value twice), lies inside [[0,1]], and contains both end points 0
    and 1, for either curve type and any number of problem points. *)
Theorem GenerateSamplePoints_strictly_increasing
    (tm : ToneMapper.ToneMapper R) (sample_count problem_points : Z) :
  (2 <= sample_count)%Z ->
  let grid :=
    ToneMapper.GenerateSamplePoints tm sample_count problem_points in
  StronglySorted Rlt grid
  /\ (forall x, In x grid -> 0 <= x <= 1)
  /\ In 0 grid /\ In 1 grid.
Proof.
  intros Hn grid.
  assert (Hn1 : 0 < IZR (sample_count - 1)) by (apply IZR_lt; lia).
  split; [| split; [| split]].
  - subst grid. unfold ToneMapper.GenerateSamplePoints, ToneMapper.unique.
    match goal with |- context [ToneMapper.sort ?l] =>
      pose proof (sort_sorted l) as Hs; destruct (ToneMapper.sort l)
    end; [constructor | now apply unique_from_strict].
  - intros x Hx. subst grid.
    unfold ToneMapper.GenerateSamplePoints, ToneMapper.unique in Hx.
    match type of Hx with context [ToneMapper.sort ?l] =>
      assert (Hin : In x l)
    end.
    { apply sort_In_inv.
      match goal with |- In x ?s => destruct s end;
        [assumption | now apply unique_from_In_inv]. }
    apply in_app_or in Hin as [Hin | Hin].
    + apply in_map_iff in Hin as (i & <- & Hi).
      unfold ToneMapper.upto in Hi.
      apply in_map_iff in Hi as (k & <- & Hk). apply in_seq in Hk.
      cbn [of_int fdiv Ideal.ops].
      assert (0 <= IZR (Z.of_nat k) <= IZR (sample_count - 1))
        by (split; apply IZR_le; lia).
      split.
      * apply Rmult_le_pos; [lra | left; now apply Rinv_0_lt_compat].
      * apply Rmult_le_reg_r with (IZR (sample_count - 1)); [assumption |].
        unfold Rdiv. rewrite Rmult_assoc, Rinv_l by lra. lra.
    + destruct (curve (ToneMapper.params_ tm));
        apply in_map_iff in Hin as (i & <- & _);
        rewrite one_R; apply std_clamp_R; cbn [zero Ideal.ops]; lra.
  - replace 0 with (IZR 0 / IZR (sample_count - 1)) by (field; lra).
    apply GenerateSamplePoints_uniform. lia.
  - replace 1 with (IZR (sample_count - 1) / IZR (sample_count - 1))
      by (field; lra).
    apply GenerateSamplePoints_uniform. lia.
Qed.

Lemma ApplyToneMapping_initialized_nonneg
    (tm : ToneMapper.ToneMapper R) (x : R) :
  ToneMapper.initialized_ tm = true ->
  0 <= ToneMapper.ApplyToneMapping tm x.
Proof.
  intros Hi. unfold ToneMapper.ApplyToneMapping. rewrite Hi.
  change (NumericalProtection.IsValid x) with true. cbn [negb].
  rewrite one_R. apply (std_clamp_R _ 0 1). lra.
Qed.

(** The loop of the validator, read as a statement about the list. *)
Lemma monotonic_from_spec (tm : ToneMapper.ToneMapper R) (l : list R) :
  forall prev,
    ToneMapper.monotonic_from tm prev l = true
    <-> (forall x, hd_error l = Some x ->
           prev <= ToneMapper.ApplyToneMapping tm x)
        /\ (forall i x y,
              nth_error l i = Some x -> nth_error l (S i) = Some y ->
              ToneMapper.ApplyToneMapping tm x
              <= ToneMapper.ApplyToneMapping tm y).
Proof.
  induction l as [| a l IH]; intros prev; cbn [ToneMapper.monotonic_from].
  - split; [| reflexivity]. intros _. split.
    + intros x Hx. discriminate.
    + intros [| i] x y Hx; discriminate.
  - case_R (flt (ToneMapper.ApplyToneMapping tm a) prev).
    + split; [discriminate |]. intros [H _].
      specialize (H a eq_refl). lra.
    + rewrite IH. split.
      * intros [Hhd Hpairs]. split.
        -- intros x Hx. injection Hx as <-. assumption.
        -- intros [| i] x y Hx Hy; cbn in Hx, Hy.
           ++ injection Hx as <-. apply Hhd.
              destruct l; [discriminate | exact Hy].
           ++ eapply Hpairs; eassumption.
      * intros [_ Hpairs]. split.
        -- intros x Hx. apply (Hpairs 0%nat a x eq_refl).
           destruct l; [discriminate | exact Hx].
        -- intros i x y Hx Hy. apply (Hpairs (S i) x y Hx Hy).
Qed.

(** X23.  On an initialised mapper, whatever its parameters,
    [ToneMapper::ValidateMonotonicity] returns [true] exactly when the
    evaluator is non-decreasing along every pair of consecutive grid
    points: the validator accepts no curve with a descent on the grid
    and rejects none without. *)
Theorem ValidateMonotonicity_sound_complete
    (tm : ToneMapper.ToneMapper R) (sample_count problem_points : Z) :
  ToneMapper.initialized_ tm = true ->
  let grid :=
    ToneMapper.GenerateSamplePoints tm sample_count problem_points in
  ToneMapper.ValidateMonotonicity tm sample_count problem_points = true
  <-> forall i x y,
        nth_error grid i = Some x -> nth_error grid (S i) = Some y ->
        ToneMapper.ApplyToneMapping tm x <= ToneMapper.ApplyToneMapping tm y.
Proof.
  intros Hi grid. unfold ToneMapper.ValidateMonotonicity.
  rewrite Hi. cbn [negb]. fold grid. rewrite monotonic_from_spec.
  split; [intros [_ H]; exact H |].
  intros H. split; [| exact H].
  intros x _. pose proof (ApplyToneMapping_initialized_nonneg tm x Hi).
  rewrite one_R. cbn [fneg Ideal.ops]. lra.
Qed.

(** ** The Gaussian blur and the unsharp mask *)

Lemma fold_left_Rplus_acc (l : list R) :
  forall a, fold_left Rplus l a = a + fold_left Rplus l 0.
Proof.
  induction l as [| x l IH]; intros a; cbn [fold_left]; [ring |].
  rewrite (IH (a + x)), (IH (0 + x)). ring.
Qed.

Lemma fold_left_Rplus_scaled (l : list R) (s : R) :
  fold_left Rplus (map (fun k => k / s) l) 0 = fold_left Rplus l 0 / s.
Proof.
  induction l as [| x l IH]; cbn [map fold_left]; [unfold Rdiv; ring |].
  rewrite (fold_left_Rplus_acc _ (0 + x / s)), IH.
  rewrite (fold_left_Rplus_acc l (0 + x)). unfold Rdiv. ring.
Qed.

Lemma fold_left_Rplus_pos (l : list R) :
  l <> [] -> (forall x, In x l -> 0 < x) -> 0 < fold_left Rplus l 0.
Proof.
  destruct l as [| x l]; [congruence |]. intros _ H.
  cbn [fold_left]. rewrite fold_left_Rplus_acc.
  assert (Hx : 0 < x) by (apply H; now left).
  assert (0 <= fold_left Rplus l 0).
  { clear Hx. induction l as [| y l IH]; cbn [fold_left]; [lra |].
    rewrite fold_left_Rplus_acc.
    assert (0 < y) by (apply H; right; now left).
    assert (0 <= fold_left Rplus l 0)
      by (apply IH; intros z [-> | Hz]; apply H; [now left | right; now right]).
    lra. }
  lra.
Qed.

Lemma upto_length (n : Z) : List.length (ToneMapper.upto n) = Z.to_nat n.
Proof. unfold ToneMapper.upto. now rewrite length_map, length_seq. Qed.

Lemma ComputeGaussianKernel_sum (radius : Z) (sigma : R) :
  (0 <= radius)%Z ->
  fold_left Rplus
    (HighlightDetailProcessor.ComputeGaussianKernel radius sigma) 0 = 1.
Proof.
  intros Hr. unfold HighlightDetailProcessor.ComputeGaussianKernel.
  cbn [zero fadd fdiv fmul expf of_int ratio Ideal.ops].
  rewrite fold_left_Rplus_scaled. field.
  apply Rgt_not_eq, fold_left_Rplus_pos.
  - intros E. apply (f_equal (@List.length R)) in E.
    rewrite length_map, upto_length in E. cbn [List.length] in E. lia.
  - intros x Hx. apply in_map_iff in Hx as (i & <- & _). apply exp_pos.
Qed.

Lemma fold_left_ext_in {A B : Type} (f g : A -> B -> A) (l : list B) :
  (forall a b, f a b = g a b) ->
  forall a, fold_left f l a = fold_left g l a.
Proof.
  intros H. induction l as [| b l IH]; intros a; cbn [fold_left];
    [reflexivity |].
  now rewrite H, IH.
Qed.

Lemma weighted_taps (v : R) (l : list R) :
  forall (pre : list R) (a : R),
    fold_left
      (fun sum k => sum + v * nth (Z.to_nat k) (pre ++ l) 0)
      (map Z.of_nat (seq (List.length pre) (List.length l))) a
    = a + v * fold_left Rplus l 0.
Proof.
  induction l as [| x l IH]; intros pre a; cbn [List.length seq map fold_left].
  - ring.
  - rewrite Nat2Z.id, nth_middle.
    replace (pre ++ x :: l) with ((pre ++ [x]) ++ l)
      by (now rewrite <- app_assoc).
    replace (S (List.length pre)) with (List.length (pre ++ [x]))
      by (rewrite length_app; cbn; lia).
    rewrite IH, (fold_left_Rplus_acc l (0 + x)). ring.
Qed.

(** A weighted sum of equal samples is the sample times the sum of the
    weights. *)
Lemma blur_tap_sum_flat (kernel : list R) (src : Z -> R) (v : R) :
  (forall k, src k = v) ->
  HighlightDetailProcessor.blur_tap_sum kernel src
  = v * fold_left Rplus kernel 0.
Proof.
  intros Hsrc. unfold HighlightDetailProcessor.blur_tap_sum.
  cbn [zero fadd fmul Ideal.ops].
  rewrite (fold_left_ext_in _
             (fun sum k => sum + v * nth (Z.to_nat k) kernel 0))
    by (intros a k; now rewrite Hsrc).
  unfold ToneMapper.upto. rewrite Nat2Z.id.
  pose proof (weighted_taps v kernel [] 0) as H.
  cbn [List.length app] in H. rewrite H. ring.
Qed.

Lemma clampZ_range (v lo hi : Z) :
  (lo <= hi)%Z ->
  (lo <= HighlightDetailProcessor.clampZ v lo hi <= hi)%Z.
Proof.
  intros H. unfold HighlightDetailProcessor.clampZ.
  destruct (Z.ltb_spec v lo); [lia |].
  destruct (Z.ltb_spec hi v); lia.
Qed.

Lemma ApplyGaussianBlur_flat (input : Img.Image R) (v : R) :
  Shapes.flat input v ->
  Shapes.flat (HighlightDetailProcessor.ApplyGaussianBlur input 2 (ratio 1 1)) v.
Proof.
  intros Hflat x y c Hx Hy Hc.
  cbn [HighlightDetailProcessor.ApplyGaussianBlur Img.width Img.height
       Img.channels] in Hx, Hy, Hc.
  pose proof (ComputeGaussianKernel_sum 2 (ratio 1 1) ltac:(lia)) as Hsum.
  unfold HighlightDetailProcessor.ApplyGaussianBlur.
  rewrite at_xy_tabulate by assumption.
  rewrite (blur_tap_sum_flat _ _ v); [rewrite Hsum; ring |].
  intros k.
  pose proof (clampZ_range (y + k - 2) 0 (Img.height input - 1)
                ltac:(lia)).
  rewrite at_xy_tabulate by lia.
  rewrite (blur_tap_sum_flat _ _ v); [rewrite Hsum; ring |].
  intros k'.
  pose proof (clampZ_range (x + k' - 2) 0 (Img.width input - 1)
                ltac:(lia)).
  apply Hflat; lia.
Qed.

(** X28.  A flat frame passes through the highlight-detail stage
    unchanged: on an initialised processor, for a valid frame whose
    samples all equal one level [v] of [[0,1]],
    [HighlightDetailProcessor::ProcessFrame] succeeds and every sample
    of its output is [v], whatever the pivot and the detail strength
    (the blur of a flat frame is the frame, so the detail layer is
    zero). *)
Theorem ProcessFrame_flat_frame
    (hp : HighlightDetailProcessor.HighlightDetailProcessor R)
    (input output0 : Img.Image R) (pivot v : R) :
  HighlightDetailProcessor.initialized_ hp = true ->
  Image_IsValid input = true ->
  0 <= v <= 1 ->
  Shapes.flat input v ->
  let r := HighlightDetailProcessor.ProcessFrame hp input output0 pivot in
  snd r = true /\ Shapes.flat (snd (fst r)) v.
Proof.
  intros Hi Hvalid Hv Hflat r. subst r.
  unfold HighlightDetailProcessor.ProcessFrame. rewrite Hi, Hvalid.
  cbn [negb].
  destruct (fle _ _); [split; [reflexivity | exact Hflat] |].
  unfold HighlightDetailProcessor.ApplyUSM. cbn [fst snd].
  split; [reflexivity |].
  intros x y c Hx Hy Hc. cbn [Img.width Img.height Img.channels] in Hx, Hy, Hc.
  rewrite at_xy_tabulate by assumption.
  unfold HighlightDetailProcessor.ComputeUnsharpMask.
  rewrite at_xy_tabulate by assumption.
  rewrite (ApplyGaussianBlur_flat input v Hflat x y c) by assumption.
  rewrite (Hflat x y c) by assumption.
  unfold fgt. cbn [zero fsub fabs fmul fadd ratio Ideal.ops].
  replace (v - v) with 0 by ring. rewrite Rabs_R0.
  case_R (flt (3 / 100) 0); [lra |].
  rewrite Rmult_0_l, Rplus_0_r. rewrite one_R.
  apply (std_clamp_R v 0 1); lra.
Qed.

(** ** The highlight mask *)

(** X30.  For a pivot below 1, the mask written by
    [ComputeHighlightMask] at a pixel of the image lies in [[0,1]]; it
    is 0 exactly when the MaxRGB of the pixel does not exceed the pivot,
    it is 1 from MaxRGB 1 on, and in between it is the linear ramp
    [(MaxRGB - pivot) / (1 - pivot)]. *)
Theorem ComputeHighlightMask_ramp (image : Img.Image R) (pivot : R)
    (x y : Z) :
  (0 <= x < Img.width image)%Z -> (0 <= y < Img.height image)%Z ->
  pivot < 1 ->
  let lum := HighlightDetailUtils.MaxRGB image x y in
  let mask :=
    Img.at_xy zero (HighlightDetailUtils.ComputeHighlightMask image pivot)
      x y 0 in
  0 <= mask <= 1
  /\ (mask = 0 <-> lum <= pivot)
  /\ (1 <= lum -> mask = 1)
  /\ (pivot <= lum <= 1 -> mask = (lum - pivot) / (1 - pivot)).
Proof.
  intros Hx Hy Hp lum mask. subst mask.
  unfold HighlightDetailUtils.ComputeHighlightMask.
  rewrite at_xy_tabulate by lia. fold lum. unfold fgt. rewrite one_R.
  cbn [zero fsub fdiv Ideal.ops].
  assert (Hinv : 0 < / (1 - pivot)) by (apply Rinv_0_lt_compat; lra).
  destruct (std_clamp_R ((lum - pivot) / (1 - pivot)) 0 1)
    as (Hr & Ein & _ & Ehi); [lra |].
  case_R (flt pivot lum).
  - assert (Hq : 0 < (lum - pivot) / (1 - pivot))
      by (apply Rdiv_lt_0_compat; lra).
    assert (Hq1 : lum <= 1 -> (lum - pivot) / (1 - pivot) <= 1).
    { intros H1. apply Rmult_le_reg_r with (1 - pivot); [lra |].
      unfold Rdiv. rewrite Rmult_assoc, Rinv_l by lra. lra. }
    assert (Hq2 : 1 <= lum -> 1 <= (lum - pivot) / (1 - pivot)).
    { intros H1. apply Rmult_le_reg_r with (1 - pivot); [lra |].
      unfold Rdiv. rewrite Rmult_assoc, Rinv_l by lra. lra. }
    split; [exact Hr |]. split; [| split].
    + split; [| lra]. intros E0.
      destruct (Rle_lt_dec lum 1) as [H1 | H1].
      * rewrite Ein in E0 by (split; [lra | auto]). lra.
      * rewrite Ehi in E0 by (apply Hq2; lra). lra.
    + intros H1. apply Ehi. auto.
    + intros [_ H1]. apply Ein. split; [lra | auto].
  - split; [lra |]. split; [split; [intros _; assumption | reflexivity] |].
    split; [lra |].
    intros [H0 H1]. replace lum with pivot by lra.
    unfold Rdiv. ring.
Qed.

End Exact_Coverage.

(* ================================================================== *)
(** * Further scenarios in exact arithmetic *)

Section Exact_Coverage_Scenarios.

#[local] Existing Instance Ideal.ops.

Local Open Scope R_scope.

Lemma GenerateSamplePoints_strictly_increasing_witness :
  (2 <= 4096)%Z
  /\ In 1 (ToneMapper.GenerateSamplePoints
             (Scenarios.default_mapper (F := R)) 4096 256).
Proof.
  assert (H1 : (2 <= 4096)%Z) by lia.
  split; [exact H1 |].
  exact (proj2 (proj2 (proj2
    (GenerateSamplePoints_strictly_increasing Scenarios.default_mapper
       4096 256 H1)))).
Defined.

Lemma ValidateMonotonicity_sound_complete_witness :
  ToneMapper.initialized_ (Scenarios.default_mapper (F := R)) = true
  /\ (ToneMapper.ValidateMonotonicity Scenarios.default_mapper 4096 256
      = true
      <-> forall i x y,
            nth_error
              (ToneMapper.GenerateSamplePoints Scenarios.default_mapper
                 4096 256) i = Some x ->
            nth_error
              (ToneMapper.GenerateSamplePoints Scenarios.default_mapper
                 4096 256) (S i) = Some y ->
            ToneMapper.ApplyToneMapping Scenarios.default_mapper x
            <= ToneMapper.ApplyToneMapping Scenarios.default_mapper y).
Proof.
  assert (H1 : ToneMapper.initialized_ (Scenarios.default_mapper (F := R))
               = true) by reflexivity.
  split; [exact H1 |].
  exact (ValidateMonotonicity_sound_complete Scenarios.default_mapper
           4096 256 H1).
Defined.

Lemma dark_frame_flat :
  Shapes.flat (Scenarios.dark_frame (F := R)) (1 / 10).
Proof.
  intros x y c Hx Hy Hc.
  cbn [Scenarios.dark_frame Img.width Img.height Img.channels] in Hx, Hy, Hc.
  assert (x = 0%Z) by lia. assert (y = 0%Z) by lia. subst x y.
  assert (Ec : c = 0%Z \/ c = 1%Z \/ c = 2%Z) by lia.
  destruct Ec as [-> | [-> | ->]]; reflexivity.
Qed.

Lemma ProcessFrame_flat_frame_witness :
  (HighlightDetailProcessor.initialized_
     (fst (HighlightDetailProcessor.Initialize
             (HighlightDetailProcessor.new_processor (F := R))
             default_params)) = true
   /\ Image_IsValid (Scenarios.dark_frame (F := R)) = true
   /\ 0 <= 1 / 10 <= 1
   /\ Shapes.flat (Scenarios.dark_frame (F := R)) (1 / 10))
  /\ snd (HighlightDetailProcessor.ProcessFrame
            (fst (HighlightDetailProcessor.Initialize
                    HighlightDetailProcessor.new_processor default_params))
            Scenarios.dark_frame (Img.new_image zero 0 0 3) (18 / 100))
     = true.
Proof.
  assert (H1 : HighlightDetailProcessor.initialized_
                 (fst (HighlightDetailProcessor.Initialize
                         (HighlightDetailProcessor.new_processor (F := R))
                         default_params)) = true).
  { unfold HighlightDetailProcessor.Initialize.
    now rewrite ClampToValidRange_IsValid_R. }
  assert (H2 : Image_IsValid (Scenarios.dark_frame (F := R)) = true)
    by reflexivity.
  assert (H3 : 0 <= 1 / 10 <= 1) by lra.
  split; [exact (conj H1 (conj H2 (conj H3 dark_frame_flat))) |].
  exact (proj1 (ProcessFrame_flat_frame _ Scenarios.dark_frame
                  (Img.new_image zero 0 0 3) (18 / 100) (1 / 10)
                  H1 H2 H3 dark_frame_flat)).
Defined.

Lemma ComputeHighlightMask_ramp_witness :
  ((0 <= 0 < Img.width (Scenarios.dark_frame (F := R)))%Z
   /\ (0 <= 0 < Img.height (Scenarios.dark_frame (F := R)))%Z
   /\ 18 / 100 < 1)
  /\ 0 <= Img.at_xy zero
            (HighlightDetailUtils.ComputeHighlightMask Scenarios.dark_frame
               (18 / 100)) 0 0 0 <= 1.
Proof.
  assert (H1 : (0 <= 0 < Img.width (Scenarios.dark_frame (F := R)))%Z)
    by (cbn; lia).
  assert (H2 : (0 <= 0 < Img.height (Scenarios.dark_frame (F := R)))%Z)
    by (cbn; lia).
  assert (H3 : 18 / 100 < 1) by lra.
  split; [exact (conj H1 (conj H2 H3)) |].
  exact (proj1 (ComputeHighlightMask_ramp Scenarios.dark_frame (18 / 100)
                  0 0 H1 H2 H3)).
Defined.

End Exact_Coverage_Scenarios.
